(** * Keyed lookup structures of [main.cpp]

    A shallow embedding of the four lookup components of the program
    (linear scan, unbalanced binary search tree, red-black tree with parent
    pointers, chained hash table) and the proofs of their specification.

    - [linearSearch], [BinarySearchTree], [HashTable] are pure: the code
      owns its data exclusively, so values stand for the C++ objects.
    - [RedBlackTree] keeps parent back-references, so its nodes live in an
      explicit store (an arena of nodes addressed by index); [Node*] is an
      optional address and every dereference of a null or dangling pointer
      is a fault of the error-and-state monad [RedBlackTree.M].
    - [std::multimap] is the ordered sequence that its iterators walk.
    - The random engine is a parameter: [generateData] and the rounds of
      [main] thread its state and are stated for every engine; the clock
      and the output streams of [main] are left out. *)

From Stdlib Require Import ZArith Lia Bool Ascii String OrderedTypeEx PrimFloat.
From stdpp Require Import base list sorting strings pretty.

(** ** Data model *)

(** [struct Object]: [id] is a [size_t], [name] the search key, [value] a
    [double] that no operation ever inspects. *)
Record Object := mkObject {
  id : Z;
  name : string;
  value : float
}.

(** [std::string::operator==] and [operator<]: byte equality and the
    lexicographic order on unsigned bytes. *)
Definition str_eq (a b : string) : bool := String.eqb a b.
Definition str_lt (a b : string) : bool := String.ltb a b.

(** [linearSearch]: scan [data] front to back, [push_back] every match. *)
Definition linearSearch (data : list Object) (key : string) : list Object :=
  fold_left
    (fun result obj => if str_eq (name obj) key then result ++ [obj] else result)
    data [].

(** ** Ordered tree (unbalanced binary search tree) *)

Module BinarySearchTree.

(** [Node*]: [null] is [nullptr]; a node owns its two children. *)
Inductive tree :=
| null
| node (key : string) (values : list Object) (left right : tree).

(** [new Node(name, obj)]. *)
Definition new_node (nm : string) (obj : Object) : tree :=
  node nm [obj] null null.

(** [insert]: the walk from [cur]; the case [null] is the allocation at the
    place where the C++ loop found a missing child (or a missing root). *)
Fixpoint insert_at (cur : tree) (obj : Object) : tree :=
  match cur with
  | null => new_node (name obj) obj
  | node k vs l r =>
      if str_eq (name obj) k then node k (vs ++ [obj]) l r
      else if str_lt (name obj) k then node k vs (insert_at l obj) r
      else node k vs l (insert_at r obj)
  end.

Definition insert (obj : Object) (root : tree) : tree := insert_at root obj.

(** [search]: the same walk; [{}] when it falls off the tree. *)
Fixpoint search (cur : tree) (key : string) : list Object :=
  match cur with
  | null => []
  | node k vs l r =>
      if str_eq key k then vs
      else if str_lt key k then search l key
      else search r key
  end.

Definition empty : tree := null.

(** The tree after inserting [objs] one after the other. *)
Definition insert_all (objs : list Object) (root : tree) : tree :=
  fold_left (fun t o => insert o t) objs root.

(** Specification vocabulary. *)
Fixpoint keys (t : tree) : list string :=
  match t with
  | null => []
  | node k _ l r => keys l ++ k :: keys r
  end.

(** The ordering invariant, as the specification words it. *)
Fixpoint ordered (t : tree) : Prop :=
  match t with
  | null => True
  | node k _ l r =>
      (forall x, x ∈ keys l -> str_lt x k = true) /\
      (forall x, x ∈ keys r -> str_lt k x = true) /\
      ordered l /\ ordered r
  end.

Fixpoint node_count (t : tree) : nat :=
  match t with
  | null => 0%nat
  | node _ _ l r => S (node_count l + node_count r)
  end.

(** Every node of the tree: its key with its records. *)
Fixpoint entries (t : tree) : list (string * list Object) :=
  match t with
  | null => []
  | node k vs l r => entries l ++ (k, vs) :: entries r
  end.

(** The number of nodes on the longest walk from the root. *)
Fixpoint height (t : tree) : nat :=
  match t with
  | null => 0%nat
  | node _ _ l r => S (Nat.max (height l) (height r))
  end.

(** A tree in which every node hangs to the right of the one before. *)
Fixpoint spine (objs : list Object) : tree :=
  match objs with
  | [] => null
  | o :: rest => node (name o) [o] null (spine rest)
  end.

(** The walk of [search], at most [fuel] nodes visited: [None] when the
    walk is longer. *)
Fixpoint search_within (fuel : nat) (cur : tree) (key : string) {struct cur}
    : option (list Object) :=
  match cur with
  | null => Some []
  | node k vs l r =>
      match fuel with
      | O => None
      | S fuel' =>
          if str_eq key k then Some vs
          else if str_lt key k then search_within fuel' l key
          else search_within fuel' r key
      end
  end.

End BinarySearchTree.

(** ** Balanced tree (red-black, with parent pointers) *)

Module RedBlackTree.

Inductive Color := RED | BLACK.

Definition is_red (c : Color) : bool :=
  match c with RED => true | BLACK => false end.

(** [Node*]: [None] is [nullptr], [Some a] the node in slot [a]. *)
Definition ptr := option nat.

Definition ptr_eqb (p q : ptr) : bool :=
  match p, q with
  | None, None => true
  | Some a, Some b => Nat.eqb a b
  | _, _ => false
  end.

Record Node := mkNode {
  key : string;
  values : list Object;
  color : Color;
  left : ptr;
  right : ptr;
  parent : ptr
}.

(** The tree object: its [root] field and the nodes it has allocated. *)
Record state := mkState {
  root : ptr;
  heap : list Node
}.

(** Computations that read and write the store and may fault. *)
Definition M (A : Type) : Type := state -> option (A * state).

Definition ret {A} (a : A) : M A := fun s => Some (a, s).
Definition bind {A B} (m : M A) (k : A -> M B) : M B :=
  fun s => match m s with
           | Some (a, s') => k a s'
           | None => None
           end.
Definition fault {A} : M A := fun _ => None.

Notation "x <- m ;; k" := (bind m (fun x => k))
  (at level 100, m at next level, right associativity).
Notation "m ;; k" := (bind m (fun _ => k))
  (at level 100, right associativity).

(** [*p]: faults on [nullptr] and on an address that was never allocated. *)
Definition load (p : ptr) : M Node :=
  fun s => match p with
           | Some a => match heap s !! a with
                       | Some nd => Some (nd, s)
                       | None => None
                       end
           | None => None
           end.

(** [p->f]. *)
Definition field {A} (f : Node -> A) (p : ptr) : M A :=
  nd <- load p ;; ret (f nd).

(** [p->f = v], as an update [upd] of the node behind [p]. *)
Definition store (p : ptr) (upd : Node -> Node) : M unit :=
  fun s => match p with
           | Some a => match heap s !! a with
                       | Some nd =>
                           Some (tt, mkState (root s) (<[a := upd nd]> (heap s)))
                       | None => None
                       end
           | None => None
           end.

Definition set_color (c : Color) (nd : Node) : Node :=
  mkNode (key nd) (values nd) c (left nd) (right nd) (parent nd).
Definition set_left (p : ptr) (nd : Node) : Node :=
  mkNode (key nd) (values nd) (color nd) p (right nd) (parent nd).
Definition set_right (p : ptr) (nd : Node) : Node :=
  mkNode (key nd) (values nd) (color nd) (left nd) p (parent nd).
Definition set_parent (p : ptr) (nd : Node) : Node :=
  mkNode (key nd) (values nd) (color nd) (left nd) (right nd) p.
(** [values.push_back(obj)]. *)
Definition push_value (obj : Object) (nd : Node) : Node :=
  mkNode (key nd) (values nd ++ [obj]) (color nd) (left nd) (right nd) (parent nd).

(** [new Node(name, obj, c, p)]: a fresh slot; both children are null. *)
Definition new_node (nm : string) (obj : Object) (c : Color) (p : ptr) : M ptr :=
  fun s => Some (Some (length (heap s)),
                 mkState (root s) (heap s ++ [mkNode nm [obj] c None None p])).

Definition get_root : M ptr := fun s => Some (root s, s).
Definition set_root (p : ptr) : M unit := fun s => Some (tt, mkState p (heap s)).

(** A bound on the iterations of a loop that walks a path of the tree: the
    number of allocated nodes. *)
Definition node_count : M nat := fun s => Some (length (heap s), s).

(** [transplant(u, v)]. *)
Definition transplant (u v : ptr) : M unit :=
  up <- field parent u ;;
  match up with
  | None => set_root v
  | Some _ =>
      upl <- field left up ;;
      if ptr_eqb u upl then store up (set_left v)
      else store up (set_right v)
  end ;;
  match v with
  | Some _ => up' <- field parent u ;; store v (set_parent up')
  | None => ret tt
  end.

(** [rotateLeft(x)]. *)
Definition rotateLeft (x : ptr) : M unit :=
  y <- field right x ;;
  yl <- field left y ;;
  store x (set_right yl) ;;
  yl' <- field left y ;;
  match yl' with
  | Some _ => store yl' (set_parent x)
  | None => ret tt
  end ;;
  transplant x y ;;
  store y (set_left x) ;;
  store x (set_parent y).

(** [rotateRight(x)]. *)
Definition rotateRight (x : ptr) : M unit :=
  y <- field left x ;;
  yr <- field right y ;;
  store x (set_left yr) ;;
  yr' <- field right y ;;
  match yr' with
  | Some _ => store yr' (set_parent x)
  | None => ret tt
  end ;;
  transplant x y ;;
  store y (set_right x) ;;
  store x (set_parent y).

(** [u && u->color == RED]. *)
Definition red_ptr (u : ptr) : M bool :=
  match u with
  | Some _ => c <- field color u ;; ret (is_red c)
  | None => ret false
  end.

(** The loop condition of [insertFix]:
    [n != root && n->parent->color == RED]. *)
Definition fix_cond (n : ptr) : M bool :=
  r <- get_root ;;
  if ptr_eqb n r then ret false
  else
    p <- field parent n ;;
    c <- field color p ;;
    ret (is_red c).

(** One pass through the loop body of [insertFix]; the result is the value
    of [n] at the end of the pass. *)
Definition fix_body (n : ptr) : M ptr :=
  p <- field parent n ;;
  g <- field parent p ;;
  gl <- field left g ;;
  if ptr_eqb p gl then
    u <- field right g ;;
    ured <- red_ptr u ;;
    if ured then
      store p (set_color BLACK) ;;
      store u (set_color BLACK) ;;
      store g (set_color RED) ;;
      ret g
    else
      pr <- field right p ;;
      npg <- (if ptr_eqb n pr then
                rotateLeft p ;;
                p' <- field parent p ;;
                g' <- field parent p' ;;
                ret (p, p', g')
              else ret (n, p, g)) ;;
      let '(n, p, g) := npg in
      store p (set_color BLACK) ;;
      store g (set_color RED) ;;
      rotateRight g ;;
      ret n
  else
    u <- field left g ;;
    ured <- red_ptr u ;;
    if ured then
      store p (set_color BLACK) ;;
      store u (set_color BLACK) ;;
      store g (set_color RED) ;;
      ret g
    else
      pl <- field left p ;;
      npg <- (if ptr_eqb n pl then
                rotateRight p ;;
                p' <- field parent p ;;
                g' <- field parent p' ;;
                ret (p, p', g')
              else ret (n, p, g)) ;;
      let '(n, p, g) := npg in
      store p (set_color BLACK) ;;
      store g (set_color RED) ;;
      rotateLeft g ;;
      ret n.

(** The [while] loop of [insertFix], at most [fuel] tests of its condition. *)
Fixpoint fix_loop (fuel : nat) (n : ptr) : M unit :=
  match fuel with
  | O => fault
  | S fuel' =>
      b <- fix_cond n ;;
      if b then n' <- fix_body n ;; fix_loop fuel' n'
      else ret tt
  end.

(** [insertFix(n)]. *)
Definition insertFix (n : ptr) : M unit :=
  fuel <- node_count ;;
  fix_loop fuel n ;;
  r <- get_root ;;
  store r (set_color BLACK).

(** The [while (cur)] loop of [insert]: [None] when the key was found (the
    record is appended and [insert] returns), otherwise the last node
    visited, the parent of the new node. *)
Fixpoint descend (fuel : nat) (obj : Object) (cur par : ptr) : M (option ptr) :=
  match cur with
  | None => ret (Some par)
  | Some _ =>
      match fuel with
      | O => fault
      | S fuel' =>
          k <- field key cur ;;
          if str_eq (name obj) k then
            store cur (push_value obj) ;; ret None
          else
            nxt <- (if str_lt (name obj) k then field left cur
                    else field right cur) ;;
            descend fuel' obj nxt cur
      end
  end.

(** [insert] up to the call of [insertFix]: [Some node] when a new RED
    node was linked below its parent, [None] when [insert] has returned
    (first node of the tree, or key already present). *)
Definition attach (obj : Object) : M (option ptr) :=
  r <- get_root ;;
  match r with
  | None =>
      nd <- new_node (name obj) obj BLACK None ;;
      set_root nd ;;
      ret None
  | Some _ =>
      fuel <- node_count ;;
      found <- descend fuel obj r None ;;
      match found with
      | None => ret None
      | Some par =>
          nd <- new_node (name obj) obj RED par ;;
          pk <- field key par ;;
          (if str_lt (name obj) pk then store par (set_left nd)
           else store par (set_right nd)) ;;
          ret (Some nd)
      end
  end.

(** [insert(obj)]. *)
Definition insert (obj : Object) : M unit :=
  linked <- attach obj ;;
  match linked with
  | Some nd => insertFix nd
  | None => ret tt
  end.

(** [search(key)]: the [while (cur)] loop, at most [fuel] nodes visited. *)
Fixpoint search_from (fuel : nat) (key0 : string) (cur : ptr) : M (list Object) :=
  match cur with
  | None => ret []
  | Some _ =>
      match fuel with
      | O => fault
      | S fuel' =>
          k <- field key cur ;;
          if str_eq key0 k then field values cur
          else if str_lt key0 k then
            nxt <- field left cur ;; search_from fuel' key0 nxt
          else
            nxt <- field right cur ;; search_from fuel' key0 nxt
      end
  end.

Definition search (key0 : string) : M (list Object) :=
  fuel <- node_count ;;
  r <- get_root ;;
  search_from fuel key0 r.

(** [RedBlackTree() = default]. *)
Definition empty : state := mkState None [].

(** [n->f] while the destructor runs: [freed] lists the nodes deleted so
    far; reading a deleted node is a fault. *)
Definition read (s : state) (freed : list nat) (a : nat) : option Node :=
  if bool_decide (a ∈ freed) then None else heap s !! a.

(** [delete n]: deleting a node twice is a fault. *)
Definition delete (s : state) (freed : list nat) (a : nat) : option (list nat) :=
  match read s freed a with
  | Some _ => Some (freed ++ [a])
  | None => None
  end.

(** [clear(n)]: [fuel] bounds the depth of the recursion. *)
Fixpoint clear (fuel : nat) (n : ptr) (s : state) (freed : list nat)
    : option (list nat) :=
  match n with
  | None => Some freed
  | Some a =>
      match fuel with
      | O => None
      | S fuel' =>
          nd ← read s freed a;
          freed1 ← clear fuel' (left nd) s freed;
          nd' ← read s freed1 a;
          freed2 ← clear fuel' (right nd') s freed1;
          delete s freed2 a
      end
  end.

(** [~RedBlackTree()]: the nodes deleted, in the order of their deletion. *)
Definition destroy (s : state) : option (list nat) :=
  clear (length (heap s)) (root s) s [].

(** The tree after inserting [objs] one after the other; [None] if some
    insert faults. *)
Fixpoint insert_all (objs : list Object) (s : state) : option state :=
  match objs with
  | [] => Some s
  | o :: rest =>
      match insert o s with
      | Some (_, s') => insert_all rest s'
      | None => None
      end
  end.

End RedBlackTree.

(** ** Hash index (chained hash table) *)

Module HashTable.
Local Open Scope Z_scope.

(** Width of [unsigned long] and of [size_t] (LP64). *)
Definition ULONG_BITS : Z := 64.
Definition SIZE_BITS : Z := 64.

(** Conversion to an unsigned integer of [w] bits. *)
Definition wrap (w x : Z) : Z := x mod 2 ^ w.

Record table := mkTable {
  size : Z;
  buckets : list (list Object);
  collisionCount : Z
}.

(** The constructor: [size(tableSize), buckets(tableSize),
    collisionCount(0)]; it has no failing path of its own. *)
Definition create (tableSize : Z) : option table :=
  Some (mkTable tableSize (replicate (Z.to_nat tableSize) []) 0).

(** [unsigned char c]. *)
Definition byte_of (c : ascii) : Z := Z.of_N (N_of_ascii c).

Definition P : Z := 131.

(** The loop of [hashFunction] over the bytes of [key], with accumulator
    [h] of [w] bits: [h = (h * P + c) % size]; the remainder by [0] is
    undefined. *)
Fixpoint hash_loop (w sz : Z) (key : string) (h : Z) : option Z :=
  match key with
  | EmptyString => Some h
  | String c rest =>
      if sz =? 0 then None
      else hash_loop w sz rest (wrap w (wrap w (wrap w (h * P) + byte_of c) mod sz))
  end.

Definition hashFunction (ht : table) (key : string) : option Z :=
  hash_loop ULONG_BITS (size ht) key 0.

(** [buckets[idx]]: an index outside the vector is undefined. *)
Definition bucket_at (ht : table) (idx : Z) : option (list Object) :=
  buckets ht !! Z.to_nat idx.

Definition is_empty (b : list Object) : bool :=
  match b with [] => true | _ => false end.

(** [insert(obj)]. *)
Definition insert (obj : Object) (ht : table) : option table :=
  match hashFunction ht (name obj) with
  | None => None
  | Some idx =>
      match bucket_at ht idx with
      | None => None
      | Some b =>
          Some (mkTable (size ht)
                  (<[Z.to_nat idx := b ++ [obj]]> (buckets ht))
                  (if is_empty b then collisionCount ht
                   else wrap SIZE_BITS (collisionCount ht + 1)))
      end
  end.

(** [search(key)]: scan the bucket, [push_back] the entries named [key]. *)
Definition search (key : string) (ht : table) : option (list Object) :=
  match hashFunction ht key with
  | None => None
  | Some idx =>
      match bucket_at ht idx with
      | None => None
      | Some b =>
          Some (fold_left
                  (fun result o =>
                     if str_eq (name o) key then result ++ [o] else result)
                  b [])
      end
  end.

Definition getCollisionCount (ht : table) : Z := collisionCount ht.

Fixpoint insert_all (objs : list Object) (ht : table) : option table :=
  match objs with
  | [] => Some ht
  | o :: rest =>
      match insert o ht with
      | Some ht' => insert_all rest ht'
      | None => None
      end
  end.

(** The hash function as the specification defines it: from [h = 0], for
    each byte [b] of the key in order, [h = (h * 131 + b) mod bucket_count],
    in an unsigned accumulator of [w] bits that wraps on overflow. *)
Definition spec_hash (w bucket_count : Z) (key : string) : Z :=
  fold_left
    (fun h b => ((h * 131 + b) mod 2 ^ w) mod bucket_count)
    (map byte_of (list_ascii_of_string key)) 0.

(** The same polynomial over the unbounded integers. *)
Definition ideal_hash (bucket_count : Z) (key : string) : Z :=
  fold_left
    (fun h b => (h * 131 + b) mod bucket_count)
    (map byte_of (list_ascii_of_string key)) 0.

End HashTable.

(** ** The tree a store represents, and the red-black invariants *)

Module RBShape.
Import RedBlackTree.

(** A binary tree whose nodes carry their address in the store. *)
Inductive atree :=
| Leaf
| Tr (a : nat) (c : Color) (l : atree) (k : string) (vs : list Object) (r : atree).

Definition rootp (t : atree) : ptr :=
  match t with Leaf => None | Tr a _ _ _ _ _ => Some a end.

(** A nil leaf counts as BLACK. *)
Definition color_of (t : atree) : Color :=
  match t with Leaf => BLACK | Tr _ c _ _ _ _ => c end.

Fixpoint addrs (t : atree) : list nat :=
  match t with
  | Leaf => []
  | Tr a _ l _ _ r => a :: addrs l ++ addrs r
  end.

(** The content of the store slots of [t] when [par] is the address of the
    parent of its root. *)
Fixpoint cells (par : ptr) (t : atree) : list (nat * Node) :=
  match t with
  | Leaf => []
  | Tr a c l k vs r =>
      (a, mkNode k vs c (rootp l) (rootp r) par)
        :: cells (Some a) l ++ cells (Some a) r
  end.

(** Keys with their records, in symmetric order. *)
Fixpoint inorder (t : atree) : list (string * list Object) :=
  match t with
  | Leaf => []
  | Tr _ _ l k vs r => inorder l ++ (k, vs) :: inorder r
  end.

Definition keys (t : atree) : list string := (inorder t).*1.

Fixpoint size (t : atree) : nat :=
  match t with
  | Leaf => O
  | Tr _ _ l _ _ r => S (size l + size r)
  end.

(** The number of nodes on the longest path from the root to a leaf. *)
Fixpoint height (t : atree) : nat :=
  match t with
  | Leaf => O
  | Tr _ _ l _ _ r => S (Nat.max (height l) (height r))
  end.

(** Addresses, children before their parent. *)
Fixpoint postorder (t : atree) : list nat :=
  match t with
  | Leaf => []
  | Tr a _ l _ _ r => postorder l ++ postorder r ++ [a]
  end.

(** The store of [s] is exactly the tree [t]: the root field points to its
    root, every node sits in its own slot with the child and parent
    pointers the tree shape dictates, and no other slot is allocated. *)
Record represents (s : state) (t : atree) : Prop := mkRep {
  rep_root : root s = rootp t;
  rep_nodup : NoDup (addrs t);
  rep_cells : forall a nd, (a, nd) ∈ cells None t -> heap s !! a = Some nd;
  rep_size : length (heap s) = length (addrs t)
}.

(** Black-height [n]: every path from the root of [t] to a nil leaf passes
    through [n] BLACK nodes. *)
Inductive black_height : atree -> nat -> Prop :=
| bh_leaf : black_height Leaf O
| bh_red a l k vs r n :
    black_height l n -> black_height r n ->
    black_height (Tr a RED l k vs r) n
| bh_black a l k vs r n :
    black_height l n -> black_height r n ->
    black_height (Tr a BLACK l k vs r) (S n).

(** The number of BLACK nodes on each path from the root of [t] to a nil
    leaf, one entry per path. *)
Fixpoint path_blacks (t : atree) : list nat :=
  match t with
  | Leaf => [O]
  | Tr _ c l _ _ r =>
      (fun n => if is_red c then n else S n) <$> (path_blacks l ++ path_blacks r)
  end.

Fixpoint subtrees (t : atree) : list atree :=
  match t with
  | Leaf => [Leaf]
  | Tr _ _ l _ _ r => t :: subtrees l ++ subtrees r
  end.

(** From every node, all paths to a descendant nil leaf pass through the
    same number of BLACK nodes. *)
Definition uniform_black_height (t : atree) : Prop :=
  forall u, u ∈ subtrees t ->
  forall x y, x ∈ path_blacks u -> y ∈ path_blacks u -> x = y.

(** No RED node has a RED child. *)
Fixpoint no_red_red (t : atree) : Prop :=
  match t with
  | Leaf => True
  | Tr _ c l _ _ r =>
      (c = RED -> color_of l = BLACK /\ color_of r = BLACK) /\
      no_red_red l /\ no_red_red r
  end.

Definition red_black (t : atree) : Prop :=
  color_of t = BLACK /\ no_red_red t /\ exists n, black_height t n.

(** The ordering invariant, as the specification words it. *)
Fixpoint ordered (t : atree) : Prop :=
  match t with
  | Leaf => True
  | Tr _ _ l k _ r =>
      (forall x, x ∈ keys l -> str_lt x k = true) /\
      (forall x, x ∈ keys r -> str_lt k x = true) /\
      ordered l /\ ordered r
  end.

(** The records stored under [k] in an association list. *)
Definition vals (k : string) (L : list (string * list Object)) : list Object :=
  concat ((filter (fun e => e.1 = k) L).*2).

(** *** Paths: a subtree in its context *)

(** One step up from a hole: the node above it and the subtree beside it. *)
Inductive frame :=
| HoleL (a : nat) (c : Color) (k : string) (vs : list Object) (r : atree)
| HoleR (a : nat) (c : Color) (l : atree) (k : string) (vs : list Object).

Definition fill (f : frame) (t : atree) : atree :=
  match f with
  | HoleL a c k vs r => Tr a c t k vs r
  | HoleR a c l k vs => Tr a c l k vs t
  end.

(** Frames are listed from the hole up to the root. *)
Fixpoint plug (ctx : list frame) (t : atree) : atree :=
  match ctx with
  | [] => t
  | f :: ctx' => plug ctx' (fill f t)
  end.

Definition faddr (f : frame) : nat :=
  match f with HoleL a _ _ _ _ => a | HoleR a _ _ _ _ => a end.
Definition fcolor (f : frame) : Color :=
  match f with HoleL _ c _ _ _ => c | HoleR _ c _ _ _ => c end.
Definition sibling (f : frame) : atree :=
  match f with HoleL _ _ _ _ r => r | HoleR _ _ l _ _ => l end.
Definition fkey (f : frame) : string :=
  match f with HoleL _ _ k _ _ => k | HoleR _ _ _ k _ => k end.

(** The address of the node above the hole. *)
Definition ctx_par (ctx : list frame) : ptr :=
  match ctx with [] => None | f :: _ => Some (faddr f) end.
Definition head_color (ctx : list frame) : Color :=
  match ctx with [] => BLACK | f :: _ => fcolor f end.

Fixpoint ctx_addrs (ctx : list frame) : list nat :=
  match ctx with
  | [] => []
  | f :: ctx' => faddr f :: addrs (sibling f) ++ ctx_addrs ctx'
  end.

Definition frame_node (hole : ptr) (f : frame) (par : ptr) : Node :=
  match f with
  | HoleL _ c k vs r => mkNode k vs c hole (rootp r) par
  | HoleR _ c l k vs => mkNode k vs c (rootp l) hole par
  end.

(** The slots of a context whose hole holds a subtree rooted at [hole]. *)
Fixpoint ctx_cells (hole : ptr) (ctx : list frame) : list (nat * Node) :=
  match ctx with
  | [] => []
  | f :: ctx' =>
      (faddr f, frame_node hole f (ctx_par ctx'))
        :: cells (Some (faddr f)) (sibling f)
        ++ ctx_cells (Some (faddr f)) ctx'
  end.

(** The root pointer of [plug ctx t] when [t] is rooted at [hole]. *)
Fixpoint ctx_root (hole : ptr) (ctx : list frame) : ptr :=
  match ctx with
  | [] => hole
  | f :: ctx' => ctx_root (Some (faddr f)) ctx'
  end.

(** What lies before and after the hole in symmetric order. *)
Fixpoint ctx_before (ctx : list frame) : list (string * list Object) :=
  match ctx with
  | [] => []
  | HoleL _ _ _ _ _ :: ctx' => ctx_before ctx'
  | HoleR _ _ l k vs :: ctx' => ctx_before ctx' ++ inorder l ++ [(k, vs)]
  end.
Fixpoint ctx_after (ctx : list frame) : list (string * list Object) :=
  match ctx with
  | [] => []
  | HoleL _ _ k vs r :: ctx' => (k, vs) :: inorder r ++ ctx_after ctx'
  | HoleR _ _ _ _ _ :: ctx' => ctx_after ctx'
  end.

(** The walk of [insert] and [search] for key [k], as a path. *)
Fixpoint locate (k : string) (ctx : list frame) (t : atree) : list frame * atree :=
  match t with
  | Leaf => (ctx, Leaf)
  | Tr a c l k' vs r =>
      if str_eq k k' then (ctx, t)
      else if str_lt k k' then locate k (HoleL a c k' vs r :: ctx) l
      else locate k (HoleR a c l k' vs :: ctx) r
  end.

(** A context that completes a subtree of black-height [n] to a red-black
    tree, whatever the colour of the root of the subtree: a RED frame has
    a BLACK sibling subtree and a BLACK frame above it. *)
Fixpoint ctx_rb (ctx : list frame) (n : nat) : Prop :=
  match ctx with
  | [] => True
  | f :: ctx' =>
      black_height (sibling f) n /\ no_red_red (sibling f) /\
      (fcolor f = RED ->
         color_of (sibling f) = BLACK /\ head_color ctx' = BLACK /\ ctx' <> []) /\
      ctx_rb ctx' (if is_red (fcolor f) then n else S n)
  end.

(** The state of the tree at the head of the loop of [insertFix]: the
    current node is RED with BLACK children, and the only possible
    violation is a RED parent of the current node (or a RED root). *)
Record fix_state (ctx : list frame) (t : atree) : Prop := mkFix {
  fs_red : color_of t = RED;
  fs_node : t <> Leaf;
  fs_nrr : no_red_red t;
  fs_bh : exists n, black_height t n /\ ctx_rb ctx n
}.

Definition zaddrs (ctx : list frame) (t : atree) : list nat :=
  addrs t ++ ctx_addrs ctx.

Definition zcells (ctx : list frame) (t : atree) : list (nat * Node) :=
  cells (ctx_par ctx) t ++ ctx_cells (rootp t) ctx.

(** [represents], seen from a subtree [t] in its context [ctx]. *)
Record zrep (s : state) (ctx : list frame) (t : atree) : Prop := mkZrep {
  z_root : root s = ctx_root (rootp t) ctx;
  z_nodup : NoDup (zaddrs ctx t);
  z_cells : forall a nd, (a, nd) ∈ zcells ctx t -> heap s !! a = Some nd;
  z_size : length (heap s) = length (zaddrs ctx t)
}.
(** [m] started in [s] returns without fault, with a result and a final
    store that satisfy [Q]. *)
Definition runs {A} (m : M A) (s : state) (Q : A -> state -> Prop) : Prop :=
  exists a s', m s = Some (a, s') /\ Q a s'.

Definition key_lt (a b : string) : Prop := str_lt a b = true.

(** Keys strictly increasing in symmetric order. *)
Definition sorted (L : list (string * list Object)) : Prop :=
  StronglySorted key_lt L.*1.

(** The hole of [ctx] is where key [k] belongs. *)
Definition bounds (k : string) (ctx : list frame) : Prop :=
  (forall x, x ∈ (ctx_before ctx).*1 -> key_lt x k) /\
  (forall x, x ∈ (ctx_after ctx).*1 -> key_lt k x).

(** The turn taken at the node of frame [f] by the walk for [k]. *)
Definition turn_ok (k : string) (f : frame) : Prop :=
  match f with
  | HoleL _ _ kf _ _ => str_lt k kf = true
  | HoleR _ _ _ kf _ => str_lt k kf = false
  end.

(** The invariant of the balanced tree after inserting [objs]. *)
Record tree_inv (objs : list Object) (s : state) (T : atree) : Prop := mkInv {
  inv_rep : represents s T;
  inv_rb : red_black T;
  inv_sorted : sorted (inorder T);
  inv_vals : forall k, vals k (inorder T) = linearSearch objs k
}.

(** Every node of [s] is a node of [s'], with its key, and with its
    records followed by the records added since. *)
Definition extends (s s' : state) : Prop :=
  forall a nd, heap s !! a = Some nd ->
    exists nd', heap s' !! a = Some nd' /\ key nd' = key nd /\
                values nd `prefix_of` values nd'.

(** An update of a node that leaves its key alone and drops none of its
    records. *)
Definition keeps (upd : Node -> Node) : Prop :=
  forall nd, key (upd nd) = key nd /\ values nd `prefix_of` values (upd nd).

(** From [s] to [s'] no node was lost or re-keyed, no record was dropped,
    and every node allocated since holds a record. *)
Record grows (s s' : state) : Prop := mkGrows {
  g_len : length (heap s) <= length (heap s');
  g_old : extends s s';
  g_new : forall a nd,
    heap s' !! a = Some nd -> length (heap s) <= a -> values nd <> []
}.

(** A computation all of whose runs only grow the store. *)
Definition mono {A} (m : M A) : Prop :=
  forall s a s', m s = Some (a, s') -> grows s s'.

(** The trees a client can build. *)
Inductive reachable : state -> Prop :=
| reach_empty : reachable empty
| reach_insert s obj s' :
    reachable s -> insert obj s = Some (tt, s') -> reachable s'.

(** The store and the current node [n] each time the loop of [insertFix]
    tests its condition, in a call from [insert]. *)
Inductive at_loop_head : state -> ptr -> Prop :=
| head_enter s obj nd s1 :
    reachable s -> attach obj s = Some (Some nd, s1) -> at_loop_head s1 nd
| head_again s n n' s' :
    at_loop_head s n -> fix_cond n s = Some (true, s) ->
    fix_body n s = Some (n', s') -> at_loop_head s' n'.

End RBShape.

(** ** Tables built by [create] and [insert] *)

Module HashSpec.
Import HashTable.
Local Open Scope Z_scope.

(** The bucket index of a key in a table of [n] buckets. *)
Definition slot (n : Z) (key : string) : nat :=
  Z.to_nat (spec_hash ULONG_BITS n key).

Record valid (ht : table) : Prop := mkValid {
  v_size : 0 < size ht;
  v_len : length (buckets ht) = Z.to_nat (size ht);
  v_count : 0 <= collisionCount ht < 2 ^ SIZE_BITS
}.

(** The polynomial of a byte sequence at [131], first byte at the highest
    power. *)
Fixpoint poly (bs : list Z) : Z :=
  match bs with
  | [] => 0
  | b :: rest => b * 131 ^ Z.of_nat (length rest) + poly rest
  end.

Definition bytes (key : string) : list Z := map byte_of (list_ascii_of_string key).

(** The number of buckets in use. *)
Definition used (bs : list (list Object)) : nat :=
  length (filter (fun b => b <> []) bs).

(** Every bucket holds, in insertion order, the records of its slot. *)
Definition chained (n : Z) (objs : list Object) (ht : table) : Prop :=
  valid ht /\ size ht = n /\
  collisionCount ht <= Z.of_nat (length objs) /\
  forall i b, buckets ht !! i = Some b ->
              b = filter (fun o => slot n (name o) = i) objs.

(** What the counter and the buckets in use add up to after inserting
    [objs]. *)
Record counted (n : Z) (objs : list Object) (ht : table) : Prop := mkCounted {
  cn_chained : chained n objs ht;
  cn_sum : collisionCount ht + Z.of_nat (used (buckets ht)) = Z.of_nat (length objs);
  cn_names : (used (buckets ht) <= length (remove_dups (name <$> objs)))%nat;
  cn_first : objs <> [] -> (1 <= used (buckets ht))%nat
}.

End HashSpec.

(** ** The ordered multimap of the standard library *)

Module Multimap.

(** [std::multimap<std::string, Object>], as the sequence its iterators
    walk: the entries in the order of their keys, entries of one key in
    the order of their insertion. *)
Definition multimap := list (string * Object).

Definition empty : multimap := [].

(** [mmap.insert({k, v})]: the entry goes to the upper bound of [k],
    behind the entries of the same key. *)
Fixpoint insert (kv : string * Object) (m : multimap) : multimap :=
  match m with
  | [] => [kv]
  | e :: rest => if str_lt kv.1 e.1 then kv :: m else e :: insert kv rest
  end.

(** [lower_bound(key)]: the position of the first entry whose key is not
    less than [key]. *)
Fixpoint lower_bound (key : string) (m : multimap) : nat :=
  match m with
  | [] => O
  | e :: rest => if str_lt e.1 key then S (lower_bound key rest) else O
  end.

(** [upper_bound(key)]: the position of the first entry whose key is
    greater than [key]. *)
Fixpoint upper_bound (key : string) (m : multimap) : nat :=
  match m with
  | [] => O
  | e :: rest => if str_lt key e.1 then O else S (upper_bound key rest)
  end.

(** [equal_range(key)]: a pair of iterators, as positions. *)
Definition equal_range (key : string) (m : multimap) : nat * nat :=
  (lower_bound key m, upper_bound key m).

(** [for (it = first; it != second; ++it)]: the entries walked. *)
Definition between (first second : nat) (m : multimap) : multimap :=
  take (second - first) (drop first m).

Definition insert_all (objs : list Object) (m : multimap) : multimap :=
  fold_left (fun m o => insert (name o, o) m) objs m.

(** Keys never decrease along the sequence. *)
Definition ascending (m : multimap) : Prop :=
  StronglySorted (fun e1 e2 => str_lt e2.1 e1.1 = false) m.

End Multimap.

(** [multimapSearch]: [push_back] the record of every entry in the equal
    range of [key]. *)
Definition multimapSearch (mmap : Multimap.multimap) (key : string) : list Object :=
  let range := Multimap.equal_range key mmap in
  fold_left (fun result e => result ++ [e.2])
    (Multimap.between range.1 range.2 mmap) [].

(** ** The data generator *)

Module Generator.
Local Open Scope Z_scope.

(** Width of [int]. *)
Definition INT_BITS : Z := 32.

(** [static_cast<int>(x)] of a [size_t]: [x] modulo [2 ^ 32], read as a
    signed number. *)
Definition to_int (x : Z) : Z :=
  let r := x mod 2 ^ INT_BITS in
  if r <? 2 ^ (INT_BITS - 1) then r else r - 2 ^ INT_BITS.

(** [std::to_string(int)]: the decimal digits, [-] before a negative
    number. *)
Definition to_string (k : Z) : string := pretty k.

(** [std::max<size_t>(size / 5, 1)]. *)
Definition name_count (size : Z) : Z := Z.max (size / 5) 1.

(** A record as [emplace_back] builds it at index [i]. *)
Definition drawn (nameCount i : Z) (o : Object) : Prop :=
  id o = i + 1 /\
  exists k, 0 <= k < nameCount /\ name o = ("Name" +:+ to_string k)%string.

Section Engine.

(** The state of [rng] and what the two distributions draw from it.
    The order in which [emplace_back] evaluates its arguments, and so
    the order of the two draws of one record, is left open by the
    language: [name_first] fixes it. *)
Variable engine : Type.
Variable draw_int : Z -> Z -> engine -> Z * engine.
Variable draw_real : engine -> float * engine.
Variable name_first : bool.

(** [std::uniform_int_distribution<int> dist(a, b); dist(rng)]: a range
    with [b < a] is undefined. *)
Definition uniform_int (a b : Z) (g : engine) : option (Z * engine) :=
  if b <? a then None else Some (draw_int a b g).

(** [generateRandomName(nameCount)]. *)
Definition generateRandomName (nameCount : Z) (g : engine)
    : option (string * engine) :=
  match uniform_int 0 (nameCount - 1) g with
  | Some (k, g') => Some ("Name" +:+ to_string k, g')
  | None => None
  end.

(** [data.emplace_back(i + 1, generateRandomName(...), valDist(rng))]. *)
Definition emplace (i nameCount : Z) (g : engine) : option (Object * engine) :=
  if name_first then
    match generateRandomName (to_int nameCount) g with
    | Some (nm, g1) =>
        let '(v, g2) := draw_real g1 in Some (mkObject (i + 1) nm v, g2)
    | None => None
    end
  else
    let '(v, g1) := draw_real g in
    match generateRandomName (to_int nameCount) g1 with
    | Some (nm, g2) => Some (mkObject (i + 1) nm v, g2)
    | None => None
    end.

(** The loop of [generateData], [todo] records to go from index [i]. *)
Fixpoint fill (todo : nat) (i nameCount : Z) (g : engine) (data : list Object)
    : option (list Object * engine) :=
  match todo with
  | O => Some (data, g)
  | S todo' =>
      match emplace i nameCount g with
      | Some (obj, g') => fill todo' (i + 1) nameCount g' (data ++ [obj])
      | None => None
      end
  end.

(** [generateData(size)]. *)
Definition generateData (size : Z) (g : engine) : option (list Object * engine) :=
  fill (Z.to_nat size) 0 (name_count size) g [].

End Engine.

End Generator.

(** ** The measurement rounds of [main] *)

Module Driver.
Import Generator.
Local Open Scope Z_scope.

Definition testSizes : list Z :=
  [100; 50000; 100000; 200000; 300000; 400000; 500000; 600000; 750000; 1000000].

(** [bst], [rbt], [hashTable] and [mmap] of one round. *)
Record structures := mkStructures {
  bst : BinarySearchTree.tree;
  rbt : RedBlackTree.state;
  hashTable : HashTable.table;
  mmap : Multimap.multimap
}.

(** The loop [for (const auto& o : data)] that inserts every record into
    the four structures. *)
Fixpoint fill_all (data : list Object) (st : structures) : option structures :=
  match data with
  | [] => Some st
  | o :: rest =>
      match RedBlackTree.insert o (rbt st), HashTable.insert o (hashTable st) with
      | Some (_, rbt'), Some hashTable' =>
          fill_all rest
            (mkStructures (BinarySearchTree.insert o (bst st)) rbt' hashTable'
               (Multimap.insert (name o, o) (mmap st)))
      | _, _ => None
      end
  end.

(** The declarations of the four structures -- the table gets
    [data.size()] buckets -- and the loop that fills them. *)
Definition build (data : list Object) : option structures :=
  match HashTable.create (Z.of_nat (length data)) with
  | Some ht =>
      fill_all data
        (mkStructures BinarySearchTree.empty RedBlackTree.empty ht Multimap.empty)
  | None => None
  end.

(** The results [r1] ... [r5] of the five searches for one key. *)
Record results := mkResults {
  r1 : list Object;
  r2 : list Object;
  r3 : list Object;
  r4 : list Object;
  r5 : list Object
}.

Definition search_all (data : list Object) (st : structures) (key : string)
    : option results :=
  match RedBlackTree.search key (rbt st), HashTable.search key (hashTable st) with
  | Some (res3, _), Some res4 =>
      Some (mkResults (linearSearch data key)
              (BinarySearchTree.search (bst st) key)
              res3 res4
              (multimapSearch (mmap st) key))
  | _, _ => None
  end.

Fixpoint search_keys (data : list Object) (st : structures) (keys : list string)
    : option (list results) :=
  match keys with
  | [] => Some []
  | key :: rest =>
      match search_all data st key, search_keys data st rest with
      | Some r, Some rs => Some (r :: rs)
      | _, _ => None
      end
  end.

(** What a round writes that the clock does not decide: the columns
    [Size] and [Collisions] of its line. *)
Record row := mkRow {
  row_size : Z;
  row_collisions : Z
}.

Section Engine.

Variable engine : Type.
Variable draw_int : Z -> Z -> engine -> Z * engine.
Variable draw_size : Z -> Z -> engine -> Z * engine.
Variable draw_real : engine -> float * engine.
Variable name_first : bool.

(** The loop that draws the search keys:
    [searchKeys.push_back(data[idxDist(rng)].name)] with [idxDist] over
    [0 .. data.size() - 1], a [size_t] that wraps for empty [data]; an
    index outside [data] is undefined. *)
Fixpoint pick_keys (count : nat) (data : list Object) (g : engine)
    (searchKeys : list string) : option (list string * engine) :=
  match count with
  | O => Some (searchKeys, g)
  | S count' =>
      match uniform_int engine draw_size 0
              (HashTable.wrap HashTable.SIZE_BITS (Z.of_nat (length data) - 1)) g with
      | Some (idx, g') =>
          match data !! Z.to_nat idx with
          | Some o => pick_keys count' data g' (searchKeys ++ [name o])
          | None => None
          end
      | None => None
      end
  end.

(** One pass through the body of [for (size_t n : testSizes)], to the
    destructors at its end (of which the one of [rbt] works on a
    store): the line of the round, the results of its searches, and
    the engine after it. *)
Definition round (n : Z) (g : engine) : option (row * list results * engine) :=
  match generateData engine draw_int draw_real name_first n g with
  | Some (data, g1) =>
      match build data with
      | Some st =>
          let collisions := HashTable.getCollisionCount (hashTable st) in
          match pick_keys 10 data g1 [] with
          | Some (searchKeys, g2) =>
              match search_keys data st searchKeys with
              | Some rs =>
                  match RedBlackTree.destroy (rbt st) with
                  | Some _ => Some (mkRow n collisions, rs, g2)
                  | None => None
                  end
              | None => None
              end
          | None => None
          end
      | None => None
      end
  | None => None
  end.

Fixpoint rounds (sizes : list Z) (g : engine)
    : option (list (row * list results) * engine) :=
  match sizes with
  | [] => Some ([], g)
  | n :: rest =>
      match round n g with
      | Some (line, rs, g') =>
          match rounds rest g' with
          | Some (out, g'') => Some ((line, rs) :: out, g'')
          | None => None
          end
      | None => None
      end
  end.

(** [main], without its clock readings and its output streams. *)
Definition main (g : engine) : option (list (row * list results) * engine) :=
  rounds testSizes g.

End Engine.

End Driver.

Module DriverSpec.
Import Generator Driver.
Local Open Scope Z_scope.

(** What [build] returns for [data]. *)
Record built_from (data : list Object) (st : structures) : Prop := mkBuilt {
  bf_bst : bst st = BinarySearchTree.insert_all data BinarySearchTree.empty;
  bf_rbt : exists T, RBShape.tree_inv data (rbt st) T;
  bf_hash : HashSpec.counted (Z.of_nat (length data)) data (hashTable st);
  bf_mmap : mmap st = Multimap.insert_all data Multimap.empty
}.

(** What one round returns for the size [n]. *)
Definition round_result (n : Z) (line : row) (rs : list results) : Prop :=
  row_size line = n /\
  n - name_count n <= row_collisions line <= n - 1 /\
  length rs = 10%nat /\
  Forall (fun r => r1 r <> [] /\ r2 r = r1 r /\ r3 r = r1 r /\
                   r4 r = r1 r /\ r5 r = r1 r) rs.

End DriverSpec.

(** ** Sample data *)

Module Samples.

Definition rec_ (i : Z) (nm : string) : Object := mkObject i nm PrimFloat.zero.

(** The example of the specification. *)
Definition abc : list Object := [rec_ 1 "a"; rec_ 2 "b"; rec_ 3 "a"].

Definition aaa : list Object := [rec_ 1 "a"; rec_ 2 "a"; rec_ 3 "a"].

(** A Balanced Tree in the middle of an insert: ["a"] and ["b"] are in,
    ["c"] has just been linked below the RED node ["b"], and the loop of
    [insertFix] is about to test its condition for the first time. *)
Definition tree_a : RedBlackTree.state :=
  Eval vm_compute in
    match RedBlackTree.insert (rec_ 1 "a") RedBlackTree.empty with
    | Some (_, s) => s
    | None => RedBlackTree.empty
    end.

Definition tree_ab : RedBlackTree.state :=
  Eval vm_compute in
    match RedBlackTree.insert (rec_ 2 "b") tree_a with
    | Some (_, s) => s
    | None => RedBlackTree.empty
    end.

Definition tree_ab_c : RedBlackTree.state :=
  Eval vm_compute in
    match RedBlackTree.attach (rec_ 3 "c") tree_ab with
    | Some (_, s) => s
    | None => RedBlackTree.empty
    end.

(** An engine for the examples: a counter, read off modulo the width of
    the range. *)
Definition step_int (a b : Z) (g : Z) : Z * Z :=
  ((a + g mod (b - a + 1))%Z, (g + 1)%Z).
Definition step_real (g : Z) : float * Z := (PrimFloat.zero, (g + 1)%Z).

End Samples.

(** ** The order on keys *)

Section StringOrder.

Lemma str_eq_true a b : str_eq a b = true <-> a = b.
Proof. apply String.eqb_eq. Qed.

Lemma str_eq_false a b : str_eq a b = false <-> a <> b.
Proof. apply String.eqb_neq. Qed.

Lemma str_eq_refl a : str_eq a a = true.
Proof. apply String.eqb_refl. Qed.

Lemma str_lt_cmp a b : str_lt a b = true <-> String.compare a b = Lt.
Proof.
  unfold str_lt, String.ltb. destruct (String.compare a b); split; congruence.
Qed.

Lemma str_lt_irrefl a : str_lt a a = false.
Proof.
  destruct (str_lt a a) eqn:E; [|reflexivity].
  apply str_lt_cmp, String_as_OT.cmp_lt in E.
  exfalso. exact (String_as_OT.lt_not_eq _ _ E eq_refl).
Qed.

Lemma str_lt_trans a b c :
  str_lt a b = true -> str_lt b c = true -> str_lt a c = true.
Proof.
  rewrite !str_lt_cmp. intros H1%String_as_OT.cmp_lt H2%String_as_OT.cmp_lt.
  apply String_as_OT.cmp_lt. exact (String_as_OT.lt_trans _ _ _ H1 H2).
Qed.

(** What the [else] branch of the walk knows: neither equal nor less. *)
Lemma str_lt_total a b :
  str_eq a b = false -> str_lt a b = false -> str_lt b a = true.
Proof.
  intros Hne Hlt. apply str_lt_cmp. rewrite String.compare_antisym.
  destruct (String.compare a b) eqn:E; simpl.
  - apply String.compare_eq_iff in E. apply str_eq_false in Hne. congruence.
  - apply str_lt_cmp in E. congruence.
  - reflexivity.
Qed.

Lemma str_lt_neq a b : str_lt a b = true -> a <> b.
Proof. intros H ->. rewrite str_lt_irrefl in H. discriminate. Qed.

Lemma str_lt_asym a b : str_lt a b = true -> str_lt b a = false.
Proof.
  intros H. destruct (str_lt b a) eqn:E; [|reflexivity].
  pose proof (str_lt_trans _ _ _ H E) as F. rewrite str_lt_irrefl in F. discriminate.
Qed.

End StringOrder.

(** ** Linear scan *)

Section LinearScan.

Lemma scan_acc key data acc :
  fold_left
    (fun result obj => if str_eq (name obj) key then result ++ [obj] else result)
    data acc
  = acc ++ filter (fun o => name o = key) data.
Proof.
  revert acc. induction data as [|o data IH]; intros acc; simpl.
  - by rewrite app_nil_r.
  - rewrite IH. destruct (str_eq (name o) key) eqn:E.
    + apply str_eq_true in E. rewrite filter_cons_True by done.
      by rewrite <- app_assoc.
    + apply str_eq_false in E. by rewrite filter_cons_False.
Qed.

Lemma linearSearch_filter data key :
  linearSearch data key = filter (fun o => name o = key) data.
Proof. unfold linearSearch. by rewrite scan_acc. Qed.

Lemma linearSearch_app d1 d2 key :
  linearSearch (d1 ++ d2) key = linearSearch d1 key ++ linearSearch d2 key.
Proof. by rewrite !linearSearch_filter, filter_app. Qed.

Lemma linearSearch_snoc data o key :
  linearSearch (data ++ [o]) key =
  linearSearch data key ++ (if str_eq (name o) key then [o] else []).
Proof.
  rewrite linearSearch_app. f_equal.
Qed.

Lemma linearSearch_all_same data key :
  Forall (fun o => name o = key) data -> linearSearch data key = data.
Proof.
  rewrite linearSearch_filter. induction 1 as [|o l Ho Hl IH]; [done|].
  rewrite filter_cons_True by done. by rewrite IH.
Qed.

Lemma linearSearch_none data key :
  Forall (fun o => name o <> key) data -> linearSearch data key = [].
Proof.
  rewrite linearSearch_filter. induction 1 as [|o l Ho Hl IH]; [done|].
  by rewrite filter_cons_False.
Qed.

End LinearScan.

(** ** Ordered tree *)

Module BSTProofs.
Import BinarySearchTree.

Lemma keys_insert t o x :
  x ∈ keys (insert_at t o) <-> x = name o \/ x ∈ keys t.
Proof.
  induction t as [|k vs l IHl r IHr]; simpl.
  - rewrite elem_of_cons, elem_of_nil. tauto.
  - destruct (str_eq (name o) k) eqn:E; [|destruct (str_lt (name o) k)]; simpl;
      rewrite ?elem_of_app, ?elem_of_cons, ?elem_of_app, ?IHl, ?IHr.
    + apply str_eq_true in E. subst. tauto.
    + tauto.
    + tauto.
Qed.

Lemma ordered_insert t o : ordered t -> ordered (insert_at t o).
Proof.
  induction t as [|k vs l IHl r IHr]; simpl.
  - intros _. repeat split; intros x Hx; by apply elem_of_nil in Hx.
  - intros (Hl & Hr & Ol & Or).
    destruct (str_eq (name o) k) eqn:E; [|destruct (str_lt (name o) k) eqn:F]; simpl.
    + done.
    + repeat split; auto. intros x [->|Hx]%keys_insert; auto.
    + repeat split; auto. intros x [->|Hx]%keys_insert; auto.
      by apply str_lt_total.
Qed.

Lemma ordered_insert_all objs t : ordered t -> ordered (insert_all objs t).
Proof.
  revert t. induction objs as [|o objs IH]; intros t Ht; simpl; [done|].
  apply IH. by apply ordered_insert.
Qed.

(** The walk of [search] for [key] meets the record [o] exactly when the
    walk of [insert] for [o] took the same turns. *)
Lemma search_insert t o key :
  search (insert_at t o) key =
  search t key ++ (if str_eq (name o) key then [o] else []).
Proof.
  induction t as [|k vs l IHl r IHr]; simpl.
  - rewrite String.eqb_sym. fold (str_eq (name o) key).
    destruct (str_eq (name o) key) eqn:E; [done|].
    destruct (str_lt key (name o)); done.
  - destruct (str_eq (name o) k) eqn:E.
    + apply str_eq_true in E. subst k. simpl.
      destruct (str_eq key (name o)) eqn:G.
      * apply str_eq_true in G. subst key. by rewrite str_eq_refl.
      * assert (str_eq (name o) key = false) as ->.
        { apply str_eq_false. apply str_eq_false in G. congruence. }
        destruct (str_lt key (name o)); by rewrite app_nil_r.
    + destruct (str_lt (name o) k) eqn:F; simpl.
      * destruct (str_eq key k) eqn:G.
        -- apply str_eq_true in G. subst key. by rewrite E, app_nil_r.
        -- destruct (str_lt key k) eqn:H; [apply IHl|].
           assert (str_eq (name o) key = false) as ->; [|by rewrite app_nil_r].
           apply str_eq_false. intros <-. congruence.
      * destruct (str_eq key k) eqn:G.
        -- apply str_eq_true in G. subst key. by rewrite E, app_nil_r.
        -- destruct (str_lt key k) eqn:H; [|apply IHr].
           assert (str_eq (name o) key = false) as ->; [|by rewrite app_nil_r].
           apply str_eq_false. intros <-. congruence.
Qed.

Lemma search_insert_all objs t key :
  search (insert_all objs t) key = search t key ++ linearSearch objs key.
Proof.
  revert t. induction objs as [|o objs IH]; intros t; simpl.
  - by rewrite app_nil_r.
  - rewrite IH. unfold insert. rewrite search_insert, <- app_assoc. f_equal.
    change (o :: objs) with ([o] ++ objs). rewrite linearSearch_app. f_equal.
Qed.

Lemma ordered_keys_NoDup t : ordered t -> NoDup (keys t).
Proof.
  induction t as [|k vs l IHl r IHr]; simpl; [constructor|].
  intros (Hl & Hr & Ol & Or). apply NoDup_app. split; [auto|]. split.
  - intros x Hx [->|Hx']%elem_of_cons.
    + apply Hl in Hx. rewrite str_lt_irrefl in Hx. discriminate.
    + apply Hl in Hx. apply Hr in Hx'.
      pose proof (str_lt_trans _ _ _ Hx Hx') as F.
      rewrite str_lt_irrefl in F. discriminate.
  - apply NoDup_cons. split; [|auto]. intros Hk%Hr.
    rewrite str_lt_irrefl in Hk. discriminate.
Qed.

(** Inserting under a key the tree already has changes no key and adds no
    node. *)
Lemma insert_present t o :
  ordered t -> name o ∈ keys t ->
  keys (insert_at t o) = keys t /\ node_count (insert_at t o) = node_count t.
Proof.
  induction t as [|k vs l IHl r IHr]; simpl.
  - intros _ H. by apply elem_of_nil in H.
  - intros (Hl & Hr & Ol & Or) Hin.
    destruct (str_eq (name o) k) eqn:E; [done|].
    apply str_eq_false in E.
    destruct (str_lt (name o) k) eqn:F; simpl.
    + destruct IHl as [-> ->]; auto.
      apply elem_of_app in Hin as [?|[?|Hin]%elem_of_cons]; [done|done|].
      apply Hr in Hin. rewrite (str_lt_asym _ _ Hin) in F. discriminate.
    + destruct IHr as [-> ->]; auto.
      apply elem_of_app in Hin as [Hin|[?|?]%elem_of_cons]; [|done|done].
      apply Hl in Hin. congruence.
Qed.

Lemma insert_absent t o :
  name o ∉ keys t -> node_count (insert_at t o) = S (node_count t).
Proof.
  induction t as [|k vs l IHl r IHr]; simpl; [done|].
  intros Hin. rewrite elem_of_app, elem_of_cons in Hin.
  destruct (str_eq (name o) k) eqn:E.
  - apply str_eq_true in E. tauto.
  - destruct (str_lt (name o) k); simpl.
    + rewrite IHl by tauto. done.
    + rewrite IHr by tauto. lia.
Qed.

Lemma search_absent t key : key ∉ keys t -> search t key = [].
Proof.
  induction t as [|k vs l IHl r IHr]; simpl; [done|].
  intros Hin. rewrite elem_of_app, elem_of_cons in Hin.
  destruct (str_eq key k) eqn:E.
  - apply str_eq_true in E. tauto.
  - destruct (str_lt key k); [apply IHl|apply IHr]; tauto.
Qed.

Lemma entries_keys t : (entries t).*1 = keys t.
Proof.
  induction t as [|k vs l IHl r IHr]; simpl; [done|].
  by rewrite fmap_app, fmap_cons, IHl, IHr.
Qed.

(** The walk for the key of a node ends at that node. *)
Lemma search_entry t k vs :
  ordered t -> (k, vs) ∈ entries t -> search t k = vs.
Proof.
  induction t as [|k0 vs0 l IHl r IHr]; simpl.
  - intros _ H. by apply elem_of_nil in H.
  - intros (Hl & Hr & Ol & Or) [Hin|[[= -> ->]|Hin]%elem_of_cons]%elem_of_app.
    + assert (str_lt k k0 = true) as F.
      { apply Hl. rewrite <- entries_keys. apply list_elem_of_fmap. by exists (k, vs). }
      rewrite (proj2 (str_eq_false k k0) (str_lt_neq _ _ F)), F. auto.
    + by rewrite str_eq_refl.
    + assert (str_lt k0 k = true) as F.
      { apply Hr. rewrite <- entries_keys. apply list_elem_of_fmap. by exists (k, vs). }
      assert (str_eq k k0 = false) as ->.
      { apply str_eq_false. intros ->. by rewrite str_lt_irrefl in F. }
      rewrite (str_lt_asym _ _ F). auto.
Qed.

Lemma entries_insert_all objs k vs :
  (k, vs) ∈ entries (insert_all objs empty) -> vs = linearSearch objs k.
Proof.
  intros H. rewrite <- (search_entry _ _ _ (ordered_insert_all objs empty I) H).
  by rewrite search_insert_all.
Qed.

End BSTProofs.

(** ** Hash index *)

Module HashProofs.
Import HashTable HashSpec.
Local Open Scope Z_scope.

Lemma byte_of_range c : 0 <= byte_of c < 256.
Proof.
  unfold byte_of. pose proof (N_ascii_bounded c) as H. lia.
Qed.

Lemma wrap_range w x : 0 <= w -> 0 <= wrap w x < 2 ^ w.
Proof. intros Hw. unfold wrap. apply Z.mod_pos_bound. by apply Z.pow_pos_nonneg. Qed.

Lemma wrap_small w x : 0 <= x < 2 ^ w -> wrap w x = x.
Proof. intros H. unfold wrap. by apply Z.mod_small. Qed.

(** One pass through the loop body, against the reference step. *)
Lemma hash_step w sz h b :
  0 <= w -> 0 < sz ->
  wrap w (wrap w (wrap w (h * P) + b) mod sz) = ((h * 131 + b) mod 2 ^ w) mod sz.
Proof.
  intros Hw Hsz. unfold P.
  assert (wrap w (wrap w (h * 131) + b) = (h * 131 + b) mod 2 ^ w) as ->.
  { unfold wrap. by rewrite Zplus_mod_idemp_l. }
  apply wrap_small.
  pose proof (Z.mod_pos_bound (h * 131 + b) (2 ^ w) ltac:(by apply Z.pow_pos_nonneg)) as H1.
  pose proof (Z.mod_pos_bound ((h * 131 + b) mod 2 ^ w) sz Hsz) as H2.
  pose proof (Z.mod_le ((h * 131 + b) mod 2 ^ w) sz ltac:(lia) Hsz). lia.
Qed.

Lemma hash_loop_fold w sz key h :
  0 <= w -> 0 < sz ->
  hash_loop w sz key h =
  Some (fold_left (fun h b => ((h * 131 + b) mod 2 ^ w) mod sz)
          (map byte_of (list_ascii_of_string key)) h).
Proof.
  intros Hw Hsz. revert h. induction key as [|c key IH]; intros h; simpl; [done|].
  destruct (Z.eqb_spec sz 0) as [->|_]; [lia|].
  rewrite hash_step by done. apply IH.
Qed.

Lemma hash_loop_spec w sz key :
  0 <= w -> 0 < sz -> hash_loop w sz key 0 = Some (spec_hash w sz key).
Proof. intros. by apply hash_loop_fold. Qed.

Lemma fold_hash_range w sz bs h :
  0 < sz -> 0 <= h < sz ->
  0 <= fold_left (fun h b => ((h * 131 + b) mod 2 ^ w) mod sz) bs h < sz.
Proof.
  intros Hsz. revert h. induction bs as [|b bs IH]; intros h Hh; simpl; [done|].
  apply IH. by apply Z.mod_pos_bound.
Qed.

Lemma spec_hash_range w sz key : 0 < sz -> 0 <= spec_hash w sz key < sz.
Proof. intros Hsz. unfold spec_hash. apply fold_hash_range; lia. Qed.

Lemma hashFunction_spec ht key :
  0 < size ht -> hashFunction ht key = Some (spec_hash ULONG_BITS (size ht) key).
Proof. intros. unfold hashFunction. by apply hash_loop_spec. Qed.

(** Below this table size no product ever wraps, and the hash is the
    polynomial over the integers. *)
Lemma fold_hash_ideal w sz bs h :
  0 < sz -> (sz - 1) * 131 + 255 < 2 ^ w -> 0 <= h < sz ->
  Forall (fun b => 0 <= b < 256) bs ->
  fold_left (fun h b => ((h * 131 + b) mod 2 ^ w) mod sz) bs h =
  fold_left (fun h b => (h * 131 + b) mod sz) bs h.
Proof.
  intros Hsz Hb Hh Hbs. revert h Hh.
  induction Hbs as [|b bs Hb0 Hbs IH]; intros h Hh; simpl; [done|].
  rewrite (Z.mod_small (h * 131 + b)) by nia.
  apply IH. by apply Z.mod_pos_bound.
Qed.

Lemma spec_hash_ideal w sz key :
  0 < sz -> (sz - 1) * 131 + 255 < 2 ^ w ->
  spec_hash w sz key = ideal_hash sz key.
Proof.
  intros. unfold spec_hash, ideal_hash. apply fold_hash_ideal; [done|done|lia|].
  apply Forall_forall. intros b Hb%list_elem_of_In.
  apply in_map_iff in Hb as (c & <- & _). apply byte_of_range.
Qed.

(** *** Tables built by [create] and [insert] *)

Lemma slot_lt n key : 0 < n -> (slot n key < Z.to_nat n)%nat.
Proof. intros Hn. unfold slot. pose proof (spec_hash_range ULONG_BITS n key Hn). lia. Qed.

Lemma create_ok n :
  0 < n -> exists ht, create n = Some ht /\ valid ht /\ size ht = n /\
                      buckets ht = replicate (Z.to_nat n) [] /\ collisionCount ht = 0.
Proof.
  intros Hn. eexists. split; [reflexivity|]. repeat split; simpl; try lia.
  by rewrite length_replicate.
Qed.

Lemma bucket_at_slot ht key :
  valid ht -> exists b, buckets ht !! slot (size ht) key = Some b.
Proof.
  intros [Hs Hl _]. apply lookup_lt_is_Some. rewrite Hl. by apply slot_lt.
Qed.

(** What one [insert] does to a valid table. *)
Lemma insert_ok obj ht b :
  valid ht -> buckets ht !! slot (size ht) (name obj) = Some b ->
  exists ht',
    insert obj ht = Some ht' /\ valid ht' /\ size ht' = size ht /\
    buckets ht' = <[slot (size ht) (name obj) := b ++ [obj]]> (buckets ht) /\
    collisionCount ht' =
      (if is_empty b then collisionCount ht
       else wrap SIZE_BITS (collisionCount ht + 1)).
Proof.
  intros Hv Hb. pose proof Hv as [Hs Hl Hc].
  unfold insert. rewrite hashFunction_spec by done.
  unfold bucket_at. fold (slot (size ht) (name obj)). rewrite Hb.
  eexists. split; [reflexivity|]. repeat split; simpl; try lia.
  - by rewrite length_insert.
  - destruct (is_empty b); [lia|]. apply wrap_range. unfold SIZE_BITS. lia.
  - destruct (is_empty b); [lia|]. apply wrap_range. unfold SIZE_BITS. lia.
Qed.

Lemma search_ok key ht b :
  valid ht -> buckets ht !! slot (size ht) key = Some b ->
  search key ht = Some (filter (fun o => name o = key) b).
Proof.
  intros [Hs Hl _] Hb. unfold search. rewrite hashFunction_spec by done.
  unfold bucket_at. fold (slot (size ht) key). rewrite Hb.
  by rewrite scan_acc.
Qed.

Lemma chained_create n : 0 < n -> exists ht, create n = Some ht /\ chained n [] ht.
Proof.
  intros Hn. destruct (create_ok n Hn) as (ht & Hc & Hv & Hs & Hb & Hcc).
  exists ht. split; [done|]. split; [done|]. split; [done|].
  split; [by rewrite Hcc|].
  intros i b. rewrite Hb. intros [-> _]%lookup_replicate. done.
Qed.

Lemma chained_insert n objs ht obj :
  chained n objs ht ->
  exists ht', insert obj ht = Some ht' /\ chained n (objs ++ [obj]) ht'.
Proof.
  intros (Hv & Hs & Hcc & Hb).
  destruct (bucket_at_slot ht (name obj) Hv) as [b Hlk].
  destruct (insert_ok obj ht b Hv Hlk) as (ht' & Hi & Hv' & Hs' & Hb' & Hcc').
  exists ht'. split; [done|]. split; [done|]. split; [congruence|].
  split.
  { rewrite Hcc', length_app. simpl. destruct (is_empty b); [lia|].
    pose proof (v_count _ Hv). unfold wrap.
    pose proof (Z.mod_le (collisionCount ht + 1) (2 ^ SIZE_BITS)
                  ltac:(lia) ltac:(by apply Z.pow_pos_nonneg)). lia. }
  intros i b'. rewrite Hb', Hs. rewrite Hs in Hlk. rewrite filter_app.
  destruct (decide (slot n (name obj) = i)) as [<-|Hne].
  - rewrite list_lookup_insert_eq by (by eapply lookup_lt_Some).
    intros [= <-]. rewrite filter_cons_True by done.
    rewrite filter_nil. f_equal. by apply Hb.
  - rewrite list_lookup_insert_ne by done. intros Hi'.
    rewrite filter_cons_False by done. rewrite filter_nil, app_nil_r. by apply Hb.
Qed.

Lemma chained_insert_all n objs done_ ht :
  chained n done_ ht ->
  exists ht', insert_all objs ht = Some ht' /\ chained n (done_ ++ objs) ht'.
Proof.
  revert done_ ht. induction objs as [|o objs IH]; intros done_ ht Hc; simpl.
  - exists ht. by rewrite app_nil_r.
  - destruct (chained_insert n done_ ht o Hc) as (ht1 & -> & Hc1).
    destruct (IH _ _ Hc1) as (ht' & Hi & Hc').
    exists ht'. split; [done|]. by rewrite <- app_assoc in Hc'.
Qed.

Lemma chained_search n objs ht key :
  chained n objs ht -> search key ht = Some (linearSearch objs key).
Proof.
  intros (Hv & Hs & _ & Hb).
  destruct (bucket_at_slot ht key Hv) as [b Hlk].
  rewrite (search_ok key ht b Hv Hlk). f_equal.
  rewrite (Hb _ _ Hlk), linearSearch_filter, list_filter_filter.
  apply list_filter_iff. intros o. split; [tauto|]. intros <-. by rewrite Hs.
Qed.

(** *** Collisions *)

(** Records that all go to one slot [i], inserted into a table whose bucket
    [i] is [b]. *)
Lemma insert_all_one_slot objs : forall ht i b,
  valid ht -> buckets ht !! i = Some b -> b <> [] ->
  Forall (fun o => slot (size ht) (name o) = i) objs ->
  exists ht',
    insert_all objs ht = Some ht' /\ valid ht' /\ size ht' = size ht /\
    buckets ht' !! i = Some (b ++ objs) /\
    collisionCount ht' = wrap SIZE_BITS (collisionCount ht + Z.of_nat (length objs)).
Proof.
  induction objs as [|o objs IH]; intros ht i b Hv Hb Hne Hall; simpl.
  - exists ht. repeat split; try done; try apply Hv.
    + by rewrite app_nil_r.
    + rewrite Z.add_0_r. symmetry. apply wrap_small. apply Hv.
  - apply Forall_cons in Hall as [Ho Hall]. subst i.
    destruct (insert_ok o ht b Hv Hb) as (ht1 & -> & Hv1 & Hs1 & Hb1 & Hc1).
    destruct (IH ht1 (slot (size ht) (name o)) (b ++ [o])) as (ht' & Hi & Hv' & Hs' & Hb' & Hc').
    + done.
    + rewrite Hb1. apply list_lookup_insert_eq. by eapply lookup_lt_Some.
    + by destruct b.
    + by rewrite Hs1.
    + exists ht'. split; [done|]. split; [done|]. split; [congruence|].
      split; [by rewrite <- app_assoc in Hb'|].
      rewrite Hc', Hc1. destruct b as [|? ?]; [done|]. simpl is_empty. cbv iota.
      unfold wrap. rewrite Zplus_mod_idemp_l. f_equal. lia.
Qed.

(** Records that all go to one slot of a fresh table: every insert but
    the first meets a bucket that is not empty. *)
Lemma one_slot_count n objs i :
  0 < n -> objs <> [] -> Z.of_nat (length objs) <= 2 ^ SIZE_BITS ->
  Forall (fun o => slot n (name o) = i) objs ->
  exists ht0 ht,
    create n = Some ht0 /\ insert_all objs ht0 = Some ht /\
    collisionCount ht = Z.of_nat (length objs) - 1.
Proof.
  intros Hn Hne Hlen Hall.
  destruct (create_ok n Hn) as (ht0 & Hc & Hv & Hs & Hb & Hcc).
  exists ht0. destruct objs as [|o objs]; [done|].
  apply Forall_cons in Hall as [Ho Hall]. simpl.
  assert (buckets ht0 !! slot (size ht0) (name o) = Some []) as Hlk.
  { rewrite Hb, Hs. apply lookup_replicate_2. by apply slot_lt. }
  destruct (insert_ok o ht0 [] Hv Hlk) as (ht1 & -> & Hv1 & Hs1 & Hb1 & Hc1).
  destruct (insert_all_one_slot objs ht1 i [o]) as (ht & Hi & _ & _ & _ & Hc').
  - done.
  - rewrite Hb1, Hs, Ho. apply list_lookup_insert_eq.
    rewrite <- Ho, <- Hs. by eapply lookup_lt_Some.
  - done.
  - by rewrite Hs1, Hs.
  - exists ht. split; [done|]. split; [done|].
    rewrite Hc', Hc1, Hcc. simpl. rewrite wrap_small; [lia|].
    simpl length in Hlen. lia.
Qed.

(** *** [insert] and [search] on a valid table: they return *)

Lemma insert_total obj ht :
  valid ht ->
  exists b ht',
    buckets ht !! slot (size ht) (name obj) = Some b /\
    insert obj ht = Some ht' /\ valid ht' /\ size ht' = size ht /\
    buckets ht' = <[slot (size ht) (name obj) := b ++ [obj]]> (buckets ht) /\
    search (name obj) ht' =
      Some (filter (fun o => name o = name obj) (b ++ [obj])).
Proof.
  intros Hv. destruct (bucket_at_slot ht (name obj) Hv) as [b Hlk].
  destruct (insert_ok obj ht b Hv Hlk) as (ht' & Hi & Hv' & Hs' & Hb' & _).
  exists b, ht'. split; [done|]. split; [done|]. split; [done|].
  split; [done|]. split; [done|].
  apply search_ok; [done|]. rewrite Hs', Hb'.
  apply list_lookup_insert_eq. by eapply lookup_lt_Some.
Qed.

Lemma search_total key ht :
  valid ht ->
  exists b,
    buckets ht !! slot (size ht) key = Some b /\
    search key ht = Some (filter (fun o => name o = key) b).
Proof.
  intros Hv. destruct (bucket_at_slot ht key Hv) as [b Hlk].
  exists b. split; [done|]. by apply search_ok.
Qed.

End HashProofs.

(** ** Balanced tree *)

Module RedBlackProofs.
Import RedBlackTree RBShape.

(** *** The monad *)

Lemma bind_Some {A B} (m : M A) (k : A -> M B) s a s' :
  m s = Some (a, s') -> bind m k s = k a s'.
Proof. unfold bind. by intros ->. Qed.

Lemma load_Some s a nd : heap s !! a = Some nd -> load (Some a) s = Some (nd, s).
Proof. unfold load. by intros ->. Qed.

Lemma field_Some {A} (f : Node -> A) s a nd :
  heap s !! a = Some nd -> field f (Some a) s = Some (f nd, s).
Proof. intros H. unfold field. by rewrite (bind_Some _ _ _ _ _ (load_Some _ _ _ H)). Qed.

Lemma store_Some s a nd upd :
  heap s !! a = Some nd ->
  store (Some a) upd s = Some (tt, mkState (root s) (<[a := upd nd]> (heap s))).
Proof. unfold store. by intros ->. Qed.

Lemma ptr_eqb_eq p q : ptr_eqb p q = true <-> p = q.
Proof.
  destruct p as [a|], q as [b|]; simpl; try (split; congruence).
  rewrite Nat.eqb_eq. split; congruence.
Qed.

Lemma ptr_eqb_refl p : ptr_eqb p p = true.
Proof. by apply ptr_eqb_eq. Qed.

Lemma ptr_eqb_ne p q : p <> q -> ptr_eqb p q = false.
Proof. intros H. destruct (ptr_eqb p q) eqn:E; [|done]. by apply ptr_eqb_eq in E. Qed.

(** *** Trees and contexts *)

Lemma rootp_fill f t : rootp (fill f t) = Some (faddr f).
Proof. by destruct f. Qed.

Lemma rootp_plug ctx t : rootp (plug ctx t) = ctx_root (rootp t) ctx.
Proof.
  revert t. induction ctx as [|f ctx IH]; intros t; simpl; [done|].
  by rewrite IH, rootp_fill.
Qed.

Lemma cells_addrs par t : (cells par t).*1 = addrs t.
Proof.
  revert par. induction t as [|a c l IHl k vs r IHr]; intros par; simpl; [done|].
  by rewrite fmap_app, IHl, IHr.
Qed.

Lemma cells_elem par t a nd : (a, nd) ∈ cells par t -> a ∈ addrs t.
Proof.
  intros H. rewrite <- (cells_addrs par). apply list_elem_of_fmap. by exists (a, nd).
Qed.

Lemma ctx_cells_addrs hole ctx : (ctx_cells hole ctx).*1 = ctx_addrs ctx.
Proof.
  revert hole. induction ctx as [|f ctx IH]; intros hole; simpl; [done|].
  by rewrite fmap_app, cells_addrs, IH.
Qed.

Lemma ctx_cells_elem hole ctx a nd : (a, nd) ∈ ctx_cells hole ctx -> a ∈ ctx_addrs ctx.
Proof.
  intros H. rewrite <- (ctx_cells_addrs hole). apply list_elem_of_fmap. by exists (a, nd).
Qed.

Lemma length_addrs t : length (addrs t) = size t.
Proof.
  induction t as [|a c l IHl k vs r IHr]; simpl; [done|].
  by rewrite length_app, IHl, IHr.
Qed.

Lemma zaddrs_up f ctx t : zaddrs (f :: ctx) t ≡ₚ zaddrs ctx (fill f t).
Proof.
  unfold zaddrs. destruct f as [a c k vs r|a c l k vs]; simpl.
  - rewrite <- Permutation_middle. by rewrite <- !app_assoc.
  - rewrite <- Permutation_middle. rewrite <- !app_assoc. f_equiv.
    rewrite !app_assoc. f_equiv. apply Permutation_app_comm.
Qed.

Lemma zcells_up f ctx t : zcells (f :: ctx) t ≡ₚ zcells ctx (fill f t).
Proof.
  unfold zcells. destruct f as [a c k vs r|a c l k vs]; simpl.
  - rewrite <- Permutation_middle. by rewrite <- !app_assoc.
  - rewrite <- Permutation_middle. rewrite <- !app_assoc. f_equiv.
    rewrite !app_assoc. f_equiv. apply Permutation_app_comm.
Qed.

Lemma zrep_up s f ctx t : zrep s (f :: ctx) t <-> zrep s ctx (fill f t).
Proof.
  split; intros [Hr Hn Hc Hs]; split.
  - by rewrite rootp_fill.
  - by rewrite <- zaddrs_up.
  - intros a nd Hin. apply Hc. by rewrite zcells_up.
  - by rewrite <- zaddrs_up.
  - by rewrite rootp_fill in Hr.
  - by rewrite zaddrs_up.
  - intros a nd Hin. apply Hc. by rewrite <- zcells_up.
  - by rewrite zaddrs_up.
Qed.

Lemma zrep_top s t : zrep s [] t <-> represents s t.
Proof.
  split; intros [Hr Hn Hc Hs]; unfold zaddrs, zcells in *; simpl in *.
  - rewrite app_nil_r in Hn, Hs. split; try done.
    intros a nd Hin. apply Hc. by rewrite app_nil_r.
  - split; unfold zaddrs, zcells; simpl; rewrite ?app_nil_r; done.
Qed.

Lemma zrep_plug s ctx t : zrep s ctx t <-> represents s (plug ctx t).
Proof.
  revert t. induction ctx as [|f ctx IH]; intros t; simpl.
  - apply zrep_top.
  - by rewrite zrep_up, IH.
Qed.

Lemma inorder_plug ctx t :
  inorder (plug ctx t) = ctx_before ctx ++ inorder t ++ ctx_after ctx.
Proof.
  revert t. induction ctx as [|f ctx IH]; intros t; simpl.
  - by rewrite app_nil_r.
  - rewrite IH. destruct f as [a c k vs r|a c l k vs]; simpl.
    + by rewrite <- !app_assoc.
    + by rewrite <- !app_assoc.
Qed.

Lemma size_plug ctx t : (length ctx + size t <= size (plug ctx t))%nat.
Proof.
  revert t. induction ctx as [|f ctx IH]; intros t; simpl; [done|].
  etrans; [|apply IH]. destruct f; simpl; lia.
Qed.

Lemma zrep_lookup s ctx a c l k vs r :
  zrep s ctx (Tr a c l k vs r) ->
  heap s !! a = Some (mkNode k vs c (rootp l) (rootp r) (ctx_par ctx)).
Proof.
  intros [_ _ Hc _]. apply Hc. unfold zcells. simpl. apply list_elem_of_here.
Qed.

Lemma zrep_lt s ctx a c l k vs r :
  zrep s ctx (Tr a c l k vs r) -> a < length (heap s).
Proof. intros H. eapply lookup_lt_Some. by eapply zrep_lookup. Qed.

Lemma zrep_payload s ctx a c l k vs r c' vs' :
  zrep s ctx (Tr a c l k vs r) ->
  zrep (mkState (root s)
          (<[a := mkNode k vs' c' (rootp l) (rootp r) (ctx_par ctx)]> (heap s)))
       ctx (Tr a c' l k vs' r).
Proof.
  intros H. pose proof (zrep_lt _ _ _ _ _ _ _ _ H) as Hlt.
  destruct H as [Hr Hn Hc Hs]. split; simpl; try done.
  - unfold zaddrs, zcells in *. simpl in *.
    intros a' nd [[= -> ->]|Hin]%elem_of_cons.
    + by apply list_lookup_insert_eq.
    + apply NoDup_cons in Hn as [Hn _].
      rewrite list_lookup_insert_ne.
      * apply Hc. by right.
      * intros ->. apply Hn.
        rewrite <- app_assoc in Hin.
        rewrite !elem_of_app in *.
        destruct Hin as [Hin|[Hin|Hin]];
          eauto using cells_elem, ctx_cells_elem.
  - by rewrite length_insert.
Qed.

#[local] Arguments bind : simpl never.
#[local] Arguments field : simpl never.
#[local] Arguments store : simpl never.
#[local] Arguments load : simpl never.
#[local] Arguments set_root : simpl never.
#[local] Arguments get_root : simpl never.
#[local] Arguments ret : simpl never.
#[local] Arguments new_node : simpl never.
#[local] Arguments rotateLeft : simpl never.
#[local] Arguments rotateRight : simpl never.

Lemma bind_run {A B} (m : M A) (k : A -> M B) s a s' r :
  m s = Some (a, s') -> k a s' = r -> bind m k s = r.
Proof. intros H <-. by apply bind_Some. Qed.

Lemma bind_assoc {A B C} (m : M A) (k1 : A -> M B) (k2 : B -> M C) s :
  bind (bind m k1) k2 s = bind m (fun a => bind (k1 a) k2) s.
Proof. unfold bind. by destruct (m s) as [[a s']|]. Qed.

(** *** Distinct addresses *)

Lemma NoDup_app_apart (l k : list nat) :
  NoDup (l ++ k) -> NoDup l /\ (forall z, z ∈ l -> (z ∉ k)) /\ NoDup k.
Proof. by intros ?%NoDup_app. Qed.

Lemma apart_cons_r (l : list nat) b r :
  (forall z, z ∈ l -> z ∉ (b :: r)) -> (b ∉ l) /\ (forall z, z ∈ l -> z ∉ r).
Proof.
  intros H. split.
  - intros Hb. apply (H b Hb). apply list_elem_of_here.
  - intros z Hz Hr. apply (H z Hz). by apply list_elem_of_further.
Qed.

Lemma apart_app_r (l k r : list nat) :
  (forall z, z ∈ l -> z ∉ k ++ r) ->
  (forall z, z ∈ l -> z ∉ k) /\ (forall z, z ∈ l -> z ∉ r).
Proof.
  intros H. split; intros z Hz Hk; apply (H z Hz); apply elem_of_app; auto.
Qed.

(** Break [NoDup] of a list built from [::] and [++] into facts [a ≠ b]
    and [a ∉ l]. *)
Ltac nodup_facts H :=
  rewrite <- ?app_assoc, <- ?app_comm_cons in H; simpl in H;
  repeat first
    [ apply NoDup_cons in H as [? H]
    | apply NoDup_app_apart in H as (_ & ? & H) ];
  clear H;
  repeat match goal with
    | F : forall z, z ∈ _ -> z ∉ _ :: _ |- _ => apply apart_cons_r in F as [? F]
    | F : forall z, z ∈ _ -> z ∉ _ ++ _ |- _ => apply apart_app_r in F as [? F]
    | F : _ ∉ _ ++ _ |- _ => apply not_elem_of_app in F as [? ?]
    | F : _ ∉ _ :: _ |- _ => apply not_elem_of_cons in F as [? ?]
    | F : _ ∉ [] |- _ => clear F
    end.

(** An address inside a subtree differs from the addresses known to lie
    outside of it. *)
Ltac apart_from a :=
  repeat match goal with
    | Hm : ?m ∉ ?L, Ha : a ∈ ?L |- _ =>
        lazymatch goal with
        | _ : a ≠ m |- _ => fail
        | _ => assert (a ≠ m) by (let E := fresh in intros E; apply Hm; rewrite <- E; exact Ha)
        end
    end.

Ltac ne_tac := first [assumption | apply not_eq_sym; assumption].
Ltac lt_tac := rewrite ?length_insert; assumption.

Ltac hlookup :=
  simpl;
  repeat first
    [ rewrite list_lookup_insert_eq by lt_tac
    | rewrite list_lookup_insert_ne by ne_tac ];
  first [eassumption | reflexivity].

Ltac mstep :=
  lazymatch goal with
  | |- bind (bind _ _) _ _ = _ => rewrite bind_assoc
  | |- bind (field _ (Some _)) _ _ = _ =>
      eapply bind_run; [apply field_Some; hlookup | cbv beta; simpl]
  | |- bind (store (Some _) _) _ _ = _ =>
      eapply bind_run; [apply store_Some; hlookup | cbv beta; simpl]
  | |- bind (set_root _) _ _ = _ =>
      eapply bind_run; [reflexivity | cbv beta; simpl]
  | |- bind (ret _) _ _ = _ =>
      eapply bind_run; [reflexivity | cbv beta; simpl]
  | |- store (Some _) _ _ = _ =>
      etrans; [apply store_Some; hlookup | simpl]
  | |- context [?a =? ?a] => rewrite Nat.eqb_refl
  | |- context [?a =? ?b] => rewrite (proj2 (Nat.eqb_neq a b)) by ne_tac
  end.

Lemma zrep_transfer s h' r' ctx t ctx' t' :
  zrep s ctx t ->
  r' = ctx_root (rootp t') ctx' ->
  zaddrs ctx' t' ≡ₚ zaddrs ctx t ->
  length h' = length (heap s) ->
  (forall a nd, (a, nd) ∈ zcells ctx' t' -> h' !! a = Some nd) ->
  zrep (mkState r' h') ctx' t'.
Proof.
  intros [Hr Hn Hc Hs] -> Hp Hl Hc'. split; simpl; try done.
  - by rewrite Hp.
  - by rewrite Hl, Hs, Hp.
Qed.

Lemma zrep_parent s f rest t :
  zrep s (f :: rest) t ->
  heap s !! faddr f = Some (frame_node (rootp t) f (ctx_par rest)).
Proof.
  intros [_ _ Hc _]. apply Hc. unfold zcells. simpl.
  apply elem_of_app. right. apply list_elem_of_here.
Qed.

Ltac cell_cases Hin :=
  repeat match type of Hin with
    | _ ∈ _ :: _ => apply elem_of_cons in Hin as [Hin|Hin]
    | _ ∈ _ ++ _ => apply elem_of_app in Hin as [Hin|Hin]
    | _ ∈ [] => by apply elem_of_nil in Hin
    end.

Ltac in_search :=
  first
    [ assumption
    | apply list_elem_of_here
    | apply list_elem_of_further; in_search
    | apply elem_of_app; first [left; in_search | right; in_search] ].
Ltac in_tac := simpl; in_search.

(** The slot behind one cell of the new tree: either a slot that was
    written, or a slot of an untouched part, which the old tree
    describes ([Hc]). *)
Ltac cell_tac Hc Hin :=
  lazymatch type of Hin with
  | (_, _) = (_, _) =>
      injection Hin as -> ->;
      first [ hlookup
            | simpl; rewrite ?list_lookup_insert_ne by ne_tac; apply Hc; in_tac ]
  | (?a, _) ∈ cells _ _ =>
      pose proof (cells_elem _ _ _ _ Hin); apart_from a;
      rewrite ?list_lookup_insert_ne by ne_tac; apply Hc; in_tac
  | (?a, _) ∈ ctx_cells _ _ =>
      pose proof (ctx_cells_elem _ _ _ _ Hin); apart_from a;
      rewrite ?list_lookup_insert_ne by ne_tac; apply Hc; in_tac
  end.

Ltac rot_tac H Hc f :=
  eexists; split;
  [ unfold f, transplant; repeat mstep; reflexivity
  | eapply zrep_transfer;
    [ exact H | simpl; first [reflexivity | exact (z_root _ _ _ H)]
    | unfold zaddrs; simpl; solve_Permutation
    | simpl; by rewrite !length_insert
    | unfold zcells; simpl; intros a nd Hin; cell_cases Hin; cell_tac Hc Hin ] ].

Lemma rotateLeft_spec s ctx x c A kx vx y cy B ky vy D :
  zrep s ctx (Tr x c A kx vx (Tr y cy B ky vy D)) ->
  exists s', rotateLeft (Some x) s = Some (tt, s') /\
             zrep s' ctx (Tr y cy (Tr x c A kx vx B) ky vy D).
Proof.
  intros H.
  pose proof (zrep_lookup _ _ _ _ _ _ _ _ H) as Hx.
  pose proof (proj2 (zrep_up s (HoleR x c A kx vx) ctx _) H) as H1.
  pose proof (zrep_lookup _ _ _ _ _ _ _ _ H1) as Hy.
  pose proof (proj2 (zrep_up s (HoleL y cy ky vy D) _ _) H1) as H2.
  pose proof (lookup_lt_Some _ _ _ Hx) as Lx.
  pose proof (lookup_lt_Some _ _ _ Hy) as Ly.
  pose proof (z_nodup _ _ _ H) as Hnd. unfold zaddrs in Hnd.
  pose proof (z_cells _ _ _ H) as Hc. unfold zcells in Hc.
  destruct B as [|b cb Bl kb vb Br];
    [|pose proof (zrep_lookup _ _ _ _ _ _ _ _ H2) as Hb;
      pose proof (lookup_lt_Some _ _ _ Hb) as Lb];
    (destruct ctx as [|[ua uc uk uvs ur|ua uc [|la lc ll lk lvs lr] uk uvs] rest];
      [|pose proof (zrep_parent _ _ _ _ H) as Hu;
        pose proof (lookup_lt_Some _ _ _ Hu) as Lu ..]);
    simpl in *; nodup_facts Hnd; rot_tac H Hc rotateLeft.
Qed.

Lemma rotateRight_spec s ctx x c A kx vx y cy B ky vy D :
  zrep s ctx (Tr x c (Tr y cy A ky vy B) kx vx D) ->
  exists s', rotateRight (Some x) s = Some (tt, s') /\
             zrep s' ctx (Tr y cy A ky vy (Tr x c B kx vx D)).
Proof.
  intros H.
  pose proof (zrep_lookup _ _ _ _ _ _ _ _ H) as Hx.
  pose proof (proj2 (zrep_up s (HoleL x c kx vx D) ctx _) H) as H1.
  pose proof (zrep_lookup _ _ _ _ _ _ _ _ H1) as Hy.
  pose proof (proj2 (zrep_up s (HoleR y cy A ky vy) _ _) H1) as H2.
  pose proof (lookup_lt_Some _ _ _ Hx) as Lx.
  pose proof (lookup_lt_Some _ _ _ Hy) as Ly.
  pose proof (z_nodup _ _ _ H) as Hnd. unfold zaddrs in Hnd.
  pose proof (z_cells _ _ _ H) as Hc. unfold zcells in Hc.
  destruct B as [|b cb Bl kb vb Br];
    [|pose proof (zrep_lookup _ _ _ _ _ _ _ _ H2) as Hb;
      pose proof (lookup_lt_Some _ _ _ Hb) as Lb];
    (destruct ctx as [|[ua uc uk uvs ur|ua uc [|la lc ll lk lvs lr] uk uvs] rest];
      [|pose proof (zrep_parent _ _ _ _ H) as Hu;
        pose proof (lookup_lt_Some _ _ _ Hu) as Lu ..]);
    simpl in *; nodup_facts Hnd; rot_tac H Hc rotateRight.
Qed.

(** *** Recolouring and appending a record *)

Lemma field_spec {A} (f : Node -> A) s ctx a c l k vs r :
  zrep s ctx (Tr a c l k vs r) ->
  field f (Some a) s =
  Some (f (mkNode k vs c (rootp l) (rootp r) (ctx_par ctx)), s).
Proof. intros H. apply field_Some. by eapply zrep_lookup. Qed.

Lemma color_spec c' s ctx a c l k vs r :
  zrep s ctx (Tr a c l k vs r) ->
  exists s', store (Some a) (set_color c') s = Some (tt, s') /\
             zrep s' ctx (Tr a c' l k vs r).
Proof.
  intros H. eexists. split.
  - apply store_Some. by eapply zrep_lookup.
  - exact (zrep_payload _ _ _ _ _ _ _ _ c' vs H).
Qed.

Lemma push_spec obj s ctx a c l k vs r :
  zrep s ctx (Tr a c l k vs r) ->
  exists s', store (Some a) (push_value obj) s = Some (tt, s') /\
             zrep s' ctx (Tr a c l k (vs ++ [obj]) r).
Proof.
  intros H. eexists. split.
  - apply store_Some. by eapply zrep_lookup.
  - exact (zrep_payload _ _ _ _ _ _ _ _ c (vs ++ [obj]) H).
Qed.

(** *** Colours and black-height *)

Lemma color_cases c : c = RED \/ c = BLACK.
Proof. destruct c; auto. Qed.

Lemma is_red_true c : is_red c = true <-> c = RED.
Proof. destruct c; simpl; split; congruence. Qed.

Lemma bh_red_inv a l k vs r n :
  black_height (Tr a RED l k vs r) n -> black_height l n /\ black_height r n.
Proof. by inversion 1. Qed.

Lemma bh_black_inv a l k vs r m :
  black_height (Tr a BLACK l k vs r) m ->
  exists n, m = S n /\ black_height l n /\ black_height r n.
Proof. inversion 1; subst. eauto. Qed.

Lemma bh_fill f t n :
  black_height t n -> black_height (sibling f) n ->
  black_height (fill f t) (if is_red (fcolor f) then n else S n).
Proof. destruct f as [a [] k vs r|a [] l k vs]; simpl; by constructor. Qed.

Lemma bh_fill_inv f t m :
  black_height (fill f t) m ->
  exists n, m = (if is_red (fcolor f) then n else S n) /\
            black_height t n /\ black_height (sibling f) n.
Proof.
  destruct f as [a [] k vs r|a [] l k vs]; simpl; inversion 1; subst; eauto.
Qed.

Lemma bh_unique t n m : black_height t n -> black_height t m -> n = m.
Proof.
  intros H. revert m. induction H; inversion 1; subst; auto.
Qed.

Lemma color_of_fill f t : color_of (fill f t) = fcolor f.
Proof. by destruct f. Qed.

Lemma nrr_fill f t :
  no_red_red (fill f t) <->
  (fcolor f = RED -> color_of t = BLACK /\ color_of (sibling f) = BLACK) /\
  no_red_red t /\ no_red_red (sibling f).
Proof. destruct f; simpl; tauto. Qed.

(** *** Contexts of red-black trees *)

Lemma plug_rb ctx : forall t n,
  ctx_rb ctx n -> black_height t n -> no_red_red t ->
  (color_of t = RED -> head_color ctx = BLACK /\ ctx <> []) ->
  red_black (plug ctx t).
Proof.
  induction ctx as [|f ctx IH]; intros t n Hctx Hbh Hnrr Hred; simpl.
  - split; [|by eauto]. destruct (color_cases (color_of t)) as [E|E]; [|done].
    by destruct (Hred E).
  - destruct Hctx as (Hsb & Hsn & Hf & Hctx).
    eapply IH; [exact Hctx|by apply bh_fill| |].
    + apply nrr_fill. split; [|done]. intros Hfr. split; [|by apply Hf].
      destruct (color_cases (color_of t)) as [E|E]; [|done].
      destruct (Hred E) as [Hh _]. simpl in Hh. congruence.
    + rewrite color_of_fill. intros Hfr. by destruct (Hf Hfr) as (_ & ? & ?).
Qed.

Lemma rb_plug_inv ctx : forall t,
  red_black (plug ctx t) ->
  exists n, black_height t n /\ ctx_rb ctx n /\ no_red_red t /\
            (color_of t = RED -> head_color ctx = BLACK /\ ctx <> []).
Proof.
  induction ctx as [|f ctx IH]; intros t; simpl.
  - intros (Hc & Hn & n & Hb). exists n. repeat split; auto; congruence.
  - intros H. destruct (IH _ H) as (m & Hb & Hctx & Hn & Hred).
    apply bh_fill_inv in Hb as (n & -> & Hbt & Hbs).
    apply nrr_fill in Hn as (Hf & Hnt & Hns).
    rewrite color_of_fill in Hred.
    exists n. split; [done|]. split; [|split; [done|]].
    + split; [done|]. split; [done|]. split; [|done].
      intros Hfr. destruct (Hf Hfr) as [_ ?]. destruct (Hred Hfr). done.
    + intros E. split; [|done].
      destruct (color_cases (fcolor f)) as [F|F]; [|done].
      destruct (Hf F). congruence.
Qed.

(** The root recoloured BLACK: what [insertFix] does last. *)
Lemma blacken_rb a c l k vs r n :
  black_height (Tr a c l k vs r) n -> no_red_red (Tr a c l k vs r) ->
  red_black (Tr a BLACK l k vs r).
Proof.
  intros Hb (_ & Hl & Hr). split; [done|]. split; [simpl; split; [congruence|done]|].
  destruct c.
  - apply bh_red_inv in Hb as [? ?]. eexists. by constructor.
  - eauto.
Qed.

(** *** Black-height as a count along paths *)

Lemma bh_paths t n : black_height t n -> forall x, x ∈ path_blacks t -> x = n.
Proof.
  induction 1 as [|a l k vs r n Hl IHl Hr IHr|a l k vs r n Hl IHl Hr IHr];
    simpl; intros x Hx.
  - by apply list_elem_of_singleton in Hx.
  - apply list_elem_of_fmap in Hx as (y & -> & [Hy|Hy]%elem_of_app); auto.
  - apply list_elem_of_fmap in Hx as (y & -> & [Hy|Hy]%elem_of_app);
      f_equal; auto.
Qed.

Lemma bh_subtrees t n u :
  black_height t n -> u ∈ subtrees t -> exists m, black_height u m.
Proof.
  induction 1 as [|a l k vs r n Hl IHl Hr IHr|a l k vs r n Hl IHl Hr IHr];
    simpl; intros Hu.
  - apply list_elem_of_singleton in Hu as ->. eexists. constructor.
  - apply elem_of_cons in Hu as [->|[Hu|Hu]%elem_of_app]; auto.
    eexists. by constructor.
  - apply elem_of_cons in Hu as [->|[Hu|Hu]%elem_of_app]; auto.
    eexists. by constructor.
Qed.

Lemma bh_uniform t n : black_height t n -> uniform_black_height t.
Proof.
  intros H u Hu x y Hx Hy. destruct (bh_subtrees _ _ _ H Hu) as [m Hm].
  rewrite (bh_paths _ _ Hm x Hx). by rewrite (bh_paths _ _ Hm y Hy).
Qed.

Lemma ctx_root_in ctx : forall f hole,
  exists a, ctx_root hole (f :: ctx) = Some a /\ a ∈ ctx_addrs (f :: ctx).
Proof.
  induction ctx as [|f' ctx IH]; intros f hole.
  - exists (faddr f). split; [done|]. apply list_elem_of_here.
  - destruct (IH f' (Some (faddr f))) as (a & Ha & Hin).
    exists a. split; [done|]. simpl. apply list_elem_of_further.
    apply elem_of_app. by right.
Qed.

Lemma color_frame_node hole f par : color (frame_node hole f par) = fcolor f.
Proof. by destruct f. Qed.

(** The loop condition holds exactly when the current node has a RED
    parent. *)
Lemma fix_cond_spec s ctx n c l k vs r :
  zrep s ctx (Tr n c l k vs r) ->
  fix_cond (Some n) s =
  Some (match ctx with [] => false | f :: _ => is_red (fcolor f) end, s).
Proof.
  intros H. unfold fix_cond.
  eapply bind_run; [reflexivity|]. cbv beta.
  destruct ctx as [|f rest].
  - rewrite (z_root _ _ _ H). simpl ctx_root. simpl rootp. by rewrite ptr_eqb_refl.
  - destruct (ctx_root_in rest f (Some n)) as (a & Ha & Hin).
    pose proof (z_root _ _ _ H) as Hr. simpl in Hr, Ha. rewrite Ha in Hr.
    rewrite Hr.
    pose proof (z_nodup _ _ _ H) as Hnd. unfold zaddrs in Hnd. simpl addrs in Hnd.
    apply NoDup_cons in Hnd as [Hn _].
    assert (n <> a) as Hne.
    { intros ->. apply Hn. rewrite !elem_of_app. auto. }
    rewrite (ptr_eqb_ne (Some n) (Some a)) by congruence.
    eapply bind_run; [exact (field_spec _ _ _ _ _ _ _ _ _ H)|]. cbv beta. simpl.
    eapply bind_run; [apply field_Some; exact (zrep_parent _ _ _ _ H)|]. cbv beta.
    by rewrite color_frame_node.
Qed.

(** *** Rules for [runs] *)

Lemma runs_ret {A} (x : A) s (Q : A -> state -> Prop) : Q x s -> runs (ret x) s Q.
Proof. intros H. by exists x, s. Qed.

Lemma runs_bind {A B} (m : M A) (k : A -> M B) s a s1 Q :
  m s = Some (a, s1) -> runs (k a) s1 Q -> runs (bind m k) s Q.
Proof.
  intros Hm (b & s' & Hk & HQ). exists b, s'. split; [|done].
  by rewrite (bind_Some _ _ _ _ _ Hm).
Qed.

Lemma runs_seq {A B} (m : M A) (k : A -> M B) s (R : A -> state -> Prop) Q :
  runs m s R -> (forall a s1, R a s1 -> runs (k a) s1 Q) -> runs (bind m k) s Q.
Proof. intros (a & s1 & Hm & HR) Hk. eapply runs_bind; eauto. Qed.

Lemma runs_assoc {A B C} (m : M A) (k1 : A -> M B) (k2 : B -> M C) s Q :
  runs (bind m (fun a => bind (k1 a) k2)) s Q -> runs (bind (bind m k1) k2) s Q.
Proof. unfold runs. by rewrite bind_assoc. Qed.

Lemma runs_weaken {A} (m : M A) s (Q R : A -> state -> Prop) :
  runs m s Q -> (forall a s', Q a s' -> R a s') -> runs m s R.
Proof. intros (a & s' & Hm & HQ) H. exists a, s'. auto. Qed.

Lemma runs_color {B} c' (k : unit -> M B) s ctx a c l kk vs r Q :
  zrep s ctx (Tr a c l kk vs r) ->
  (forall s', zrep s' ctx (Tr a c' l kk vs r) -> runs (k tt) s' Q) ->
  runs (bind (store (Some a) (set_color c')) k) s Q.
Proof.
  intros H Hk. destruct (color_spec c' _ _ _ _ _ _ _ _ H) as (s' & E & H').
  eapply runs_bind; eauto.
Qed.

Lemma runs_rotateLeft {B} (k : unit -> M B) s ctx x c A kx vx y cy T ky vy D Q :
  zrep s ctx (Tr x c A kx vx (Tr y cy T ky vy D)) ->
  (forall s', zrep s' ctx (Tr y cy (Tr x c A kx vx T) ky vy D) -> runs (k tt) s' Q) ->
  runs (bind (rotateLeft (Some x)) k) s Q.
Proof.
  intros H Hk. destruct (rotateLeft_spec _ _ _ _ _ _ _ _ _ _ _ _ _ H) as (s' & E & H').
  eapply runs_bind; eauto.
Qed.

Lemma runs_rotateRight {B} (k : unit -> M B) s ctx x c A kx vx y cy T ky vy D Q :
  zrep s ctx (Tr x c (Tr y cy A ky vy T) kx vx D) ->
  (forall s', zrep s' ctx (Tr y cy A ky vy (Tr x c T kx vx D)) -> runs (k tt) s' Q) ->
  runs (bind (rotateRight (Some x)) k) s Q.
Proof.
  intros H Hk. destruct (rotateRight_spec _ _ _ _ _ _ _ _ _ _ _ _ _ H) as (s' & E & H').
  eapply runs_bind; eauto.
Qed.

(** *** Moving the focus *)

Ltac focus_top H :=
  repeat match type of H with
    | zrep _ (_ :: _) _ => apply zrep_up in H; simpl fill in H
    end.

Ltac focus_at H a :=
  lazymatch type of H with
  | zrep _ _ (Tr a _ _ _ _ _) => idtac
  | zrep ?s ?ctx (Tr ?x ?c ?l ?kk ?vs ?r) =>
      first
        [ apply (proj2 (zrep_up s (HoleL x c kk vs r) ctx l)) in H; focus_at H a
        | apply (proj2 (zrep_up s (HoleR x c l kk vs) ctx r)) in H; focus_at H a ]
  end.

(** A cell of the tree, found by its address. *)
Ltac cell_search :=
  first
    [ apply list_elem_of_here
    | apply list_elem_of_further; cell_search
    | apply elem_of_app; first [left; cell_search | right; cell_search] ].

Ltac zread H :=
  eapply runs_bind;
  [ apply field_Some; apply (z_cells _ _ _ H); unfold zcells; simpl; cell_search
  | cbv beta; simpl ].

Ltac zstep H :=
  lazymatch goal with
  | |- runs (bind (bind _ _) _) _ _ => apply runs_assoc
  | |- runs (bind (field _ (Some _)) _) _ _ => zread H
  | |- runs (bind (ret _) _) _ _ => eapply runs_bind; [reflexivity | cbv beta; simpl]
  | |- runs (bind (store (Some ?a) (set_color _)) _) ?s _ =>
      focus_top H; focus_at H a;
      eapply (runs_color _ _ _ _ _ _ _ _ _ _ _ H);
      clear dependent s; intros s H
  | |- runs (bind (rotateLeft (Some ?a)) _) ?s _ =>
      focus_top H; focus_at H a;
      eapply (runs_rotateLeft _ _ _ _ _ _ _ _ _ _ _ _ _ _ _ H);
      clear dependent s; intros s H
  | |- runs (bind (rotateRight (Some ?a)) _) ?s _ =>
      focus_top H; focus_at H a;
      eapply (runs_rotateRight _ _ _ _ _ _ _ _ _ _ _ _ _ _ _ H);
      clear dependent s; intros s H
  | |- context [?a =? ?a] => rewrite Nat.eqb_refl; simpl
  | |- context [?a =? ?b] => rewrite (proj2 (Nat.eqb_neq a b)) by ne_tac; simpl
  end.

Create HintDb rb.
#[local] Hint Constructors black_height : rb.

(** Unpack what is known about colours and black-heights. *)
Ltac rb_inv :=
  repeat match goal with
    | H : black_height (Tr _ RED _ _ _ _) _ |- _ => apply bh_red_inv in H as [? ?]
    | H : black_height (Tr _ BLACK _ _ _ _) _ |- _ =>
        apply bh_black_inv in H as (? & ? & ? & ?); simplify_eq
    | H : no_red_red (Tr _ _ _ _ _ _) |- _ => destruct H as (? & ? & ?)
    | H : RED = RED -> _ |- _ => specialize (H eq_refl)
    | H : _ /\ _ |- _ => destruct H
    end.

Ltac rb_auto :=
  simpl in *; rb_inv; subst; simpl in *; rb_inv;
  repeat (simpl; match goal with
    | |- _ /\ _ => split
    | |- _ -> _ => intro
    | |- fix_state _ _ => split
    | |- exists _, _ => eexists
    | |- True => exact I
    end);
  simpl in *; try congruence; eauto 12 with rb.

(** The end of a pass: the focus goes to the node the pass returns. *)
Ltac zfinish H :=
  lazymatch goal with
  | |- runs (ret (Some ?x)) _ _ =>
      focus_top H; focus_at H x; apply runs_ret;
      eexists _, _; split; [exact H|]
  end.

(** One pass through the body of the loop: the violation moves up the
    tree or disappears, and the symmetric order is unchanged. *)
Lemma fix_body_spec s ctx t :
  zrep s ctx t -> fix_state ctx t -> head_color ctx = RED ->
  runs (fix_body (rootp t)) s (fun n' s' =>
    exists ctx' t',
      zrep s' ctx' t' /\ n' = rootp t' /\ fix_state ctx' t' /\
      length ctx' < length ctx /\
      inorder (plug ctx' t') = inorder (plug ctx t)).
Proof.
  intros H [Hred Hnode Hnrr (bh & Hbh & Hctx)] Hhead.
  destruct t as [|n c l k vs r]; [done|]. simpl in Hred. subst c.
  destruct ctx as [|f1 [|f2 rest]]; [done| |].
  { destruct Hctx as (_ & _ & Hf1 & _). by destruct (Hf1 Hhead) as (_ & _ & ?). }
  simpl in Hhead. destruct Hctx as (Hsb1 & Hsn1 & Hf1 & Hctx1).
  destruct (Hf1 Hhead) as (Hsc1 & Hh1 & _). clear Hf1.
  rewrite Hhead in Hctx1. simpl in Hctx1, Hh1.
  destruct Hctx1 as (Hsb2 & Hsn2 & _ & Hrest). rewrite Hh1 in Hrest. simpl in Hrest.
  pose proof (z_nodup _ _ _ H) as Hnd. unfold zaddrs in Hnd.
  destruct f1 as [p c1 kp vsp [|sa sc sl sk svs sr]|p c1 [|sa sc sl sk svs sr] kp vsp];
    destruct f2 as [g c2 kg vsg [|u [] ul uk uvs ur]|g c2 [|u [] ul uk uvs ur] kg vsg];
    simpl in *; subst c1 c2; nodup_facts Hnd;
    unfold fix_body, red_ptr; repeat zstep H; zfinish H.
  all: split; [reflexivity|].
  all: split; [|split; [simpl; lia|]].
  all: try (simpl; rewrite !inorder_plug; simpl; by repeat (rewrite <- app_assoc; simpl)).
  all: rb_auto.
Qed.

Lemma head_color_cond ctx :
  match ctx with [] => false | f :: _ => is_red (fcolor f) end = is_red (head_color ctx).
Proof. by destruct ctx. Qed.

(** The loop of [insertFix] ends within [length ctx + 1] tests, with the
    current node below a BLACK parent or at the root. *)
Lemma fix_loop_spec fuel : forall s ctx t,
  zrep s ctx t -> fix_state ctx t -> length ctx < fuel ->
  runs (fix_loop fuel (rootp t)) s (fun _ s' =>
    exists ctx' t',
      zrep s' ctx' t' /\ fix_state ctx' t' /\ head_color ctx' = BLACK /\
      inorder (plug ctx' t') = inorder (plug ctx t)).
Proof.
  induction fuel as [|fuel IH]; intros s ctx t H Hfs Hlen; [lia|].
  simpl fix_loop.
  destruct t as [|n c l k vs r]; [by destruct Hfs|].
  eapply runs_bind; [exact (fix_cond_spec _ _ _ _ _ _ _ _ H)|]. cbv beta.
  rewrite head_color_cond.
  destruct (head_color ctx) eqn:Hh; simpl is_red; cbv iota.
  - eapply runs_seq; [exact (fix_body_spec _ _ _ H Hfs Hh)|].
    intros n' s1 (ctx1 & t1 & H1 & -> & Hfs1 & Hlen1 & Hin1).
    eapply runs_weaken; [apply (IH _ _ _ H1 Hfs1); lia|].
    intros _ s' (ctx' & t' & H' & Hfs' & Hh' & Hin').
    exists ctx', t'. split; [done|]. split; [done|]. split; [done|].
    by rewrite Hin'.
  - apply runs_ret. exists ctx, (Tr n c l k vs r). done.
Qed.

Lemma plug_is_node ctx t : t <> Leaf -> plug ctx t <> Leaf.
Proof.
  revert t. induction ctx as [|f ctx IH]; intros t Ht; simpl; [done|].
  apply IH. by destruct f.
Qed.

Lemma fix_state_parts ctx t :
  fix_state ctx t -> head_color ctx = BLACK ->
  exists n, black_height (plug ctx t) n /\ no_red_red (plug ctx t).
Proof.
  intros [Hred Hnode Hnrr (n & Hbh & Hctx)] Hh.
  destruct ctx as [|f ctx].
  - simpl. eauto.
  - assert (red_black (plug (f :: ctx) t)) as (_ & ? & m & ?); [|eauto].
    eapply plug_rb; eauto.
Qed.

(** [insertFix] restores the red-black invariants and keeps the
    symmetric order. *)
Lemma insertFix_spec s ctx t :
  zrep s ctx t -> fix_state ctx t -> length ctx < length (heap s) ->
  runs (insertFix (rootp t)) s (fun _ s' =>
    exists T, represents s' T /\ red_black T /\
              inorder T = inorder (plug ctx t)).
Proof.
  intros H Hfs Hlen. unfold insertFix.
  eapply runs_bind; [reflexivity|]. cbv beta.
  eapply runs_seq; [exact (fix_loop_spec _ _ _ _ H Hfs Hlen)|].
  intros _ s1 (ctx1 & t1 & H1 & Hfs1 & Hh1 & Hin1).
  eapply runs_bind; [reflexivity|]. cbv beta.
  destruct (fix_state_parts _ _ Hfs1 Hh1) as (n & Hbh & Hnrr).
  apply zrep_plug in H1.
  pose proof (plug_is_node ctx1 t1 (fs_node _ _ Hfs1)) as Hnode.
  destruct (plug ctx1 t1) as [|a c L k vs R] eqn:E; [done|].
  rewrite (rep_root _ _ H1). simpl rootp.
  apply zrep_top in H1.
  destruct (color_spec BLACK _ _ _ _ _ _ _ _ H1) as (s2 & E2 & H2).
  exists tt, s2. split; [exact E2|].
  exists (Tr a BLACK L k vs R). split; [by apply zrep_top|].
  split; [by eapply blacken_rb|]. by rewrite <- Hin1.
Qed.

(** *** Records under a key *)

Lemma vals_app k X Y : vals k (X ++ Y) = vals k X ++ vals k Y.
Proof. unfold vals. by rewrite filter_app, fmap_app, concat_app. Qed.

Lemma vals_cons_eq k vs Y : vals k ((k, vs) :: Y) = vs ++ vals k Y.
Proof. unfold vals. by rewrite filter_cons_True. Qed.

Lemma vals_cons_ne k k' vs Y : k' <> k -> vals k ((k', vs) :: Y) = vals k Y.
Proof. intros H. unfold vals. by rewrite filter_cons_False. Qed.

Lemma vals_absent k L : k ∉ L.*1 -> vals k L = [].
Proof.
  induction L as [|[k' vs] L IH]; [done|].
  rewrite fmap_cons, not_elem_of_cons. intros [Hne Hin].
  rewrite vals_cons_ne by done. auto.
Qed.

Lemma key_lt_ne a b : key_lt a b -> a <> b.
Proof. apply str_lt_neq. Qed.

Lemma above_absent k (L : list (string * list Object)) :
  (forall x, x ∈ L.*1 -> key_lt k x) -> k ∉ L.*1.
Proof. intros H Hin. by apply (key_lt_ne _ _ (H _ Hin)). Qed.

Lemma below_absent k (L : list (string * list Object)) :
  (forall x, x ∈ L.*1 -> key_lt x k) -> k ∉ L.*1.
Proof. intros H Hin. by apply (key_lt_ne _ _ (H _ Hin)). Qed.

(** *** Sorted trees *)

Lemma sorted_app X Y :
  sorted (X ++ Y) <->
  (forall x y, x ∈ X.*1 -> y ∈ Y.*1 -> key_lt x y) /\ sorted X /\ sorted Y.
Proof. unfold sorted. rewrite fmap_app. apply StronglySorted_app. Qed.

Lemma sorted_cons k vs Y :
  sorted ((k, vs) :: Y) <-> (forall y, y ∈ Y.*1 -> key_lt k y) /\ sorted Y.
Proof.
  unfold sorted. rewrite fmap_cons. simpl.
  rewrite StronglySorted_cons, Forall_forall. done.
Qed.

Lemma sorted_node a c l k vs r :
  sorted (inorder (Tr a c l k vs r)) ->
  (forall x, x ∈ keys l -> key_lt x k) /\ (forall x, x ∈ keys r -> key_lt k x) /\
  sorted (inorder l) /\ sorted (inorder r).
Proof.
  simpl. rewrite sorted_app, sorted_cons. intros (Hlr & Hl & Hk & Hr).
  repeat split; auto.
  intros x Hx. apply Hlr; [done|]. rewrite fmap_cons. apply list_elem_of_here.
Qed.

Lemma sorted_plug ctx t : sorted (inorder (plug ctx t)) -> sorted (inorder t).
Proof.
  rewrite inorder_plug, !sorted_app. tauto.
Qed.

Lemma sorted_ordered T : sorted (inorder T) -> ordered T.
Proof.
  induction T as [|a c l IHl k vs r IHr]; [done|].
  intros H. destruct (sorted_node _ _ _ _ _ _ H) as (Hl & Hr & Sl & Sr).
  simpl. auto.
Qed.

Lemma sorted_NoDup T : sorted (inorder T) -> NoDup (keys T).
Proof.
  unfold sorted, keys. generalize ((inorder T).*1). intros L.
  induction 1 as [|x L HL IH Hx]; constructor; [|done].
  intros Hin. rewrite Forall_forall in Hx.
  by apply (key_lt_ne _ _ (Hx _ Hin)).
Qed.

(** *** The walk *)

Lemma locate_plug k t : forall ctx,
  plug (locate k ctx t).1 (locate k ctx t).2 = plug ctx t.
Proof.
  induction t as [|a c l IHl k' vs r IHr]; intros ctx; simpl; [done|].
  destruct (str_eq k k'); [done|].
  destruct (str_lt k k'); [by rewrite IHl|by rewrite IHr].
Qed.

Lemma locate_length k t : forall ctx, length ctx <= length (locate k ctx t).1.
Proof.
  induction t as [|a c l IHl k' vs r IHr]; intros ctx; simpl; [done|].
  destruct (str_eq k k'); [done|].
  destruct (str_lt k k'); (etrans; [|apply IHl || apply IHr]); simpl; lia.
Qed.

Lemma locate_leaf_deep k a c l k' vs r ctx :
  (locate k ctx (Tr a c l k' vs r)).2 = Leaf ->
  (locate k ctx (Tr a c l k' vs r)).1 <> [].
Proof.
  simpl. destruct (str_eq k k'); [done|]. intros _.
  destruct (str_lt k k').
  - pose proof (locate_length k l (HoleL a c k' vs r :: ctx)) as H.
    destruct (locate k _ l).1; simpl in *; [lia|done].
  - pose proof (locate_length k r (HoleR a c l k' vs :: ctx)) as H.
    destruct (locate k _ r).1; simpl in *; [lia|done].
Qed.

Lemma locate_found k t : forall ctx a c l k' vs r,
  (locate k ctx t).2 = Tr a c l k' vs r -> k' = k.
Proof.
  induction t as [|a0 c0 l0 IHl k0 vs0 r0 IHr]; intros ctx a c l k' vs r; simpl; [done|].
  destruct (str_eq k k0) eqn:E.
  - simpl. intros [= -> -> -> -> -> ->]. symmetry. by apply str_eq_true.
  - destruct (str_lt k k0); eauto.
Qed.

Lemma locate_turns k t : forall ctx,
  Forall (turn_ok k) ctx -> Forall (turn_ok k) (locate k ctx t).1.
Proof.
  induction t as [|a c l IHl k' vs r IHr]; intros ctx H; simpl; [done|].
  destruct (str_eq k k'); [done|].
  destruct (str_lt k k') eqn:E; [apply IHl|apply IHr]; by constructor.
Qed.

Lemma locate_bounds k t : forall ctx,
  sorted (inorder (plug ctx t)) -> bounds k ctx -> bounds k (locate k ctx t).1.
Proof.
  induction t as [|a c l IHl k' vs r IHr]; intros ctx Hs [Hb Ha]; simpl; [done|].
  destruct (sorted_node _ _ _ _ _ _ (sorted_plug _ _ Hs)) as (Hl & Hr & _ & _).
  destruct (str_eq k k') eqn:E; [done|].
  destruct (str_lt k k') eqn:F.
  - apply IHl; [done|]. split; [done|].
    intros x Hx. simpl in Hx. rewrite ?fmap_cons, ?fmap_app in Hx. simpl in Hx.
    rewrite elem_of_cons, elem_of_app in Hx.
    destruct Hx as [->|[Hx|Hx]]; [done| |by apply Ha].
    eapply str_lt_trans; [exact F|]. by apply Hr.
  - pose proof (str_lt_total _ _ E F) as G.
    apply IHr; [done|]. split; [|done].
    intros x Hx. simpl in Hx. rewrite ?fmap_app in Hx. simpl in Hx.
    rewrite !elem_of_app, list_elem_of_singleton in Hx.
    destruct Hx as [Hx|[Hx| ->]]; [by apply Hb| |done].
    eapply str_lt_trans; [|exact G]. by apply Hl.
Qed.

Lemma bounds_nil k : bounds k [].
Proof. split; intros x Hx; by apply elem_of_nil in Hx. Qed.

(** The records found at the end of the walk are the records stored
    under the key. *)
Lemma located_vals k T :
  sorted (inorder T) ->
  vals k (inorder T) =
  match (locate k [] T).2 with
  | Leaf => []
  | Tr _ _ _ _ vs _ => vs
  end.
Proof.
  intros Hs.
  pose proof (locate_plug k T []) as Hp. simpl in Hp.
  pose proof (locate_bounds k T [] Hs (bounds_nil k)) as [Hb Ha].
  pose proof (locate_found k T []) as Hf.
  destruct (locate k [] T) as [ctx t]. simpl in *.
  rewrite <- Hp in Hs |- *. rewrite inorder_plug, !vals_app.
  rewrite (vals_absent k (ctx_before ctx)) by by apply below_absent.
  rewrite (vals_absent k (ctx_after ctx)) by by apply above_absent.
  rewrite app_nil_r. simpl.
  destruct t as [|a c l k' vs r]; [done|].
  rewrite (Hf _ _ _ _ _ _ eq_refl) in *.
  destruct (sorted_node _ _ _ _ _ _ (sorted_plug _ _ Hs)) as (Hl & Hr & _ & _).
  simpl. rewrite vals_app, vals_cons_eq.
  rewrite (vals_absent k (inorder l)) by by apply below_absent.
  rewrite (vals_absent k (inorder r)) by by apply above_absent.
  by rewrite app_nil_r.
Qed.

Lemma runs_push {B} obj (k : unit -> M B) s ctx a c l kk vs r Q :
  zrep s ctx (Tr a c l kk vs r) ->
  (forall s', zrep s' ctx (Tr a c l kk (vs ++ [obj]) r) -> runs (k tt) s' Q) ->
  runs (bind (store (Some a) (push_value obj)) k) s Q.
Proof.
  intros H Hk. destruct (push_spec obj _ _ _ _ _ _ _ _ H) as (s' & E & H').
  eapply runs_bind; eauto.
Qed.

(** The loop of [insert] follows [locate]. *)
Lemma descend_spec obj t : forall fuel s ctx,
  zrep s ctx t -> size t <= fuel ->
  runs (descend fuel obj (rootp t) (ctx_par ctx)) s (fun res s' =>
    match (locate (name obj) ctx t).2 with
    | Leaf => res = Some (ctx_par (locate (name obj) ctx t).1) /\ s' = s
    | Tr a c l k vs r =>
        res = None /\
        zrep s' (locate (name obj) ctx t).1 (Tr a c l k (vs ++ [obj]) r)
    end).
Proof.
  induction t as [|a c l IHl k vs r IHr]; intros fuel s ctx H Hf.
  - destruct fuel; simpl; by apply runs_ret.
  - destruct fuel as [|fuel]; [simpl in Hf; lia|]. simpl in Hf.
    simpl descend. simpl locate.
    eapply runs_bind; [exact (field_spec _ _ _ _ _ _ _ _ _ H)|]. cbv beta. simpl.
    destruct (str_eq (name obj) k) eqn:E.
    + simpl. eapply runs_push; [exact H|]. intros s' H'. by apply runs_ret.
    + destruct (str_lt (name obj) k) eqn:F.
      * eapply runs_bind; [exact (field_spec _ _ _ _ _ _ _ _ _ H)|]. cbv beta. simpl left.
        apply (IHl fuel s (HoleL a c k vs r :: ctx)); [|lia].
        by apply zrep_up.
      * eapply runs_bind; [exact (field_spec _ _ _ _ _ _ _ _ _ H)|]. cbv beta. simpl right.
        apply (IHr fuel s (HoleR a c l k vs :: ctx)); [|lia].
        by apply zrep_up.
Qed.

(** The loop of [search] follows [locate] too. *)
Lemma search_from_spec k t : forall fuel s ctx,
  zrep s ctx t -> size t <= fuel ->
  search_from fuel k (rootp t) s =
  Some (match (locate k ctx t).2 with
        | Leaf => []
        | Tr _ _ _ _ vs _ => vs
        end, s).
Proof.
  induction t as [|a c l IHl k' vs r IHr]; intros fuel s ctx H Hf.
  - by destruct fuel.
  - destruct fuel as [|fuel]; [simpl in Hf; lia|]. simpl in Hf.
    simpl search_from. simpl locate.
    eapply bind_run; [exact (field_spec _ _ _ _ _ _ _ _ _ H)|]. cbv beta. simpl.
    destruct (str_eq k k') eqn:E.
    + simpl. exact (field_spec _ _ _ _ _ _ _ _ _ H).
    + destruct (str_lt k k') eqn:F.
      * eapply bind_run; [exact (field_spec _ _ _ _ _ _ _ _ _ H)|]. cbv beta. simpl left.
        apply (IHl fuel s (HoleL a c k' vs r :: ctx)); [|lia].
        by apply zrep_up.
      * eapply bind_run; [exact (field_spec _ _ _ _ _ _ _ _ _ H)|]. cbv beta. simpl right.
        apply (IHr fuel s (HoleR a c l k' vs :: ctx)); [|lia].
        by apply zrep_up.
Qed.

Lemma rep_size_heap s T : represents s T -> length (heap s) = size T.
Proof. intros H. by rewrite (rep_size _ _ H), length_addrs. Qed.

Lemma search_spec objs s T k :
  tree_inv objs s T -> search k s = Some (linearSearch objs k, s).
Proof.
  intros [Hrep _ Hs Hv]. unfold search.
  eapply bind_run; [reflexivity|]. cbv beta.
  eapply bind_run; [reflexivity|]. cbv beta.
  rewrite (rep_root _ _ Hrep).
  rewrite (search_from_spec k T _ s []).
  - by rewrite <- located_vals, Hv.
  - by apply zrep_top.
  - by rewrite (rep_size_heap _ _ Hrep).
Qed.

(** *** Linking a new leaf *)

Lemma zcells_addrs ctx t : (zcells ctx t).*1 = zaddrs ctx t.
Proof. unfold zcells, zaddrs. by rewrite fmap_app, cells_addrs, ctx_cells_addrs. Qed.

Lemma zrep_addr_lt s ctx t a :
  zrep s ctx t -> a ∈ zaddrs ctx t -> a < length (heap s).
Proof.
  intros H. rewrite <- zcells_addrs. intros ([a' nd] & -> & Hin)%list_elem_of_fmap.
  eapply lookup_lt_Some. by apply (z_cells _ _ _ H).
Qed.

Lemma key_frame_node hole f par : key (frame_node hole f par) = fkey f.
Proof. by destruct f. Qed.

Lemma link_leaf obj s f rest :
  zrep s (f :: rest) Leaf -> turn_ok (name obj) f ->
  runs (nd <- new_node (name obj) obj RED (Some (faddr f)) ;;
        pk <- field key (Some (faddr f)) ;;
        (if str_lt (name obj) pk then store (Some (faddr f)) (set_left nd)
         else store (Some (faddr f)) (set_right nd)) ;;
        ret (Some nd)) s
    (fun res s' =>
       res = Some (Some (length (heap s))) /\
       zrep s' (f :: rest) (Tr (length (heap s)) RED Leaf (name obj) [obj] Leaf) /\
       length (heap s') = S (length (heap s))).
Proof.
  intros H Ht.
  pose proof (zrep_parent _ _ _ _ H) as Hu. simpl rootp in Hu.
  pose proof (lookup_lt_Some _ _ _ Hu) as Lu.
  pose proof (z_nodup _ _ _ H) as Hnd. unfold zaddrs in Hnd.
  pose proof (z_cells _ _ _ H) as Hc. unfold zcells in Hc.
  pose proof (fun a => zrep_addr_lt _ _ _ a H) as Hlt. unfold zaddrs in Hlt.
  eapply runs_bind; [reflexivity|]. cbv beta.
  eapply runs_bind.
  { apply field_Some. simpl. rewrite lookup_app_l by done. exact Hu. }
  cbv beta. rewrite key_frame_node.
  assert (forall upd,
    store (Some (faddr f)) upd
      (mkState (root s)
         (heap s ++ [mkNode (name obj) [obj] RED None None (Some (faddr f))])) =
    Some (tt, mkState (root s)
      (<[faddr f := upd (frame_node None f (ctx_par rest))]>
         (heap s ++ [mkNode (name obj) [obj] RED None None (Some (faddr f))]))))
    as Hst.
  { intros upd. apply (store_Some (mkState _ _)). simpl.
    rewrite lookup_app_l by done. exact Hu. }
  assert (faddr f <> length (heap s)) as Hne by lia.
  destruct f as [p c k vs r|p c l k vs]; simpl in Ht, Hnd, Hc, Hlt, Hne, Lu, Hu |- *;
    rewrite Ht; (eapply runs_bind; [apply Hst|]); cbv beta; apply runs_ret;
    (split; [done|]); (split; [|simpl; rewrite length_insert, length_app; simpl; lia]).
  all: split; simpl.
  all: try exact (z_root _ _ _ H).
  all: try (unfold zaddrs; simpl; apply NoDup_cons; split; [|done];
            intros Hin; apply Hlt in Hin; lia).
  all: try (pose proof (z_size _ _ _ H) as Hsz; unfold zaddrs in Hsz; simpl in Hsz;
            rewrite length_insert, length_app; simpl; lia).
  all: unfold zcells; simpl; intros a nd Hin; nodup_facts Hnd.
  all: cell_cases Hin.
  all: try (injection Hin as -> ->;
            first [ rewrite list_lookup_insert_ne by done;
                    by apply list_lookup_middle
                  | rewrite list_lookup_insert_eq by (rewrite length_app; simpl; lia);
                    reflexivity ]).
  all: lazymatch type of Hin with
       | (?a, _) ∈ cells _ _ =>
           pose proof (cells_elem _ _ _ _ Hin); apart_from a
       | (?a, _) ∈ ctx_cells _ _ =>
           pose proof (ctx_cells_elem _ _ _ _ Hin); apart_from a
       end.
  all: rewrite list_lookup_insert_ne by ne_tac.
  all: rewrite lookup_app_l by (apply Hlt; in_tac).
  all: apply Hc; in_tac.
Qed.

(** *** [attach] and [insert] *)

Lemma rb_payload ctx a c l k vs vs' r :
  red_black (plug ctx (Tr a c l k vs r)) -> red_black (plug ctx (Tr a c l k vs' r)).
Proof.
  intros (n & Hb & Hctx & Hn & Hred)%rb_plug_inv.
  eapply plug_rb; [exact Hctx| |exact Hn|exact Hred].
  inversion Hb; subst; by constructor.
Qed.

Lemma vals_push objs obj X k vs Y :
  (forall k', vals k' (X ++ (k, vs) :: Y) = linearSearch objs k') ->
  k ∉ Y.*1 -> name obj = k ->
  forall k', vals k' (X ++ (k, vs ++ [obj]) :: Y) = linearSearch (objs ++ [obj]) k'.
Proof.
  intros Hv Hk Hn k'. rewrite linearSearch_snoc, <- Hv, !vals_app, Hn.
  destruct (str_eq k k') eqn:E.
  - apply str_eq_true in E. subst k'. rewrite !vals_cons_eq.
    rewrite (vals_absent k Y Hk), !app_nil_r. by rewrite <- !app_assoc.
  - apply str_eq_false in E. rewrite !vals_cons_ne by done. by rewrite app_nil_r.
Qed.

Lemma vals_empty_entry k' X k Y : vals k' (X ++ (k, []) :: Y) = vals k' (X ++ Y).
Proof.
  rewrite !vals_app. f_equal. destruct (decide (k = k')) as [->|Hne].
  - by rewrite vals_cons_eq.
  - by rewrite vals_cons_ne.
Qed.

Lemma sorted_insert_here X k vs Y :
  sorted (X ++ Y) -> (forall x, x ∈ X.*1 -> key_lt x k) ->
  (forall y, y ∈ Y.*1 -> key_lt k y) -> sorted (X ++ (k, vs) :: Y).
Proof.
  rewrite !sorted_app, sorted_cons. intros (Hxy & HX & HY) Hb Ha.
  split; [|done]. intros x y Hx. rewrite fmap_cons, elem_of_cons.
  intros [->|Hy]; auto.
Qed.

Lemma sorted_same_keys (L L' : list (string * list Object)) :
  L.*1 = L'.*1 -> sorted L -> sorted L'.
Proof. unfold sorted. by intros ->. Qed.

Lemma empty_tree_inv : tree_inv [] empty Leaf.
Proof.
  split.
  - split; simpl; [done|constructor| |done].
    intros a nd Hin. by apply elem_of_nil in Hin.
  - split; [done|]. split; [done|]. exists 0. constructor.
  - constructor.
  - done.
Qed.

(** [insert] up to the call of [insertFix]. *)
Lemma attach_spec objs s T obj :
  tree_inv objs s T ->
  runs (attach obj) s (fun res s' =>
    match res with
    | None => exists T', tree_inv (objs ++ [obj]) s' T'
    | Some nd =>
        let t := Tr (length (heap s)) RED Leaf (name obj) [obj] Leaf in
        exists ctx,
          nd = rootp t /\ zrep s' ctx t /\ fix_state ctx t /\
          length ctx < length (heap s') /\
          sorted (inorder (plug ctx t)) /\
          (forall k, vals k (inorder (plug ctx t)) = linearSearch (objs ++ [obj]) k)
    end).
Proof.
  intros [Hrep Hrb Hs Hv]. unfold attach.
  eapply runs_bind; [reflexivity|]. cbv beta.
  rewrite (rep_root _ _ Hrep).
  pose proof (rep_size_heap _ _ Hrep) as Hsz.
  destruct T as [|a c l k vs r]; simpl rootp; cbv iota.
  - (* the first node of the tree *)
    eapply runs_bind; [reflexivity|]. cbv beta.
    eapply runs_bind; [reflexivity|]. cbv beta.
    apply runs_ret. simpl in Hsz.
    exists (Tr (length (heap s)) BLACK Leaf (name obj) [obj] Leaf). split.
    + split; simpl.
      * done.
      * apply NoDup_singleton.
      * intros a nd [[= -> ->]|Hin%elem_of_nil]%elem_of_cons; [|done].
        by apply list_lookup_middle.
      * rewrite length_app. simpl. lia.
    + split; [done|]. split; [simpl; split; [congruence|done]|].
      exists 1. repeat constructor.
    + apply (sorted_insert_here [] _ _ []); [constructor| |];
        intros x Hx; by apply elem_of_nil in Hx.
    + intros k'. apply (vals_push objs obj [] (name obj) [] []); [|apply not_elem_of_nil|done].
      intros k''. rewrite (vals_empty_entry k'' [] (name obj) []). apply Hv.
  - eapply runs_bind; [reflexivity|]. cbv beta.
    pose proof (proj2 (zrep_top _ _) Hrep) as Hz.
    eapply runs_seq.
    { apply (descend_spec obj (Tr a c l k vs r) (length (heap s)) s [] Hz). lia. }
    pose proof (locate_plug (name obj) (Tr a c l k vs r) []) as Hp.
    pose proof (locate_bounds (name obj) (Tr a c l k vs r) [] Hs (bounds_nil _)) as Hb.
    pose proof (locate_turns (name obj) (Tr a c l k vs r) [] (Forall_nil_2 _)) as Ht.
    pose proof (locate_found (name obj) (Tr a c l k vs r) []) as Hf.
    pose proof (locate_leaf_deep (name obj) a c l k vs r []) as Hd.
    destruct (locate (name obj) [] (Tr a c l k vs r)) as [ctx t].
    simpl fst in *. simpl snd in *. simpl plug in Hp.
    rewrite <- Hp in Hrb, Hs, Hv, Hsz, Hrep. clear Hp Hz.
    destruct Hb as [Hbb Hba].
    intros res s1. destruct t as [|a' c' l' k' vs' r'].
    + (* a new node below the last node of the walk *)
      intros [-> ->]. cbv iota.
      destruct ctx as [|f rest]; [by destruct Hd|]. simpl ctx_par.
      apply zrep_plug in Hrep as Hz.
      eapply runs_weaken.
      { apply (link_leaf obj s f rest Hz). by apply Forall_cons in Ht as [? _]. }
      intros _ s' (-> & Hz' & Hlen).
      exists (f :: rest).
      split; [done|]. split; [done|].
      apply rb_plug_inv in Hrb as (n & Hb & Hctx & _ & _). inversion Hb; subst n.
      split; [|split; [|split]].
      * split; [done|done|simpl; tauto|]. exists 0. split; [by constructor|done].
      * rewrite Hlen, Hsz. pose proof (size_plug (f :: rest) Leaf). simpl in *. lia.
      * rewrite inorder_plug in Hs |- *. simpl in *. by apply sorted_insert_here.
      * intros k0. rewrite inorder_plug. simpl.
        apply (vals_push objs obj _ (name obj) [] _); [|by apply above_absent|done].
        intros k1. rewrite vals_empty_entry. specialize (Hv k1).
        by rewrite inorder_plug in Hv.
    + (* the key is there already *)
      intros [-> Hz']. cbv iota. apply runs_ret.
      pose proof (Hf _ _ _ _ _ _ eq_refl) as ->.
      exists (plug ctx (Tr a' c' l' (name obj) (vs' ++ [obj]) r')).
      destruct (sorted_node _ _ _ _ _ _ (sorted_plug _ _ Hs)) as (Hl' & Hr' & _ & _).
      split.
      * by apply zrep_plug.
      * by eapply rb_payload.
      * eapply sorted_same_keys; [|exact Hs].
        rewrite !inorder_plug. simpl. by rewrite !fmap_app, !fmap_cons.
      * intros k0. rewrite inorder_plug. simpl.
        rewrite <- app_assoc. simpl. rewrite app_assoc.
        apply (vals_push objs obj _ (name obj) vs' _); [| |done].
        -- intros k1. specialize (Hv k1). rewrite inorder_plug in Hv. simpl in Hv.
           rewrite <- app_assoc in Hv. simpl in Hv. by rewrite app_assoc in Hv.
        -- apply above_absent. intros x. rewrite fmap_app, elem_of_app.
           intros [Hx|Hx]; [by apply Hr'|by apply Hba].
Qed.

(** One [insert] keeps the invariant of the tree. *)
Lemma insert_spec objs s T obj :
  tree_inv objs s T ->
  runs (insert obj) s (fun _ s' => exists T', tree_inv (objs ++ [obj]) s' T').
Proof.
  intros Hinv. unfold insert.
  eapply runs_seq; [exact (attach_spec _ _ _ obj Hinv)|].
  intros [nd|] s1.
  - intros (ctx & -> & Hz & Hfs & Hlen & Hs & Hv).
    eapply runs_weaken; [exact (insertFix_spec _ _ _ Hz Hfs Hlen)|].
    intros _ s' (T' & Hrep & Hrb & Hin). exists T'.
    split; [done|done| |]; rewrite Hin; done.
  - intros HT. by apply runs_ret.
Qed.

Lemma insert_all_spec objs : forall done_ s T,
  tree_inv done_ s T ->
  exists s' T', insert_all objs s = Some s' /\ tree_inv (done_ ++ objs) s' T'.
Proof.
  induction objs as [|o objs IH]; intros done_ s T Hinv; simpl.
  - exists s, T. by rewrite app_nil_r.
  - destruct (insert_spec _ _ _ o Hinv) as ([] & s1 & -> & T1 & Hinv1).
    destruct (IH _ _ _ Hinv1) as (s' & T' & Hi & Hinv').
    exists s', T'. split; [done|]. by rewrite <- app_assoc in Hinv'.
Qed.

Lemma runs_result {A} (m : M A) s Q a s' :
  runs m s Q -> m s = Some (a, s') -> Q a s'.
Proof. intros (a0 & s0 & E & HQ). rewrite E. by intros [= <- <-]. Qed.

Lemma reachable_inv s : reachable s -> exists objs T, tree_inv objs s T.
Proof.
  induction 1 as [|s obj s' Hr (objs & T & Hinv) Hi].
  - exists [], Leaf. apply empty_tree_inv.
  - destruct (runs_result _ _ _ _ _ (insert_spec _ _ _ obj Hinv) Hi) as (T' & HT').
    eauto.
Qed.

Lemma insert_all_reachable objs : forall s s',
  reachable s -> insert_all objs s = Some s' -> reachable s'.
Proof.
  induction objs as [|o objs IH]; intros s s' Hr; simpl.
  - by intros [= <-].
  - destruct (insert o s) as [[[] s1]|] eqn:E; [|done].
    apply IH. by eapply reach_insert.
Qed.

(** At the head of the loop the current node is RED, and nothing else
    violates the red-black invariants. *)
Lemma loop_head_inv s n :
  at_loop_head s n ->
  exists ctx t, n = rootp t /\ zrep s ctx t /\ fix_state ctx t.
Proof.
  induction 1 as [s obj nd s1 Hr Ha|s n n' s' Hh (ctx & t & -> & Hz & Hfs) Hc Hb].
  - destruct (reachable_inv _ Hr) as (objs & T & Hinv).
    destruct (runs_result _ _ _ _ _ (attach_spec _ _ _ obj Hinv) Ha)
      as (ctx & -> & Hz & Hfs & _).
    eauto.
  - destruct t as [|a c l k vs r]; [by destruct Hfs|]. simpl rootp in Hc, Hb.
    rewrite (fix_cond_spec _ _ _ _ _ _ _ _ Hz), head_color_cond in Hc.
    injection Hc as Hc. apply is_red_true in Hc.
    destruct (runs_result _ _ _ _ _ (fix_body_spec _ _ _ Hz Hfs Hc) Hb)
      as (ctx' & t' & Hz' & -> & Hfs' & _).
    eauto.
Qed.

(** Whenever the body of the loop runs, parent and grandparent of the
    current node are allocated nodes, the children of the grandparent
    (among them the uncle) are null or allocated, and the pass ends
    without fault. *)
Lemma loop_body_safe s n :
  at_loop_head s n -> fix_cond n s = Some (true, s) ->
  exists p pn g gn,
    field parent n s = Some (Some p, s) /\
    heap s !! p = Some pn /\ color pn = RED /\
    parent pn = Some g /\ heap s !! g = Some gn /\ root s <> Some p /\
    (left gn = Some p \/ right gn = Some p) /\
    (forall u, left gn = Some u \/ right gn = Some u -> is_Some (heap s !! u)) /\
    exists n' s', fix_body n s = Some (n', s').
Proof.
  intros (ctx & t & -> & Hz & Hfs)%loop_head_inv Hc.
  destruct t as [|a c l k vs r]; [by destruct Hfs|]. simpl rootp in Hc |- *.
  rewrite (fix_cond_spec _ _ _ _ _ _ _ _ Hz), head_color_cond in Hc.
  injection Hc as Hc. apply is_red_true in Hc.
  destruct (fix_body_spec _ _ _ Hz Hfs Hc) as (n' & s' & Hb & _).
  pose proof Hfs as [_ _ _ (bh & _ & Hctx)].
  destruct ctx as [|f1 [|f2 rest]]; [done| |].
  { destruct Hctx as (_ & _ & Hf1 & _). by destruct (Hf1 Hc) as (_ & _ & ?). }
  simpl in Hc.
  pose proof (zrep_parent _ _ _ _ Hz) as Hp.
  pose proof (proj1 (zrep_up _ _ _ _) Hz) as Hz1.
  pose proof (zrep_parent _ _ _ _ Hz1) as Hg.
  pose proof (z_cells _ _ _ Hz1) as Hcells. unfold zcells in Hcells.
  pose proof (z_nodup _ _ _ Hz1) as Hnd. unfold zaddrs in Hnd.
  destruct (ctx_root_in rest f2 (rootp (fill f1 (Tr a c l k vs r)))) as (ra & Hra & Hrin).
  pose proof (z_root _ _ _ Hz1) as Hroot. rewrite Hra in Hroot.
  exists (faddr f1), (frame_node (Some a) f1 (Some (faddr f2))), (faddr f2),
    (frame_node (Some (faddr f1)) f2 (ctx_par rest)).
  split; [exact (field_spec _ _ _ _ _ _ _ _ _ Hz)|].
  split; [exact Hp|].
  split; [by rewrite color_frame_node|].
  split; [by destruct f1|].
  split; [by rewrite rootp_fill in Hg|].
  split.
  { rewrite Hroot. intros [= ->].
    apply NoDup_app in Hnd as (_ & Hd & _).
    apply (Hd (faddr f1)); [|exact Hrin].
    destruct f1; apply list_elem_of_here. }
  split; [destruct f2; simpl; auto|].
  split; [|eauto].
  intros u Hu.
  assert (exists nd, (u, nd) ∈
            cells (ctx_par (f2 :: rest)) (fill f1 (Tr a c l k vs r)) ++
            ctx_cells (rootp (fill f1 (Tr a c l k vs r))) (f2 :: rest)) as [nd Hin].
  { rewrite rootp_fill. destruct f2 as [g cg kg vsg U|g cg U kg vsg]; simpl in Hu;
      destruct Hu as [Hu|Hu].
    - injection Hu as <-. destruct f1; eexists; simpl; apply list_elem_of_here.
    - destruct U as [|ua uc ul uk uvs ur]; [done|]. injection Hu as <-.
      eexists. apply elem_of_app. right. simpl. apply list_elem_of_further.
      apply list_elem_of_here.
    - destruct U as [|ua uc ul uk uvs ur]; [done|]. injection Hu as <-.
      eexists. apply elem_of_app. right. simpl. apply list_elem_of_further.
      apply list_elem_of_here.
    - injection Hu as <-. destruct f1; eexists; simpl; apply list_elem_of_here. }
  rewrite (Hcells _ _ Hin). eauto.
Qed.

(** *** The invariants, read off the store *)

Lemma rep_addr_lt s T a : represents s T -> a ∈ addrs T -> a < length (heap s).
Proof.
  intros H. rewrite <- (cells_addrs None).
  intros ([a' nd] & -> & Hin)%list_elem_of_fmap.
  eapply lookup_lt_Some. by apply (rep_cells _ _ H).
Qed.

(** Every allocated slot is a node of the tree. *)
Lemma rep_exact s T a nd :
  represents s T -> heap s !! a = Some nd -> (a, nd) ∈ cells None T.
Proof.
  intros H Ha.
  assert (addrs T ≡ₚ seq 0 (length (heap s))) as Hp.
  { apply submseteq_length_Permutation.
    - apply NoDup_submseteq; [apply (rep_nodup _ _ H)|].
      intros x Hx. apply elem_of_seq. pose proof (rep_addr_lt _ _ _ H Hx). lia.
    - rewrite length_seq, (rep_size _ _ H). done. }
  assert (a ∈ addrs T) as Hin.
  { rewrite Hp. apply elem_of_seq. apply lookup_lt_Some in Ha. lia. }
  rewrite <- (cells_addrs None) in Hin.
  apply list_elem_of_fmap in Hin as ([a' nd'] & -> & Hin).
  pose proof (rep_cells _ _ H _ _ Hin) as Ha'. simpl in Ha.
  rewrite Ha in Ha'. by injection Ha' as ->.
Qed.

Lemma cells_root par T :
  match T with
  | Leaf => True
  | Tr a c l k vs r => (a, mkNode k vs c (rootp l) (rootp r) par) ∈ cells par T
  end.
Proof. destruct T; [done|]. apply list_elem_of_here. Qed.

Lemma cells_red_child T : forall par a nd c,
  no_red_red T -> (a, nd) ∈ cells par T -> color nd = RED ->
  left nd = Some c \/ right nd = Some c ->
  exists cn, (c, cn) ∈ cells par T /\ color cn = BLACK.
Proof.
  induction T as [|a0 c0 l IHl k vs r IHr]; intros par a nd c Hn Hin Hred Hc.
  - by apply elem_of_nil in Hin.
  - destruct Hn as (Hcol & Hl & Hr). simpl in Hin.
    apply elem_of_cons in Hin as [[= -> ->]|[Hin|Hin]%elem_of_app].
    + simpl in Hred, Hc. destruct (Hcol Hred) as [Cl Cr].
      destruct Hc as [Hc|Hc].
      * destruct l as [|la lc ll lk lvs lr]; [done|]. injection Hc as ->.
        simpl in Cl. subst lc. eexists.
        split; [simpl; cell_search|reflexivity].
      * destruct r as [|ra rc rl rk rvs rr]; [done|]. injection Hc as ->.
        simpl in Cr. subst rc. eexists.
        split; [simpl; cell_search|reflexivity].
    + destruct (IHl _ _ _ _ Hl Hin Hred Hc) as (cn & Hcn & Hb).
      exists cn. split; [|done]. simpl.
      apply list_elem_of_further. apply elem_of_app. by left.
    + destruct (IHr _ _ _ _ Hr Hin Hred Hc) as (cn & Hcn & Hb).
      exists cn. split; [|done]. simpl.
      apply list_elem_of_further. apply elem_of_app. by right.
Qed.

(** In the store: the root node is BLACK. *)
Lemma heap_root_black s T :
  represents s T -> color_of T = BLACK ->
  forall a, root s = Some a -> exists nd, heap s !! a = Some nd /\ color nd = BLACK.
Proof.
  intros H Hc a Hr. rewrite (rep_root _ _ H) in Hr.
  destruct T as [|a0 c l k vs r]; [done|]. injection Hr as ->.
  eexists. split; [apply (rep_cells _ _ H); apply list_elem_of_here|].
  done.
Qed.

(** In the store: a child pointer of a RED node leads to a BLACK node. *)
Lemma heap_no_red_red s T :
  represents s T -> no_red_red T ->
  forall a nd c,
    heap s !! a = Some nd -> color nd = RED ->
    left nd = Some c \/ right nd = Some c ->
    exists cn, heap s !! c = Some cn /\ color cn = BLACK.
Proof.
  intros H Hn a nd c Ha Hred Hc.
  pose proof (rep_exact _ _ _ _ H Ha) as Hin.
  destruct (cells_red_child _ _ _ _ _ Hn Hin Hred Hc) as (cn & Hcn & Hb).
  exists cn. split; [|done]. by apply (rep_cells _ _ H).
Qed.

(** In the store: no two nodes carry the same key. *)
Lemma cells_keys par T : (key <$> (cells par T).*2) ≡ₚ keys T.
Proof.
  revert par. induction T as [|a c l IHl k vs r IHr]; intros par; simpl; [done|].
  unfold keys. simpl. rewrite !fmap_app, !fmap_cons. simpl.
  rewrite (IHl (Some a)), (IHr (Some a)). unfold keys.
  by rewrite <- Permutation_middle.
Qed.

Lemma cells_same_key par T a nd b nd' :
  NoDup (keys T) -> NoDup (addrs T) ->
  (a, nd) ∈ cells par T -> (b, nd') ∈ cells par T ->
  key nd = key nd' -> a = b.
Proof.
  intros Hk Ha Hin Hin'.
  rewrite <- (cells_keys par) in Hk. rewrite <- (cells_addrs par) in Ha.
  apply list_elem_of_lookup in Hin as [i Hi].
  apply list_elem_of_lookup in Hin' as [j Hj].
  intros E.
  assert (i = j) as ->.
  { eapply NoDup_lookup; [exact Hk| |].
    - rewrite !list_lookup_fmap, Hi. simpl. reflexivity.
    - rewrite !list_lookup_fmap, Hj. simpl. by rewrite E. }
  rewrite Hi in Hj. by injection Hj.
Qed.

Lemma heap_unique_keys s T :
  represents s T -> NoDup (keys T) ->
  forall a b na nb,
    heap s !! a = Some na -> heap s !! b = Some nb -> key na = key nb -> a = b.
Proof.
  intros H Hk a b na nb Ha Hb E.
  eapply (cells_same_key None T); eauto using rep_exact, rep_nodup.
Qed.

(** *** The records of a node *)

Lemma vals_entry k vs L : NoDup L.*1 -> (k, vs) ∈ L -> vals k L = vs.
Proof.
  induction L as [|[k' vs'] L IH]; simpl; [by intros _ ?%elem_of_nil|].
  intros [Hk Hn]%NoDup_cons [E|Hin]%elem_of_cons.
  - injection E as <- <-.
    rewrite vals_cons_eq, (vals_absent k L Hk). apply app_nil_r.
  - rewrite vals_cons_ne; [auto|]. intros ->. apply Hk.
    apply list_elem_of_fmap. by exists (k, vs).
Qed.

Lemma cells_inorder T : forall par a nd,
  (a, nd) ∈ cells par T -> (key nd, values nd) ∈ inorder T.
Proof.
  induction T as [|a0 c l IHl k vs r IHr]; intros par a nd; simpl.
  - by intros ?%elem_of_nil.
  - intros [[= -> ->]|[Hin|Hin]%elem_of_app]%elem_of_cons; apply elem_of_app.
    + right. apply list_elem_of_here.
    + left. eauto.
    + right. apply list_elem_of_further. eauto.
Qed.

(** In the store: a node holds all the records of its key, in insertion
    order. *)
Lemma heap_values objs s T a nd :
  tree_inv objs s T -> heap s !! a = Some nd ->
  values nd = linearSearch objs (key nd).
Proof.
  intros [Hrep _ Hs Hv] Ha. rewrite <- Hv. symmetry.
  apply vals_entry; [by apply sorted_NoDup|].
  eapply cells_inorder. by eapply rep_exact.
Qed.

End RedBlackProofs.

(** ** The specification, claim by claim *)

Section Claims.
Import RedBlackTree RBShape RedBlackProofs.
Import HashSpec HashProofs.

(** C1. Balanced Tree: after every insert the red-black invariants hold --
    the root is BLACK, no RED node has a RED child, and from every node
    all paths to a descendant nil leaf pass through the same number of
    BLACK nodes; a new node is linked RED and [insertFix] restores the
    invariants at once (the first node of a tree, which has no parent to
    be linked to, is created BLACK: the state that creating it RED and
    running [insertFix] produces).  The invariants are stated on the tree
    the store represents and, for the first two, on the nodes of the
    store. *)
Theorem rbt_red_black_after_inserts (objs : list Object) :
  exists s T,
    RedBlackTree.insert_all objs RedBlackTree.empty = Some s /\
    represents s T /\
    color_of T = BLACK /\ no_red_red T /\ uniform_black_height T /\
    (forall a, root s = Some a ->
       exists nd, heap s !! a = Some nd /\ color nd = BLACK) /\
    (forall a nd c,
       heap s !! a = Some nd -> color nd = RED ->
       left nd = Some c \/ right nd = Some c ->
       exists cn, heap s !! c = Some cn /\ color cn = BLACK) /\
    (forall obj nd s1,
       attach obj s = Some (Some nd, s1) ->
       exists a node s2 T2,
         nd = Some a /\ heap s !! a = None /\
         heap s1 !! a = Some node /\ color node = RED /\ values node = [obj] /\
         insertFix nd s1 = Some (tt, s2) /\
         represents s2 T2 /\ red_black T2) /\
    (forall obj,
       RedBlackTree.insert obj RedBlackTree.empty =
       (nd <- new_node (name obj) obj RED None ;; set_root nd ;; insertFix nd)
         RedBlackTree.empty).
Proof.
  destruct (insert_all_spec objs [] empty Leaf empty_tree_inv) as (s & T & Hi & Hinv).
  exists s, T. pose proof Hinv as [Hrep (Hc & Hn & bh & Hb) _ _].
  split; [done|]. split; [done|]. split; [done|]. split; [done|].
  split; [by eapply bh_uniform|].
  split; [by eapply heap_root_black|].
  split; [by eapply heap_no_red_red|].
  split; [|reflexivity].
  intros obj nd s1 Ha.
  destruct (runs_result _ _ _ _ _ (attach_spec _ _ _ obj Hinv) Ha)
    as (ctx & -> & Hz & Hfs & Hlen & _).
  destruct (insertFix_spec _ _ _ Hz Hfs Hlen) as ([] & s2 & Hf & T2 & Hrep2 & Hrb2 & _).
  exists (length (heap s)), (mkNode (name obj) [obj] RED None None (ctx_par ctx)), s2, T2.
  split; [done|]. split; [by apply lookup_ge_None|].
  split; [exact (zrep_lookup _ _ _ _ _ _ _ _ Hz)|]. done.
Qed.

(** C2. Both trees: after any sequence of inserts every node has smaller
    keys in its left subtree and greater keys in its right subtree; the
    rotations of the Balanced Tree leave the symmetric order of the
    nodes as it was. *)
Theorem bst_order_after_inserts (objs : list Object) :
  BinarySearchTree.ordered
    (BinarySearchTree.insert_all objs BinarySearchTree.empty) /\
  (exists s T,
     RedBlackTree.insert_all objs RedBlackTree.empty = Some s /\
     represents s T /\ ordered T) /\
  (forall s ctx x c A kx vx y cy B ky vy D,
     represents s (plug ctx (Tr x c A kx vx (Tr y cy B ky vy D))) ->
     exists s',
       rotateLeft (Some x) s = Some (tt, s') /\
       represents s' (plug ctx (Tr y cy (Tr x c A kx vx B) ky vy D)) /\
       inorder (plug ctx (Tr y cy (Tr x c A kx vx B) ky vy D)) =
       inorder (plug ctx (Tr x c A kx vx (Tr y cy B ky vy D)))) /\
  (forall s ctx x c A kx vx y cy B ky vy D,
     represents s (plug ctx (Tr x c (Tr y cy A ky vy B) kx vx D)) ->
     exists s',
       rotateRight (Some x) s = Some (tt, s') /\
       represents s' (plug ctx (Tr y cy A ky vy (Tr x c B kx vx D))) /\
       inorder (plug ctx (Tr y cy A ky vy (Tr x c B kx vx D))) =
       inorder (plug ctx (Tr x c (Tr y cy A ky vy B) kx vx D))).
Proof.
  split; [exact (BSTProofs.ordered_insert_all objs BinarySearchTree.empty I)|].
  split.
  { destruct (insert_all_spec objs [] empty Leaf empty_tree_inv)
      as (s & T & Hi & [Hrep _ Hs _]).
    exists s, T. split; [done|]. split; [done|]. by apply sorted_ordered. }
  split.
  - intros s ctx x c A kx vx y cy B ky vy D H%zrep_plug.
    destruct (rotateLeft_spec _ _ _ _ _ _ _ _ _ _ _ _ _ H) as (s' & E & H').
    exists s'. split; [done|]. split; [by apply zrep_plug|].
    rewrite !inorder_plug. simpl. by repeat (rewrite <- app_assoc; simpl).
  - intros s ctx x c A kx vx y cy B ky vy D H%zrep_plug.
    destruct (rotateRight_spec _ _ _ _ _ _ _ _ _ _ _ _ _ H) as (s' & E & H').
    exists s'. split; [done|]. split; [by apply zrep_plug|].
    rewrite !inorder_plug. simpl. by repeat (rewrite <- app_assoc; simpl).
Qed.

(** C3. Every structure: after inserting [objs], [search key] returns the
    records named [key] in insertion order and no others -- all of
    [objs] when they share the key; in the trees no two nodes carry the
    same key, and a node holds every record of its key (a record with a
    known key is appended, never given a node of its own). *)
Theorem multi_value_search (objs : list Object) (key : string) (n : Z) :
  (1 <= n)%Z ->
  (Forall (fun o => name o = key) objs -> linearSearch objs key = objs) /\
  (let t := BinarySearchTree.insert_all objs BinarySearchTree.empty in
   BinarySearchTree.search t key = linearSearch objs key /\
   NoDup (BinarySearchTree.keys t) /\
   (forall k vs, (k, vs) ∈ BinarySearchTree.entries t -> vs = linearSearch objs k)) /\
  (exists s,
     RedBlackTree.insert_all objs RedBlackTree.empty = Some s /\
     RedBlackTree.search key s = Some (linearSearch objs key, s) /\
     (forall a b na nb,
        heap s !! a = Some na -> heap s !! b = Some nb ->
        RedBlackTree.key na = RedBlackTree.key nb -> a = b) /\
     (forall a nd,
        heap s !! a = Some nd ->
        values nd = linearSearch objs (RedBlackTree.key nd))) /\
  (exists ht0 ht,
     HashTable.create n = Some ht0 /\
     HashTable.insert_all objs ht0 = Some ht /\
     HashTable.search key ht = Some (linearSearch objs key)).
Proof.
  intros Hn. split; [apply linearSearch_all_same|]. split; [|split].
  - split; [by rewrite BSTProofs.search_insert_all|]. split.
    + apply BSTProofs.ordered_keys_NoDup.
      exact (BSTProofs.ordered_insert_all objs BinarySearchTree.empty I).
    + apply BSTProofs.entries_insert_all.
  - destruct (insert_all_spec objs [] empty Leaf empty_tree_inv) as (s & T & Hi & Hinv).
    exists s. split; [done|]. split; [by eapply search_spec|]. split.
    + eapply heap_unique_keys; [apply Hinv|]. apply sorted_NoDup, Hinv.
    + intros a nd. by eapply heap_values.
  - destruct (chained_create n ltac:(lia)) as (ht0 & Hc & Hch).
    destruct (chained_insert_all n objs [] ht0 Hch) as (ht & Hi & Hch').
    exists ht0, ht. split; [done|]. split; [done|]. by eapply chained_search.
Qed.

Lemma multi_value_search_witness :
  (1 <= 2)%Z /\
  (Forall (fun o => name o = "a"%string) Samples.aaa ->
   linearSearch Samples.aaa "a" = Samples.aaa) /\
  (let t := BinarySearchTree.insert_all Samples.aaa BinarySearchTree.empty in
   BinarySearchTree.search t "a" = linearSearch Samples.aaa "a" /\
   NoDup (BinarySearchTree.keys t) /\
   (forall k vs, (k, vs) ∈ BinarySearchTree.entries t ->
                 vs = linearSearch Samples.aaa k)) /\
  (exists s,
     RedBlackTree.insert_all Samples.aaa RedBlackTree.empty = Some s /\
     RedBlackTree.search "a" s = Some (linearSearch Samples.aaa "a", s) /\
     (forall a b na nb,
        heap s !! a = Some na -> heap s !! b = Some nb ->
        RedBlackTree.key na = RedBlackTree.key nb -> a = b) /\
     (forall a nd,
        heap s !! a = Some nd ->
        values nd = linearSearch Samples.aaa (RedBlackTree.key nd))) /\
  (exists ht0 ht,
     HashTable.create 2 = Some ht0 /\
     HashTable.insert_all Samples.aaa ht0 = Some ht /\
     HashTable.search "a" ht = Some (linearSearch Samples.aaa "a")).
Proof. split; [lia|]. apply (multi_value_search Samples.aaa "a" 2). lia. Defined.

(** C4. For every record set and key, [search] on the Ordered Tree, the
    Balanced Tree and the Hash Index built from the records returns what
    Linear Scan returns on them: the same records (by id, as multisets;
    here even in the same order). *)
Theorem cross_structure_equivalence (objs : list Object) (key : string) (n : Z) :
  (1 <= n)%Z ->
  exists s ht0 ht r_bst r_rbt r_hash,
    RedBlackTree.insert_all objs RedBlackTree.empty = Some s /\
    HashTable.create n = Some ht0 /\
    HashTable.insert_all objs ht0 = Some ht /\
    BinarySearchTree.search
      (BinarySearchTree.insert_all objs BinarySearchTree.empty) key = r_bst /\
    RedBlackTree.search key s = Some (r_rbt, s) /\
    HashTable.search key ht = Some r_hash /\
    id <$> r_bst ≡ₚ id <$> linearSearch objs key /\
    id <$> r_rbt ≡ₚ id <$> linearSearch objs key /\
    id <$> r_hash ≡ₚ id <$> linearSearch objs key /\
    r_bst = linearSearch objs key /\
    r_rbt = linearSearch objs key /\
    r_hash = linearSearch objs key.
Proof.
  intros Hn.
  destruct (insert_all_spec objs [] empty Leaf empty_tree_inv) as (s & T & Hi & Hinv).
  destruct (chained_create n ltac:(lia)) as (ht0 & Hc & Hch).
  destruct (chained_insert_all n objs [] ht0 Hch) as (ht & Hi' & Hch').
  exists s, ht0, ht, (linearSearch objs key), (linearSearch objs key),
    (linearSearch objs key).
  split; [done|]. split; [done|]. split; [done|].
  split; [by rewrite BSTProofs.search_insert_all|].
  split; [by eapply search_spec|].
  split; [by eapply chained_search|]. done.
Qed.

Lemma cross_structure_equivalence_witness :
  (1 <= 3)%Z /\
  exists s ht0 ht r_bst r_rbt r_hash,
    RedBlackTree.insert_all Samples.abc RedBlackTree.empty = Some s /\
    HashTable.create 3 = Some ht0 /\
    HashTable.insert_all Samples.abc ht0 = Some ht /\
    BinarySearchTree.search
      (BinarySearchTree.insert_all Samples.abc BinarySearchTree.empty) "a" = r_bst /\
    RedBlackTree.search "a" s = Some (r_rbt, s) /\
    HashTable.search "a" ht = Some r_hash /\
    id <$> r_bst ≡ₚ id <$> linearSearch Samples.abc "a" /\
    id <$> r_rbt ≡ₚ id <$> linearSearch Samples.abc "a" /\
    id <$> r_hash ≡ₚ id <$> linearSearch Samples.abc "a" /\
    r_bst = linearSearch Samples.abc "a" /\
    r_rbt = linearSearch Samples.abc "a" /\
    r_hash = linearSearch Samples.abc "a".
Proof. split; [lia|]. apply (cross_structure_equivalence Samples.abc "a" 3). lia. Defined.

(** C5, as the code has it.  The constructor has no check: a Hash Index
    of 0 buckets is built, with an empty bucket array, and it is the
    first [insert] or [search] that is undefined (remainder by zero, or
    for the empty key a bucket outside the array); for every bucket
    count of at least 1 construction succeeds and the table is usable. *)
Theorem zero_buckets_fail_at_first_use :
  HashTable.create 0 = Some (HashTable.mkTable 0 [] 0) /\
  (forall obj, HashTable.insert obj (HashTable.mkTable 0 [] 0) = None) /\
  (forall key, HashTable.search key (HashTable.mkTable 0 [] 0) = None) /\
  (forall n, (1 <= n)%Z ->
     exists ht, HashTable.create n = Some ht /\ valid ht /\
                HashTable.size ht = n /\
                length (HashTable.buckets ht) = Z.to_nat n).
Proof.
  split; [reflexivity|]. split; [|split].
  - intros obj. unfold HashTable.insert, HashTable.hashFunction. simpl.
    by destruct (name obj).
  - intros key. unfold HashTable.search, HashTable.hashFunction. simpl.
    by destruct key.
  - intros n Hn. destruct (create_ok n ltac:(lia)) as (ht & Hc & Hv & Hs & Hb & _).
    exists ht. split; [done|]. split; [done|]. split; [done|].
    by rewrite Hb, length_replicate.
Qed.

(** C5, as the specification states it, fails: construction with bucket
    count 0 returns a table. *)
Lemma zero_buckets_accepted :
  HashTable.create 0 = Some (HashTable.mkTable 0 [] 0).
Proof. reflexivity. Qed.

(** C6. The collision counter goes up by one exactly when the target
    bucket is not empty, whatever the keys in it, and the record is
    appended in both cases; so records that all go to one bucket of a
    fresh table leave [getCollisionCount] at their number minus one. *)
Theorem collision_counting (n : Z) (objs : list Object) (obj : Object) :
  (1 <= n)%Z -> (Z.of_nat (length objs) < 2 ^ 64 - 1)%Z ->
  exists ht0 ht,
    HashTable.create n = Some ht0 /\
    HashTable.insert_all objs ht0 = Some ht /\
    (exists idx b ht',
       HashTable.hashFunction ht (name obj) = Some idx /\
       HashTable.bucket_at ht idx = Some b /\
       HashTable.insert obj ht = Some ht' /\
       HashTable.bucket_at ht' idx = Some (b ++ [obj]) /\
       (HashTable.getCollisionCount ht' = (HashTable.getCollisionCount ht + 1)%Z
        <-> b <> []) /\
       (b = [] -> HashTable.getCollisionCount ht' = HashTable.getCollisionCount ht)) /\
    (forall i, objs <> [] ->
       Forall (fun o => slot n (name o) = i) objs ->
       HashTable.getCollisionCount ht = (Z.of_nat (length objs) - 1)%Z).
Proof.
  intros Hn Hlen.
  destruct (chained_create n ltac:(lia)) as (ht0 & Hc & Hch).
  destruct (chained_insert_all n objs [] ht0 Hch) as (ht & Hi & Hv & Hs & Hcc & Hb).
  exists ht0, ht. split; [done|]. split; [done|]. split.
  - destruct (bucket_at_slot ht (name obj) Hv) as [b Hlk].
    destruct (insert_ok obj ht b Hv Hlk) as (ht' & Hins & Hv' & Hs' & Hb' & Hc').
    pose proof (spec_hash_range HashTable.ULONG_BITS (HashTable.size ht) (name obj)
                  (v_size _ Hv)) as Hr.
    exists (HashTable.spec_hash HashTable.ULONG_BITS (HashTable.size ht) (name obj)),
      b, ht'.
    split; [by apply hashFunction_spec; apply Hv|]. split; [exact Hlk|].
    split; [done|]. split.
    { unfold HashTable.bucket_at. rewrite Hb'. apply list_lookup_insert_eq.
      by eapply lookup_lt_Some. }
    pose proof (v_count _ Hv) as Hcnt. unfold HashTable.getCollisionCount.
    rewrite Hc'. simpl in Hcc. unfold HashTable.SIZE_BITS in *.
    destruct b as [|o b]; simpl.
    + split; [|done]. split; [lia|done].
    + rewrite wrap_small by lia. split; [done|]. by intros [=].
  - intros i Hne Hall.
    destruct (one_slot_count n objs i ltac:(lia) Hne ltac:(unfold HashTable.SIZE_BITS; lia) Hall)
      as (ht0' & ht' & Hc0 & Hi0 & Hcount).
    rewrite Hc in Hc0. injection Hc0 as <-. rewrite Hi in Hi0. by injection Hi0 as <-.
Qed.

Lemma collision_counting_witness :
  (1 <= 5)%Z /\ (Z.of_nat (length Samples.aaa) < 2 ^ 64 - 1)%Z /\
  exists ht0 ht,
    HashTable.create 5 = Some ht0 /\
    HashTable.insert_all Samples.aaa ht0 = Some ht /\
    (exists idx b ht',
       HashTable.hashFunction ht (name (Samples.rec_ 4 "a")) = Some idx /\
       HashTable.bucket_at ht idx = Some b /\
       HashTable.insert (Samples.rec_ 4 "a") ht = Some ht' /\
       HashTable.bucket_at ht' idx = Some (b ++ [Samples.rec_ 4 "a"]) /\
       (HashTable.getCollisionCount ht' = (HashTable.getCollisionCount ht + 1)%Z
        <-> b <> []) /\
       (b = [] -> HashTable.getCollisionCount ht' = HashTable.getCollisionCount ht)) /\
    (forall i, Samples.aaa <> [] ->
       Forall (fun o => slot 5 (name o) = i) Samples.aaa ->
       HashTable.getCollisionCount ht = (Z.of_nat (length Samples.aaa) - 1)%Z).
Proof.
  split; [lia|]. split; [simpl; lia|].
  apply (collision_counting 5 Samples.aaa (Samples.rec_ 4 "a")); simpl; lia.
Defined.

(** C7. For every key and every bucket count of at least 1 the hash
    function is the reference one: from 0, over the bytes of the key in
    order, [h = (h * 131 + b) mod bucket_count] in an unsigned
    accumulator that wraps at its width (64 bits for [hashFunction];
    the loop agrees with the reference at every width [w]).  On a table
    that has as many buckets as its size says -- every table built by
    the constructor and inserts is one -- [insert] returns and appends
    to the bucket of that index, [search] returns and scans the bucket
    of that index, and a search for the name of the record just
    inserted scans the bucket that the insert wrote: both send a key to
    the same bucket.  Wrapping only shows for bucket counts near
    [2 ^ w / 131]: below, the hash is the polynomial over the
    integers. *)
Theorem hash_function_reference (ht : HashTable.table) (key : string) :
  (1 <= HashTable.size ht)%Z ->
  HashTable.hashFunction ht key =
    Some (HashTable.spec_hash HashTable.ULONG_BITS (HashTable.size ht) key) /\
  (valid ht ->
   forall obj,
     exists b ht',
       HashTable.buckets ht !! slot (HashTable.size ht) (name obj) = Some b /\
       HashTable.insert obj ht = Some ht' /\ valid ht' /\
       HashTable.size ht' = HashTable.size ht /\
       HashTable.buckets ht' =
         <[slot (HashTable.size ht) (name obj) := b ++ [obj]]> (HashTable.buckets ht) /\
       HashTable.search (name obj) ht' =
         Some (filter (fun o => name o = name obj) (b ++ [obj]))) /\
  (valid ht ->
   exists b,
     HashTable.buckets ht !! slot (HashTable.size ht) key = Some b /\
     HashTable.search key ht = Some (filter (fun o => name o = key) b)) /\
  (forall objs,
     exists t0 t,
       HashTable.create (HashTable.size ht) = Some t0 /\
       HashTable.insert_all objs t0 = Some t /\
       valid t /\ HashTable.size t = HashTable.size ht /\
       (forall obj,
          exists b t',
            HashTable.buckets t !! slot (HashTable.size t) (name obj) = Some b /\
            HashTable.insert obj t = Some t' /\ valid t' /\
            HashTable.size t' = HashTable.size t /\
            HashTable.buckets t' =
              <[slot (HashTable.size t) (name obj) := b ++ [obj]]>
                (HashTable.buckets t) /\
            HashTable.search (name obj) t' =
              Some (filter (fun o => name o = name obj) (b ++ [obj]))) /\
       (exists b,
          HashTable.buckets t !! slot (HashTable.size t) key = Some b /\
          HashTable.search key t = Some (filter (fun o => name o = key) b))) /\
  (forall w, (0 <= w)%Z ->
     HashTable.hash_loop w (HashTable.size ht) key 0 =
       Some (HashTable.spec_hash w (HashTable.size ht) key) /\
     (((HashTable.size ht - 1) * 131 + 255 < 2 ^ w)%Z ->
      HashTable.spec_hash w (HashTable.size ht) key =
      HashTable.ideal_hash (HashTable.size ht) key)).
Proof.
  intros Hn. assert (0 < HashTable.size ht)%Z as Hs by lia.
  split; [by apply hashFunction_spec|].
  split; [intros Hv obj; by apply insert_total|].
  split; [intros Hv; by apply search_total|].
  split.
  - intros objs.
    destruct (chained_create (HashTable.size ht) Hs) as (t0 & Hc & Hch).
    destruct (chained_insert_all (HashTable.size ht) objs [] t0 Hch)
      as (t & Hi & Hv & Hsz & _).
    exists t0, t. split; [done|]. split; [done|]. split; [done|].
    split; [done|]. split; [intros obj; by apply insert_total|].
    by apply search_total.
  - intros w Hw. split; [by apply hash_loop_spec|].
    intros Hb. by apply spec_hash_ideal.
Qed.

Lemma hash_function_reference_witness :
  (1 <= HashTable.size (HashTable.mkTable 2 [[]; [Samples.rec_ 1 "a"]] 0))%Z /\
  valid (HashTable.mkTable 2 [[]; [Samples.rec_ 1 "a"]] 0) /\
  HashTable.hashFunction (HashTable.mkTable 2 [[]; [Samples.rec_ 1 "a"]] 0) "a" =
    Some (HashTable.spec_hash HashTable.ULONG_BITS 2 "a") /\
  (forall obj,
     exists b ht',
       HashTable.buckets (HashTable.mkTable 2 [[]; [Samples.rec_ 1 "a"]] 0)
         !! slot 2 (name obj) = Some b /\
       HashTable.insert obj (HashTable.mkTable 2 [[]; [Samples.rec_ 1 "a"]] 0) =
         Some ht' /\
       valid ht' /\ HashTable.size ht' = 2%Z /\
       HashTable.buckets ht' =
         <[slot 2 (name obj) := b ++ [obj]]> [[]; [Samples.rec_ 1 "a"]] /\
       HashTable.search (name obj) ht' =
         Some (filter (fun o => name o = name obj) (b ++ [obj]))) /\
  (exists b,
     HashTable.buckets (HashTable.mkTable 2 [[]; [Samples.rec_ 1 "a"]] 0)
       !! slot 2 "a" = Some b /\
     HashTable.search "a" (HashTable.mkTable 2 [[]; [Samples.rec_ 1 "a"]] 0) =
       Some (filter (fun o => name o = "a"%string) b)).
Proof.
  assert (1 <= HashTable.size (HashTable.mkTable 2 [[]; [Samples.rec_ 1 "a"]] 0))%Z
    as Hn by (simpl; lia).
  assert (valid (HashTable.mkTable 2 [[]; [Samples.rec_ 1 "a"]] 0)) as Hv.
  { split; simpl; [lia|reflexivity|]. unfold HashTable.SIZE_BITS. lia. }
  destruct (hash_function_reference
              (HashTable.mkTable 2 [[]; [Samples.rec_ 1 "a"]] 0) "a" Hn)
    as (Hh & Hins & Hsrch & _).
  split; [exact Hn|]. split; [exact Hv|]. split; [exact Hh|].
  split; [exact (Hins Hv)|exact (Hsrch Hv)].
Defined.

(** C8. A search for a key that no stored record has returns the empty
    sequence, in every structure, and is no error; so does a search in an
    empty tree; and an insert never fails. *)
Theorem not_found_is_empty (objs : list Object) (key : string) (n : Z) :
  (1 <= n)%Z -> Forall (fun o => name o <> key) objs ->
  BinarySearchTree.search
    (BinarySearchTree.insert_all objs BinarySearchTree.empty) key = [] /\
  BinarySearchTree.search BinarySearchTree.empty key = [] /\
  RedBlackTree.search key RedBlackTree.empty = Some ([], RedBlackTree.empty) /\
  (exists s,
     RedBlackTree.insert_all objs RedBlackTree.empty = Some s /\
     RedBlackTree.search key s = Some ([], s) /\
     forall obj, exists s', RedBlackTree.insert obj s = Some (tt, s')) /\
  (exists ht0 ht,
     HashTable.create n = Some ht0 /\
     HashTable.insert_all objs ht0 = Some ht /\
     HashTable.search key ht = Some [] /\
     forall obj, exists ht', HashTable.insert obj ht = Some ht').
Proof.
  intros Hn Hno. pose proof (linearSearch_none objs key Hno) as Hnone.
  split; [by rewrite BSTProofs.search_insert_all|].
  split; [done|]. split; [done|]. split.
  - destruct (insert_all_spec objs [] empty Leaf empty_tree_inv) as (s & T & Hi & Hinv).
    exists s. split; [done|]. split.
    + by rewrite (search_spec objs _ _ key Hinv), Hnone.
    + intros obj. destruct (insert_spec _ _ _ obj Hinv) as ([] & s' & E & _). eauto.
  - destruct (chained_create n ltac:(lia)) as (ht0 & Hc & Hch).
    destruct (chained_insert_all n objs [] ht0 Hch) as (ht & Hi & Hch').
    exists ht0, ht. split; [done|]. split; [done|]. split.
    + by rewrite (chained_search n objs _ key Hch'), Hnone.
    + intros obj. destruct (chained_insert _ _ _ obj Hch') as (ht' & E & _). eauto.
Qed.

Lemma not_found_is_empty_witness :
  (1 <= 3)%Z /\ Forall (fun o => name o <> "c"%string) Samples.abc /\
  BinarySearchTree.search
    (BinarySearchTree.insert_all Samples.abc BinarySearchTree.empty) "c" = [] /\
  BinarySearchTree.search BinarySearchTree.empty "c" = [] /\
  RedBlackTree.search "c" RedBlackTree.empty = Some ([], RedBlackTree.empty) /\
  (exists s,
     RedBlackTree.insert_all Samples.abc RedBlackTree.empty = Some s /\
     RedBlackTree.search "c" s = Some ([], s) /\
     forall obj, exists s', RedBlackTree.insert obj s = Some (tt, s')) /\
  (exists ht0 ht,
     HashTable.create 3 = Some ht0 /\
     HashTable.insert_all Samples.abc ht0 = Some ht /\
     HashTable.search "c" ht = Some [] /\
     forall obj, exists ht', HashTable.insert obj ht = Some ht').
Proof.
  assert (Forall (fun o => name o <> "c"%string) Samples.abc) as H.
  { repeat constructor; simpl; discriminate. }
  split; [lia|]. split; [exact H|].
  apply (not_found_is_empty Samples.abc "c" 3); [lia|exact H].
Defined.

(** C9. For every bucket count of at least 1 and every key,
    [hashFunction] returns an index below the bucket count, and in a
    table built by the constructor and inserts the bucket of that index
    exists. *)
Theorem hash_index_in_bounds (n : Z) (objs : list Object) (key : string) :
  (1 <= n)%Z ->
  (forall ht, HashTable.size ht = n ->
     exists idx, HashTable.hashFunction ht key = Some idx /\ (0 <= idx < n)%Z) /\
  (exists ht0 ht idx b,
     HashTable.create n = Some ht0 /\
     HashTable.insert_all objs ht0 = Some ht /\
     HashTable.hashFunction ht key = Some idx /\ (0 <= idx < n)%Z /\
     length (HashTable.buckets ht) = Z.to_nat n /\
     HashTable.bucket_at ht idx = Some b).
Proof.
  intros Hn. split.
  - intros ht <-. eexists. split; [apply hashFunction_spec; lia|].
    apply spec_hash_range. lia.
  - destruct (chained_create n ltac:(lia)) as (ht0 & Hc & Hch).
    destruct (chained_insert_all n objs [] ht0 Hch) as (ht & Hi & Hv & Hs & Hcc & Hb).
    destruct (bucket_at_slot ht key Hv) as [b Hlk].
    exists ht0, ht, (HashTable.spec_hash HashTable.ULONG_BITS (HashTable.size ht) key), b.
    split; [done|]. split; [done|].
    split; [apply hashFunction_spec; apply Hv|].
    split; [rewrite <- Hs; apply spec_hash_range; apply Hv|].
    split; [by rewrite (v_len _ Hv), Hs|]. exact Hlk.
Qed.

Lemma hash_index_in_bounds_witness :
  (1 <= 3)%Z /\
  (forall ht, HashTable.size ht = 3%Z ->
     exists idx, HashTable.hashFunction ht "b" = Some idx /\ (0 <= idx < 3)%Z) /\
  (exists ht0 ht idx b,
     HashTable.create 3 = Some ht0 /\
     HashTable.insert_all Samples.abc ht0 = Some ht /\
     HashTable.hashFunction ht "b" = Some idx /\ (0 <= idx < 3)%Z /\
     length (HashTable.buckets ht) = Z.to_nat 3 /\
     HashTable.bucket_at ht idx = Some b).
Proof. split; [lia|]. apply (hash_index_in_bounds 3 Samples.abc "b"). lia. Defined.

(** C10. In [insertFix], whenever the body of the loop runs -- the
    current node is not the root and its parent is RED -- the parent is
    not the root and the grandparent pointer is a node of the store, the
    parent is one of its children, its other child (the uncle) is null or
    a node of the store, and the pass through the body ends without a
    fault. *)
Theorem fixup_grandparent_valid (s : state) (n : ptr) :
  at_loop_head s n -> fix_cond n s = Some (true, s) ->
  exists p pn g gn,
    field parent n s = Some (Some p, s) /\
    heap s !! p = Some pn /\ color pn = RED /\
    parent pn = Some g /\ heap s !! g = Some gn /\ root s <> Some p /\
    (left gn = Some p \/ right gn = Some p) /\
    (forall u, left gn = Some u \/ right gn = Some u -> is_Some (heap s !! u)) /\
    exists n' s', fix_body n s = Some (n', s').
Proof. apply loop_body_safe. Qed.

Lemma fixup_grandparent_valid_witness :
  at_loop_head Samples.tree_ab_c (Some 2) /\
  fix_cond (Some 2) Samples.tree_ab_c = Some (true, Samples.tree_ab_c) /\
  exists p pn g gn,
    field parent (Some 2) Samples.tree_ab_c = Some (Some p, Samples.tree_ab_c) /\
    heap Samples.tree_ab_c !! p = Some pn /\ color pn = RED /\
    parent pn = Some g /\ heap Samples.tree_ab_c !! g = Some gn /\
    root Samples.tree_ab_c <> Some p /\
    (left gn = Some p \/ right gn = Some p) /\
    (forall u, left gn = Some u \/ right gn = Some u ->
               is_Some (heap Samples.tree_ab_c !! u)) /\
    exists n' s', fix_body (Some 2) Samples.tree_ab_c = Some (n', s').
Proof.
  assert (at_loop_head Samples.tree_ab_c (Some 2)) as H.
  { apply (head_enter Samples.tree_ab (Samples.rec_ 3 "c")); [|reflexivity].
    apply (reach_insert Samples.tree_a (Samples.rec_ 2 "b")); [|reflexivity].
    apply (reach_insert empty (Samples.rec_ 1 "a")); [|reflexivity].
    apply reach_empty. }
  split; [exact H|]. split; [reflexivity|].
  apply (fixup_grandparent_valid Samples.tree_ab_c (Some 2) H). reflexivity.
Defined.

End Claims.

(** * Further properties of the code *)

(** ** Distinct names *)

Section DistinctNames.

Lemma distinct_snoc (l : list string) x :
  remove_dups (l ++ [x]) ≡ₚ
  if decide (x ∈ l) then remove_dups l else x :: remove_dups l.
Proof.
  apply NoDup_Permutation.
  - apply NoDup_remove_dups.
  - destruct (decide (x ∈ l)); [apply NoDup_remove_dups|].
    apply NoDup_cons. split; [by rewrite elem_of_remove_dups|apply NoDup_remove_dups].
  - intros y. rewrite elem_of_remove_dups, elem_of_app, list_elem_of_singleton.
    destruct (decide (x ∈ l)).
    + rewrite elem_of_remove_dups. split; [intros [?| ->]; done | tauto].
    + rewrite elem_of_cons, elem_of_remove_dups. tauto.
Qed.

Lemma linearSearch_names objs k : linearSearch objs k <> [] <-> k ∈ name <$> objs.
Proof.
  rewrite linearSearch_filter. split.
  - intros Hne. destruct (filter _ objs) as [|o rest] eqn:E; [done|].
    assert (o ∈ filter (fun o => name o = k) objs) as Hin
      by (rewrite E; apply list_elem_of_here).
    apply list_elem_of_filter in Hin as [<- Hin].
    apply list_elem_of_fmap. by exists o.
  - intros (o & -> & Hin)%list_elem_of_fmap Hnil.
    assert (o ∈ filter (fun o' => name o' = name o) objs) as Hin'
      by (by apply list_elem_of_filter).
    rewrite Hnil in Hin'. by apply elem_of_nil in Hin'.
Qed.

End DistinctNames.

(** ** Linear scan and the unbalanced tree *)

Module BSTMore.
Import BinarySearchTree BSTProofs.

Lemma keys_insert_all objs : forall t x,
  x ∈ keys (insert_all objs t) <-> x ∈ name <$> objs \/ x ∈ keys t.
Proof.
  induction objs as [|o objs IH]; intros t x; simpl.
  - rewrite elem_of_nil. tauto.
  - unfold insert_all in *. simpl. rewrite IH. unfold insert.
    rewrite keys_insert, elem_of_cons. tauto.
Qed.

Lemma node_count_keys t : node_count t = length (keys t).
Proof.
  induction t as [|k vs l IHl r IHr]; simpl; [done|].
  rewrite length_app. simpl. lia.
Qed.

Lemma spine_snoc objs o :
  Forall (fun x => str_lt (name x) (name o) = true) objs ->
  insert_at (spine objs) o = spine (objs ++ [o]).
Proof.
  induction 1 as [|x objs Hx _ IH]; simpl; [done|].
  rewrite (proj2 (str_eq_false (name o) (name x))).
  - by rewrite (str_lt_asym _ _ Hx), IH.
  - intros E. apply str_lt_neq in Hx. congruence.
Qed.

Lemma insert_all_snoc objs o t :
  insert_all (objs ++ [o]) t = insert_at (insert_all objs t) o.
Proof. unfold insert_all. by rewrite fold_left_app. Qed.

Lemma increasing_snoc (objs : list Object) o :
  StronglySorted (fun a b => str_lt a b = true) (name <$> (objs ++ [o])) ->
  StronglySorted (fun a b => str_lt a b = true) (name <$> objs) /\
  Forall (fun x => str_lt (name x) (name o) = true) objs.
Proof.
  induction objs as [|x objs IH]; simpl; intros H.
  - split; constructor.
  - apply StronglySorted_inv in H as [Hs Hx].
    destruct (IH Hs) as [Hs' Ho]. split.
    + constructor; [done|].
      rewrite fmap_app in Hx. by apply Forall_app in Hx as [? _].
    + constructor; [|done].
      rewrite fmap_app in Hx. apply Forall_app in Hx as [_ Hx].
      by apply Forall_inv in Hx.
Qed.

Lemma increasing_spine objs :
  StronglySorted (fun a b => str_lt a b = true) (name <$> objs) ->
  insert_all objs empty = spine objs.
Proof.
  induction objs as [|o objs IH] using rev_ind; [done|].
  intros [Hs Ho]%increasing_snoc.
  by rewrite insert_all_snoc, IH, spine_snoc.
Qed.

Lemma height_spine objs : height (spine objs) = length objs.
Proof. induction objs as [|o objs IH]; simpl; [done|]. by rewrite IH. Qed.

Lemma search_within_enough t key : forall fuel,
  height t <= fuel -> search_within fuel t key = Some (search t key).
Proof.
  induction t as [|k vs l IHl r IHr]; intros fuel Hf; simpl; [done|].
  destruct fuel as [|fuel]; simpl in *; [lia|].
  destruct (str_eq key k); [done|].
  destruct (str_lt key k); [apply IHl | apply IHr]; lia.
Qed.

Lemma search_within_sound t key : forall fuel res,
  search_within fuel t key = Some res -> res = search t key.
Proof.
  induction t as [|k vs l IHl r IHr]; intros fuel res; simpl.
  - by intros [= <-].
  - destruct fuel as [|fuel]; [done|].
    destruct (str_eq key k); [by intros [= <-]|].
    destruct (str_lt key k); eauto.
Qed.

Lemma search_spine_last objs o : forall fuel,
  Forall (fun x => str_lt (name x) (name o) = true) objs ->
  search_within fuel (spine (objs ++ [o])) (name o) =
  if decide (length objs < fuel) then Some [o] else None.
Proof.
  induction objs as [|x objs IH]; intros fuel H; simpl.
  - destruct fuel as [|fuel]; simpl; [done|]. by rewrite str_eq_refl.
  - apply Forall_cons in H as [Hx H].
    destruct fuel as [|fuel]; simpl; [done|].
    rewrite (proj2 (str_eq_false (name o) (name x))).
    + rewrite (str_lt_asym _ _ Hx), IH by done.
      destruct (decide (length objs < fuel)), (decide (S (length objs) < S fuel));
        (done || lia).
    + intros E. apply str_lt_neq in Hx. congruence.
Qed.

Lemma ordered_sorted t :
  ordered t -> StronglySorted (fun a b => str_lt a b = true) (keys t).
Proof.
  induction t as [|k vs l IHl r IHr]; simpl; [constructor|].
  intros (Hl & Hr & Ol & Or). apply StronglySorted_app_2.
  - intros x1 x2 H1 [->|H2]%elem_of_cons; [by apply Hl|].
    eapply str_lt_trans; [by apply Hl | by apply Hr].
  - by apply IHl.
  - constructor; [by apply IHr|]. apply Forall_forall. intros x. apply Hr.
Qed.

(** An association list whose values are a function of the key. *)
Lemma entries_determined {A} (f : string -> A) (L : list (string * A)) :
  (forall k v, (k, v) ∈ L -> v = f k) -> L = (fun k => (k, f k)) <$> L.*1.
Proof.
  induction L as [|[k v] L IH]; intros H; simpl; [done|].
  rewrite (H k v) by apply list_elem_of_here. f_equal.
  apply IH. intros k' v' Hin. apply H. by apply list_elem_of_further.
Qed.

End BSTMore.

Section LinearAndTree.
Import BinarySearchTree BSTProofs BSTMore.

(** X1. [linearSearch] selects: its result is [data] with the records of
    other names struck out -- the records named [key], each as often as
    in [data] and in the order of [data]; searching the result again
    changes nothing, and no other key is found in it. *)
Theorem linear_search_selects (data : list Object) (key : string) :
  linearSearch data key `sublist_of` data /\
  (forall o, o ∈ linearSearch data key <-> o ∈ data /\ name o = key) /\
  length (linearSearch data key) <= length data /\
  linearSearch (linearSearch data key) key = linearSearch data key /\
  (forall key', key' <> key -> linearSearch (linearSearch data key) key' = []) /\
  (forall more,
     linearSearch (data ++ more) key = linearSearch data key ++ linearSearch more key).
Proof.
  split; [rewrite linearSearch_filter; apply sublist_filter|].
  split; [intros o; rewrite linearSearch_filter, list_elem_of_filter; tauto|].
  split; [rewrite linearSearch_filter; apply length_filter|].
  split.
  { apply linearSearch_all_same, Forall_forall. intros o.
    rewrite linearSearch_filter. by intros [? _]%list_elem_of_filter. }
  split.
  { intros key' Hne. apply linearSearch_none, Forall_forall. intros o.
    rewrite linearSearch_filter. intros [? _]%list_elem_of_filter. congruence. }
  intros more. apply linearSearch_app.
Qed.

(** X2. Ordered tree, one insert: whatever the tree, afterwards a search
    for the name of the record returns what it returned before followed
    by the record, and a search for any other key returns what it
    returned before. *)
Theorem bst_search_after_insert (t : tree) (obj : Object) (key : string) :
  search (insert obj t) (name obj) = search t (name obj) ++ [obj] /\
  (key <> name obj -> search (insert obj t) key = search t key).
Proof.
  unfold insert. rewrite !search_insert, str_eq_refl. split; [done|].
  intros Hne. rewrite (proj2 (str_eq_false (name obj) key)) by done.
  by rewrite app_nil_r.
Qed.

(** X3. Ordered tree: it has one node for each distinct name inserted,
    and a walk of as many steps as the tree is high finds every key. *)
Theorem bst_one_node_per_name (objs : list Object) (key : string) :
  let t := insert_all objs empty in
  node_count t = length (remove_dups (name <$> objs)) /\
  (forall k, k ∈ keys t <-> k ∈ name <$> objs) /\
  height t <= node_count t /\
  search_within (height t) t key = Some (linearSearch objs key).
Proof.
  simpl. split; [|split; [|split]].
  - rewrite node_count_keys. apply Permutation_length, NoDup_Permutation.
    + apply ordered_keys_NoDup. exact (ordered_insert_all objs empty I).
    + apply NoDup_remove_dups.
    + intros x. rewrite keys_insert_all, elem_of_remove_dups. simpl.
      rewrite elem_of_nil. tauto.
  - intros k. rewrite keys_insert_all. simpl. rewrite elem_of_nil. tauto.
  - generalize (insert_all objs empty). intros t.
    induction t as [|k vs l IHl r IHr]; simpl; lia.
  - rewrite search_within_enough by done. by rewrite search_insert_all.
Qed.

(** X4. Ordered tree, worst case: records inserted in increasing order
    of their names build a tree as high as the number of records, every
    node the right child of the one before; the walk to the last name
    visits every node. *)
Theorem bst_increasing_is_a_list (objs : list Object) (last : Object) :
  StronglySorted (fun a b => str_lt a b = true) (name <$> (objs ++ [last])) ->
  let t := insert_all (objs ++ [last]) empty in
  t = spine (objs ++ [last]) /\
  height t = S (length objs) /\
  search_within (length objs) t (name last) = None /\
  search_within (S (length objs)) t (name last) = Some [last].
Proof.
  intros Hs. simpl. rewrite (increasing_spine _ Hs).
  apply increasing_snoc in Hs as [_ Ho].
  split; [done|]. split.
  { rewrite height_spine, length_app. simpl. lia. }
  rewrite !search_spine_last by done.
  split; [by rewrite decide_False by lia | by rewrite decide_True by lia].
Qed.

Lemma bst_increasing_is_a_list_witness :
  StronglySorted (fun a b => str_lt a b = true)
    (name <$> ([Samples.rec_ 1 "a"; Samples.rec_ 2 "b"] ++ [Samples.rec_ 3 "c"])) /\
  let t := insert_all ([Samples.rec_ 1 "a"; Samples.rec_ 2 "b"] ++ [Samples.rec_ 3 "c"])
             empty in
  t = spine ([Samples.rec_ 1 "a"; Samples.rec_ 2 "b"] ++ [Samples.rec_ 3 "c"]) /\
  height t = 3 /\
  search_within 2 t "c" = None /\
  search_within 3 t "c" = Some [Samples.rec_ 3 "c"].
Proof.
  assert (StronglySorted (fun a b => str_lt a b = true)
            (name <$> ([Samples.rec_ 1 "a"; Samples.rec_ 2 "b"] ++ [Samples.rec_ 3 "c"])))
    as H by (repeat constructor).
  split; [exact H|].
  exact (bst_increasing_is_a_list [Samples.rec_ 1 "a"; Samples.rec_ 2 "b"]
           (Samples.rec_ 3 "c") H).
Defined.

End LinearAndTree.

(** ** The hash table *)

Module HashMore.
Import HashTable HashSpec HashProofs.
Local Open Scope Z_scope.

(** *** The hash as a polynomial *)

Lemma fold_poly sz bs : forall h,
  0 < sz -> 0 <= h < sz ->
  fold_left (fun h b => (h * 131 + b) mod sz) bs h =
  (h * 131 ^ Z.of_nat (length bs) + poly bs) mod sz.
Proof.
  induction bs as [|b bs IH]; intros h Hsz Hh; simpl fold_left.
  - simpl. rewrite Z.mul_1_r, Z.add_0_r. symmetry. by apply Z.mod_small.
  - rewrite IH by (done || by apply Z.mod_pos_bound).
    simpl length. simpl poly. rewrite Nat2Z.inj_succ, Z.pow_succ_r by lia.
    rewrite Zplus_mod, Zmult_mod_idemp_l, <- Zplus_mod. f_equal. ring.
Qed.

Lemma ideal_hash_poly sz key :
  0 < sz -> ideal_hash sz key = poly (bytes key) mod sz.
Proof.
  intros Hsz. unfold ideal_hash. fold (bytes key).
  rewrite fold_poly by lia. f_equal.
Qed.

Lemma bytes_app a b : bytes (a +:+ b) = bytes a ++ bytes b.
Proof.
  unfold bytes. induction a as [|c a IH]; simpl; [done|]. f_equal. exact IH.
Qed.

Lemma length_bytes key : length (bytes key) = String.length key.
Proof. unfold bytes. induction key as [|c key IH]; simpl; [done|]. by rewrite IH. Qed.

Lemma poly_app xs ys :
  poly (xs ++ ys) = poly xs * 131 ^ Z.of_nat (length ys) + poly ys.
Proof.
  induction xs as [|x xs IH]; simpl; [lia|].
  rewrite IH, length_app, Nat2Z.inj_add, Z.pow_add_r by lia. ring.
Qed.

(** *** One insert into a valid table *)

Lemma used_app xs ys : used (xs ++ ys) = (used xs + used ys)%nat.
Proof. unfold used. by rewrite filter_app, length_app. Qed.

Lemma used_cons (b : list Object) bs :
  used (b :: bs) = ((if is_empty b then 0 else 1) + used bs)%nat.
Proof.
  unfold used. rewrite filter_cons. destruct b as [|x b].
  - by rewrite decide_False by (by intros H; apply H).
  - by rewrite decide_True by done.
Qed.

Lemma used_insert (bs : list (list Object)) i b o :
  bs !! i = Some b ->
  used (<[i := b ++ [o]]> bs) = (used bs + (if is_empty b then 1 else 0))%nat.
Proof.
  intros Hi. rewrite insert_take_drop by (by eapply lookup_lt_Some).
  rewrite <- (take_drop_middle bs i b Hi) at 3.
  rewrite !used_app, !used_cons.
  destruct b as [|x b]; simpl; lia.
Qed.

Lemma used_le (bs : list (list Object)) : (used bs <= length bs)%nat.
Proof. apply length_filter. Qed.

Lemma concat_insert (bs : list (list Object)) i b o :
  bs !! i = Some b -> concat (<[i := b ++ [o]]> bs) ≡ₚ concat bs ++ [o].
Proof.
  intros Hi. rewrite insert_take_drop by (by eapply lookup_lt_Some).
  rewrite <- (take_drop_middle bs i b Hi) at 3.
  rewrite !concat_app. simpl. solve_Permutation.
Qed.

(** *** The invariant of the counter *)

Lemma counted_create n : 0 < n -> exists ht, create n = Some ht /\ counted n [] ht.
Proof.
  intros Hn. destruct (chained_create n Hn) as (ht & Hc & Hch).
  exists ht. split; [done|]. injection Hc as <-. simpl.
  assert (forall k, used (replicate k []) = 0%nat) as Hu.
  { induction k as [|k IH]; [done|]. simpl. by rewrite used_cons. }
  split; simpl; rewrite ?Hu; done.
Qed.

Lemma counted_insert n objs ht obj :
  counted n objs ht -> Z.of_nat (length objs) < 2 ^ SIZE_BITS - 1 ->
  exists ht', insert obj ht = Some ht' /\ counted n (objs ++ [obj]) ht'.
Proof.
  intros [Hch Hsum Hnames Hfirst] Hlen.
  destruct (chained_insert n objs ht obj Hch) as (ht' & Hi & Hch').
  exists ht'. split; [done|].
  destruct Hch as (Hv & Hs & Hcc & Hb).
  destruct (bucket_at_slot ht (name obj) Hv) as [b Hlk].
  destruct (insert_ok obj ht b Hv Hlk) as (ht2 & Hi2 & _ & _ & Hb' & Hc').
  rewrite Hi in Hi2. injection Hi2 as <-.
  pose proof (used_insert _ _ _ obj Hlk) as Hu. rewrite <- Hb' in Hu.
  pose proof (v_count _ Hv) as Hrange.
  split; [done|..].
  - rewrite Hc', Hu, length_app. simpl.
    destruct b as [|x b]; simpl; [lia|].
    rewrite wrap_small by lia. lia.
  - rewrite Hu, fmap_app. simpl. rewrite distinct_snoc.
    destruct b as [|x b]; simpl.
    + rewrite decide_False; [simpl; lia|].
      intros (o & Ho & Hin)%list_elem_of_fmap.
      assert (o ∈ filter (fun o => slot n (name o) = slot (size ht) (name obj)) objs)
        as Hin'.
      { apply list_elem_of_filter. split; [|done]. by rewrite Hs, Ho. }
      rewrite <- (Hb _ _ Hlk) in Hin'. by apply elem_of_nil in Hin'.
    + destruct (decide (name obj ∈ name <$> objs)); simpl; lia.
  - intros _. rewrite Hu. destruct b; simpl; [lia|].
    assert (objs <> []) as Hne.
    { intros ->. specialize (Hb _ _ Hlk). by rewrite filter_nil in Hb. }
    specialize (Hfirst Hne). lia.
Qed.

Lemma counted_insert_all n objs : forall done_ ht,
  counted n done_ ht -> Z.of_nat (length (done_ ++ objs)) < 2 ^ SIZE_BITS ->
  exists ht', insert_all objs ht = Some ht' /\ counted n (done_ ++ objs) ht'.
Proof.
  induction objs as [|o objs IH]; intros done_ ht Hc Hlen; simpl.
  - exists ht. by rewrite app_nil_r.
  - rewrite length_app in Hlen. simpl in Hlen.
    destruct (counted_insert n done_ ht o Hc ltac:(lia)) as (ht1 & -> & Hc1).
    destruct (IH _ _ Hc1) as (ht' & Hi & Hc').
    { rewrite <- app_assoc. simpl. rewrite length_app. simpl. lia. }
    exists ht'. split; [done|]. by rewrite <- app_assoc in Hc'.
Qed.

(** *** Where the records are *)

Lemma stored_insert_all n objs : forall done_ ht,
  chained n done_ ht -> concat (buckets ht) ≡ₚ done_ ->
  exists ht', insert_all objs ht = Some ht' /\ chained n (done_ ++ objs) ht' /\
              concat (buckets ht') ≡ₚ done_ ++ objs.
Proof.
  induction objs as [|o objs IH]; intros done_ ht Hch Hall; simpl.
  - exists ht. by rewrite app_nil_r.
  - destruct (chained_insert n done_ ht o Hch) as (ht1 & Hi & Hch1).
    pose proof Hch as (Hv & Hs & _ & _).
    destruct (bucket_at_slot ht (name o) Hv) as [b Hlk].
    destruct (insert_ok o ht b Hv Hlk) as (ht2 & Hi2 & _ & _ & Hb' & _).
    rewrite Hi in Hi2. injection Hi2 as <-. rewrite Hi.
    destruct (IH _ _ Hch1) as (ht' & Hi' & Hch' & Hall').
    { rewrite Hb', concat_insert by done. by rewrite Hall. }
    exists ht'. split; [done|]. by rewrite <- app_assoc in Hch', Hall'.
Qed.

Lemma search_frame ht obj b key :
  valid ht -> buckets ht !! slot (size ht) (name obj) = Some b ->
  forall ht', insert obj ht = Some ht' ->
  search key ht' =
  match search key ht with
  | Some r => Some (r ++ if str_eq (name obj) key then [obj] else [])
  | None => None
  end.
Proof.
  intros Hv Hlk ht' Hi.
  destruct (insert_ok obj ht b Hv Hlk) as (ht2 & Hi2 & Hv' & Hs' & Hb' & _).
  rewrite Hi in Hi2. injection Hi2 as <-.
  destruct (bucket_at_slot ht key Hv) as [bk Hk].
  rewrite (search_ok key ht bk Hv Hk).
  destruct (decide (slot (size ht) (name obj) = slot (size ht) key)) as [E|Hne].
  - rewrite E in Hlk. rewrite Hk in Hlk. injection Hlk as ->.
    rewrite (search_ok key ht' (b ++ [obj]) Hv').
    + rewrite filter_app. f_equal. f_equal.
      destruct (str_eq (name obj) key) eqn:Hq.
      * apply str_eq_true in Hq. by rewrite filter_cons_True.
      * apply str_eq_false in Hq. by rewrite filter_cons_False.
    + rewrite Hs', Hb', <- E. apply list_lookup_insert_eq.
      rewrite E. by eapply lookup_lt_Some.
  - rewrite (search_ok key ht' bk Hv').
    + rewrite (proj2 (str_eq_false (name obj) key)); [by rewrite app_nil_r|].
      intros E. apply Hne. by rewrite E.
    + rewrite Hs', Hb'. by rewrite list_lookup_insert_ne.
Qed.

End HashMore.

Section HashTableMore.
Import HashTable HashSpec HashProofs HashMore.
Local Open Scope Z_scope.

(** X5. Hash table: for a bucket count below [2 ^ 64 / 131] (no product
    wraps) the hash of a key is the value of the polynomial of its bytes
    at 131, first byte at the highest power, modulo the bucket count; so
    the empty key goes to bucket 0, and the hash of a key extended by a
    suffix depends on the key through its hash only. *)
Theorem hash_is_polynomial (ht : table) (key suffix : string) :
  1 <= size ht -> (size ht - 1) * 131 + 255 < 2 ^ ULONG_BITS ->
  hashFunction ht key = Some (poly (bytes key) mod size ht) /\
  hashFunction ht "" = Some 0 /\
  (exists h,
     hashFunction ht key = Some h /\
     hashFunction ht (key +:+ suffix) =
       Some ((h * 131 ^ Z.of_nat (String.length suffix) + poly (bytes suffix))
               mod size ht)).
Proof.
  intros Hn Hb.
  assert (forall k, hashFunction ht k = Some (poly (bytes k) mod size ht)) as Hp.
  { intros k. rewrite hashFunction_spec, spec_hash_ideal, ideal_hash_poly by lia.
    done. }
  split; [apply Hp|]. split; [done|].
  exists (poly (bytes key) mod size ht). split; [apply Hp|].
  rewrite Hp, bytes_app, poly_app, length_bytes. f_equal. symmetry.
  rewrite Zplus_mod, Zmult_mod_idemp_l, <- Zplus_mod. done.
Qed.

Lemma hash_is_polynomial_witness :
  1 <= size (mkTable 7 (replicate 7 []) 0) /\
  (size (mkTable 7 (replicate 7 []) 0) - 1) * 131 + 255 < 2 ^ ULONG_BITS /\
  hashFunction (mkTable 7 (replicate 7 []) 0) "Name" =
    Some (poly (bytes "Name") mod size (mkTable 7 (replicate 7 []) 0)) /\
  hashFunction (mkTable 7 (replicate 7 []) 0) "" = Some 0 /\
  (exists h,
     hashFunction (mkTable 7 (replicate 7 []) 0) "Name" = Some h /\
     hashFunction (mkTable 7 (replicate 7 []) 0) ("Name" +:+ "42") =
       Some ((h * 131 ^ Z.of_nat (String.length "42") + poly (bytes "42"))
               mod size (mkTable 7 (replicate 7 []) 0))).
Proof.
  split; [simpl; lia|]. split; [vm_compute; reflexivity|].
  apply (hash_is_polynomial (mkTable 7 (replicate 7 []) 0) "Name" "42").
  - simpl. lia.
  - vm_compute. reflexivity.
Defined.

(** X6. Hash table, one insert into a table with as many buckets as its
    size says (at least one): it succeeds, and afterwards a search for
    the name of the record returns what it returned before followed by
    the record, a search for any other key what it returned before --
    also for a key that shares the bucket. *)
Theorem hash_search_after_insert (ht : table) (obj : Object) (key : string) :
  valid ht ->
  exists ht' before,
    insert obj ht = Some ht' /\ valid ht' /\
    search (name obj) ht = Some before /\
    search (name obj) ht' = Some (before ++ [obj]) /\
    (key <> name obj -> search key ht' = search key ht).
Proof.
  intros Hv.
  destruct (bucket_at_slot ht (name obj) Hv) as [b Hlk].
  destruct (insert_ok obj ht b Hv Hlk) as (ht' & Hi & Hv' & _).
  exists ht', (filter (fun o => name o = name obj) b).
  split; [done|]. split; [done|].
  pose proof (search_ok (name obj) ht b Hv Hlk) as Hs.
  split; [done|]. split.
  - rewrite (search_frame ht obj b (name obj) Hv Hlk ht' Hi), Hs.
    by rewrite str_eq_refl.
  - intros Hne. rewrite (search_frame ht obj b key Hv Hlk ht' Hi).
    destruct (bucket_at_slot ht key Hv) as [bk Hk].
    rewrite (search_ok key ht bk Hv Hk).
    rewrite (proj2 (str_eq_false (name obj) key)) by done.
    by rewrite app_nil_r.
Qed.

Lemma hash_search_after_insert_witness :
  valid (mkTable 2 [[]; [Samples.rec_ 1 "a"]] 0) /\
  exists ht' before,
    insert (Samples.rec_ 2 "a") (mkTable 2 [[]; [Samples.rec_ 1 "a"]] 0) = Some ht' /\
    valid ht' /\
    search (name (Samples.rec_ 2 "a")) (mkTable 2 [[]; [Samples.rec_ 1 "a"]] 0) =
      Some before /\
    search (name (Samples.rec_ 2 "a")) ht' = Some (before ++ [Samples.rec_ 2 "a"]) /\
    ("c"%string <> name (Samples.rec_ 2 "a") ->
     search "c" ht' = search "c" (mkTable 2 [[]; [Samples.rec_ 1 "a"]] 0)).
Proof.
  assert (valid (mkTable 2 [[]; [Samples.rec_ 1 "a"]] 0)) as H.
  { split; simpl; [lia|reflexivity|]. unfold SIZE_BITS. lia. }
  split; [exact H|].
  exact (hash_search_after_insert (mkTable 2 [[]; [Samples.rec_ 1 "a"]] 0)
           (Samples.rec_ 2 "a") "c" H).
Defined.

(** X7. Hash table: after inserting [objs] into a fresh table the
    collision counter is the number of records minus the number of
    buckets in use; no more buckets are in use than there are distinct
    names (records of one name share a bucket) or buckets, so at least
    every record beyond the first of its name, and every record beyond
    the bucket count, is counted as a collision. *)
Theorem collisions_are_records_less_used_buckets (n : Z) (objs : list Object) :
  1 <= n -> Z.of_nat (length objs) < 2 ^ SIZE_BITS ->
  exists ht0 ht,
    create n = Some ht0 /\ insert_all objs ht0 = Some ht /\
    getCollisionCount ht =
      Z.of_nat (length objs) - Z.of_nat (used (buckets ht)) /\
    (used (buckets ht) <= length (remove_dups (name <$> objs)))%nat /\
    (used (buckets ht) <= Z.to_nat n)%nat /\
    (objs <> [] -> (1 <= used (buckets ht))%nat) /\
    Z.of_nat (length objs) - Z.of_nat (length (remove_dups (name <$> objs)))
      <= getCollisionCount ht /\
    Z.of_nat (length objs) - n <= getCollisionCount ht.
Proof.
  intros Hn Hlen.
  destruct (counted_create n ltac:(lia)) as (ht0 & Hc & Hcn).
  destruct (counted_insert_all n objs [] ht0 Hcn Hlen)
    as (ht & Hi & [Hch Hsum Hnames Hfirst]).
  simpl in *. exists ht0, ht. split; [done|]. split; [done|].
  destruct Hch as (Hv & Hs & _ & _).
  pose proof (used_le (buckets ht)) as Hle. rewrite (v_len _ Hv), Hs in Hle.
  unfold getCollisionCount. repeat split; try done; lia.
Qed.

Lemma collisions_are_records_less_used_buckets_witness :
  1 <= 5 /\ Z.of_nat (length Samples.abc) < 2 ^ SIZE_BITS /\
  exists ht0 ht,
    create 5 = Some ht0 /\ insert_all Samples.abc ht0 = Some ht /\
    getCollisionCount ht =
      Z.of_nat (length Samples.abc) - Z.of_nat (used (buckets ht)) /\
    (used (buckets ht) <= length (remove_dups (name <$> Samples.abc)))%nat /\
    (used (buckets ht) <= Z.to_nat 5)%nat /\
    (Samples.abc <> [] -> (1 <= used (buckets ht))%nat) /\
    Z.of_nat (length Samples.abc)
      - Z.of_nat (length (remove_dups (name <$> Samples.abc)))
      <= getCollisionCount ht /\
    Z.of_nat (length Samples.abc) - 5 <= getCollisionCount ht.
Proof.
  split; [lia|]. split; [vm_compute; reflexivity|].
  apply (collisions_are_records_less_used_buckets 5 Samples.abc).
  - lia.
  - vm_compute. reflexivity.
Defined.

(** X8. Hash table: after inserting [objs] into a fresh table the
    buckets together hold the records of [objs], each once; bucket [i]
    holds, in the order of insertion, the records whose name hashes to
    [i], and the number of buckets is the one given at construction. *)
Theorem hash_table_contents (n : Z) (objs : list Object) :
  1 <= n ->
  exists ht0 ht,
    create n = Some ht0 /\ insert_all objs ht0 = Some ht /\
    size ht = n /\ length (buckets ht) = Z.to_nat n /\
    concat (buckets ht) ≡ₚ objs /\
    (forall i b, buckets ht !! i = Some b ->
       b = filter (fun o => hashFunction ht (name o) = Some (Z.of_nat i)) objs) /\
    (forall o, o ∈ objs ->
       exists idx b, hashFunction ht (name o) = Some idx /\
                     bucket_at ht idx = Some b /\ o ∈ b).
Proof.
  intros Hn.
  destruct (chained_create n ltac:(lia)) as (ht0 & Hc & Hch).
  destruct (stored_insert_all n objs [] ht0 Hch) as (ht & Hi & Hch' & Hall).
  { injection Hc as <-. simpl. clear. induction (Z.to_nat n); simpl; done. }
  simpl in *. exists ht0, ht. split; [done|]. split; [done|].
  destruct Hch' as (Hv & Hs & _ & Hb).
  split; [done|]. split; [by rewrite (v_len _ Hv), Hs|]. split; [done|].
  assert (forall k, hashFunction ht k = Some (Z.of_nat (slot n k))) as Hh.
  { intros k. rewrite hashFunction_spec, Hs by apply Hv. unfold slot.
    pose proof (spec_hash_range ULONG_BITS n k ltac:(lia)). f_equal. lia. }
  split.
  - intros i b Hlk. rewrite (Hb _ _ Hlk). apply list_filter_iff.
    intros o. rewrite Hh. split; [by intros ->|]. intros [= E]. lia.
  - intros o Ho. destruct (bucket_at_slot ht (name o) Hv) as [b Hlk].
    rewrite Hs in Hlk. exists (Z.of_nat (slot n (name o))), b.
    split; [apply Hh|]. unfold bucket_at. rewrite Nat2Z.id. split; [done|].
    rewrite (Hb _ _ Hlk). by apply list_elem_of_filter.
Qed.

Lemma hash_table_contents_witness :
  1 <= 3 /\
  exists ht0 ht,
    create 3 = Some ht0 /\ insert_all Samples.abc ht0 = Some ht /\
    size ht = 3 /\ length (buckets ht) = Z.to_nat 3 /\
    concat (buckets ht) ≡ₚ Samples.abc /\
    (forall i b, buckets ht !! i = Some b ->
       b = filter (fun o => hashFunction ht (name o) = Some (Z.of_nat i)) Samples.abc) /\
    (forall o, o ∈ Samples.abc ->
       exists idx b, hashFunction ht (name o) = Some idx /\
                     bucket_at ht idx = Some b /\ o ∈ b).
Proof. split; [lia|]. apply (hash_table_contents 3 Samples.abc). lia. Defined.

End HashTableMore.

(** ** The red-black tree: what an insert leaves alone *)

Module RBFrame.
Import RedBlackTree RBShape RedBlackProofs.

Lemma grows_refl s : grows s s.
Proof.
  split; [done| |].
  - intros a nd H. by exists nd.
  - intros a nd H Hle. apply lookup_lt_Some in H. lia.
Qed.

Lemma grows_trans s1 s2 s3 : grows s1 s2 -> grows s2 s3 -> grows s1 s3.
Proof.
  intros [L1 O1 N1] [L2 O2 N2]. split; [lia| |].
  - intros a nd H. destruct (O1 _ _ H) as (nd1 & H1 & K1 & V1).
    destruct (O2 _ _ H1) as (nd2 & H2 & K2 & V2).
    exists nd2. split; [done|]. split; [congruence|]. by etrans.
  - intros a nd H Hle. destruct (decide (a < length (heap s2))) as [Hlt|Hge].
    + destruct (lookup_lt_is_Some_2 _ _ Hlt) as [nd2 H2].
      destruct (O2 _ _ H2) as (nd3 & H3 & _ & V).
      rewrite H in H3. injection H3 as <-.
      pose proof (N1 _ _ H2 Hle) as Hne. intros E. rewrite E in V.
      by apply prefix_nil_inv in V.
    + apply (N2 _ _ H). lia.
Qed.

Lemma mono_ret {A} (x : A) : mono (ret x).
Proof. intros s a s' [= _ <-]. apply grows_refl. Qed.

Lemma mono_fault {A} : mono (@fault A).
Proof. by intros s a s'. Qed.

Lemma mono_bind {A B} (m : M A) (k : A -> M B) :
  mono m -> (forall a, mono (k a)) -> mono (bind m k).
Proof.
  intros Hm Hk s b s'. unfold bind.
  destruct (m s) as [[a s1]|] eqn:E; [|done].
  intros H. eapply grows_trans; [by eapply Hm | by eapply Hk].
Qed.

Lemma mono_load p : mono (load p).
Proof.
  intros s a s'. unfold load. destruct p as [x|]; [|done].
  destruct (heap s !! x); [|done]. intros [= _ <-]. apply grows_refl.
Qed.

Lemma mono_field {A} (f : Node -> A) p : mono (field f p).
Proof. apply mono_bind; [apply mono_load|]. intros nd. apply mono_ret. Qed.

Lemma mono_get_root : mono get_root.
Proof. intros s a s' [= _ <-]. apply grows_refl. Qed.

Lemma mono_node_count : mono node_count.
Proof. intros s a s' [= _ <-]. apply grows_refl. Qed.

Lemma mono_set_root p : mono (set_root p).
Proof.
  intros s a s' [= _ <-]. split; simpl; [done| |].
  - intros x nd H. by exists nd.
  - intros x nd H Hle. apply lookup_lt_Some in H. lia.
Qed.

Lemma mono_store p upd : keeps upd -> mono (store p upd).
Proof.
  intros Hk s a s'. unfold store. destruct p as [x|]; [|done].
  destruct (heap s !! x) as [nd|] eqn:E; [|done]. intros [= _ <-].
  split; simpl.
  - by rewrite length_insert.
  - intros y ndy H. simpl. destruct (decide (x = y)) as [->|Hne].
    + rewrite E in H. injection H as <-. exists (upd nd).
      split; [apply list_lookup_insert_eq; by eapply lookup_lt_Some|].
      apply Hk.
    + exists ndy. by rewrite list_lookup_insert_ne.
  - intros y ndy H Hle. apply lookup_lt_Some in H.
    rewrite length_insert in H. lia.
Qed.

Lemma mono_new_node nm obj c p : mono (new_node nm obj c p).
Proof.
  intros s a s' [= _ <-]. split; simpl.
  - rewrite length_app. lia.
  - intros y ndy H. simpl. exists ndy. split; [|done].
    apply lookup_app_l_Some. done.
  - intros y ndy H Hle. apply lookup_lt_Some in H as Hlt.
    rewrite length_app in Hlt. simpl in Hlt.
    assert (y = length (heap s)) as -> by lia.
    rewrite lookup_app_r, Nat.sub_diag in H by done. by injection H as <-.
Qed.

Lemma keeps_color c : keeps (set_color c).
Proof. by intros nd. Qed.
Lemma keeps_left p : keeps (set_left p).
Proof. by intros nd. Qed.
Lemma keeps_right p : keeps (set_right p).
Proof. by intros nd. Qed.
Lemma keeps_parent p : keeps (set_parent p).
Proof. by intros nd. Qed.
Lemma keeps_push obj : keeps (push_value obj).
Proof. intros nd. split; [done|]. simpl. by apply prefix_app_r. Qed.

Create HintDb mono.

#[local] Hint Resolve mono_ret mono_fault mono_load mono_field mono_get_root
  mono_node_count mono_set_root mono_store mono_new_node
  keeps_color keeps_left keeps_right keeps_parent keeps_push : mono.

(** Through the binds and the branches of a computation. *)
Ltac mono_tac :=
  repeat first
    [ progress eauto with mono
    | apply mono_bind
    | match goal with |- forall _, _ => intro end
    | match goal with
      | |- mono (match ?x with _ => _ end) => destruct x
      | |- mono (let '(_, _) := ?x in _) => destruct x
      end ].

Lemma mono_transplant u v : mono (transplant u v).
Proof. unfold transplant. mono_tac. Qed.

Lemma mono_rotateLeft x : mono (rotateLeft x).
Proof. unfold rotateLeft. mono_tac; apply mono_transplant. Qed.

Lemma mono_rotateRight x : mono (rotateRight x).
Proof. unfold rotateRight. mono_tac; apply mono_transplant. Qed.

#[local] Hint Resolve mono_rotateLeft mono_rotateRight : mono.

Lemma mono_red_ptr u : mono (red_ptr u).
Proof. unfold red_ptr. mono_tac. Qed.

Lemma mono_fix_cond n : mono (fix_cond n).
Proof. unfold fix_cond. mono_tac. Qed.

#[local] Hint Resolve mono_red_ptr mono_fix_cond : mono.

Lemma mono_fix_body n : mono (fix_body n).
Proof. unfold fix_body. mono_tac. Qed.

#[local] Hint Resolve mono_fix_body : mono.

Lemma mono_fix_loop fuel : forall n, mono (fix_loop fuel n).
Proof. induction fuel as [|fuel IH]; intros n; simpl; mono_tac. Qed.

#[local] Hint Resolve mono_fix_loop : mono.

Lemma mono_insertFix n : mono (insertFix n).
Proof. unfold insertFix. mono_tac. Qed.

Lemma mono_descend fuel obj : forall cur par, mono (descend fuel obj cur par).
Proof.
  induction fuel as [|fuel IH]; intros cur par; destruct cur; simpl; mono_tac.
Qed.

#[local] Hint Resolve mono_insertFix mono_descend : mono.

Lemma mono_attach obj : mono (attach obj).
Proof. unfold attach. mono_tac. Qed.

#[local] Hint Resolve mono_attach : mono.

Lemma mono_insert obj : mono (insert obj).
Proof. unfold insert. mono_tac. Qed.

End RBFrame.

(** ** The red-black tree: shape, links and content of the store *)

Module RBMore.
Import RedBlackTree RBShape RedBlackProofs RBFrame.

#[local] Arguments bind : simpl never.
#[local] Arguments field : simpl never.
#[local] Arguments store : simpl never.
#[local] Arguments load : simpl never.
#[local] Arguments set_root : simpl never.
#[local] Arguments get_root : simpl never.
#[local] Arguments ret : simpl never.
#[local] Arguments new_node : simpl never.
#[local] Arguments rotateLeft : simpl never.
#[local] Arguments rotateRight : simpl never.

(** *** A store is determined by the tree it represents *)

Lemma rep_unique s1 s2 T : represents s1 T -> represents s2 T -> s1 = s2.
Proof.
  intros H1 H2. destruct s1 as [r1 h1], s2 as [r2 h2].
  assert (r1 = r2) as ->.
  { pose proof (rep_root _ _ H1). pose proof (rep_root _ _ H2). simpl in *.
    congruence. }
  f_equal. apply list_eq. intros i.
  pose proof (rep_size _ _ H1) as L1. pose proof (rep_size _ _ H2) as L2.
  simpl in *.
  destruct (h1 !! i) as [nd|] eqn:E1.
  - pose proof (rep_exact _ _ _ _ H1 E1) as Hin.
    symmetry. exact (rep_cells _ _ H2 _ _ Hin).
  - symmetry. apply lookup_ge_None. apply lookup_ge_None in E1. lia.
Qed.

(** *** Height *)

Lemma bh_size t n : black_height t n -> 2 ^ n <= size t + 1.
Proof.
  induction 1 as [|a l k vs r n _ IHl _ IHr|a l k vs r n _ IHl _ IHr]; simpl.
  - lia.
  - lia.
  - lia.
Qed.

Lemma bh_height t n :
  black_height t n -> no_red_red t ->
  height t <= 2 * n + (if is_red (color_of t) then 1 else 0).
Proof.
  induction 1 as [|a l k vs r n _ IHl _ IHr|a l k vs r n _ IHl _ IHr];
    simpl; intros Hn.
  - lia.
  - destruct Hn as (Hc & Hl & Hr). destruct (Hc eq_refl) as [Cl Cr].
    specialize (IHl Hl). specialize (IHr Hr). rewrite Cl in IHl. rewrite Cr in IHr.
    simpl in *. lia.
  - destruct Hn as (_ & Hl & Hr). specialize (IHl Hl). specialize (IHr Hr).
    destruct (is_red (color_of l)), (is_red (color_of r)); lia.
Qed.

Lemma rb_height T : red_black T -> height T <= 2 * Nat.log2 (size T + 1).
Proof.
  intros (Hc & Hn & n & Hb).
  pose proof (bh_height _ _ Hb Hn) as Hh. rewrite Hc in Hh. simpl in Hh.
  pose proof (bh_size _ _ Hb) as Hs.
  assert (n <= Nat.log2 (size T + 1)).
  { apply Nat.log2_le_pow2; lia. }
  lia.
Qed.

Lemma height_le_size t : height t <= size t.
Proof. induction t as [|a c l IHl k vs r IHr]; simpl; lia. Qed.

Lemma search_from_height k t : forall fuel s ctx,
  zrep s ctx t -> height t <= fuel ->
  search_from fuel k (rootp t) s =
  Some (match (locate k ctx t).2 with
        | Leaf => []
        | Tr _ _ _ _ vs _ => vs
        end, s).
Proof.
  induction t as [|a c l IHl k' vs r IHr]; intros fuel s ctx H Hf.
  - by destruct fuel.
  - destruct fuel as [|fuel]; [simpl in Hf; lia|]. simpl in Hf.
    simpl search_from. simpl locate.
    eapply bind_run; [exact (field_spec _ _ _ _ _ _ _ _ _ H)|]. cbv beta. simpl.
    destruct (str_eq k k') eqn:E.
    + simpl. exact (field_spec _ _ _ _ _ _ _ _ _ H).
    + destruct (str_lt k k') eqn:F.
      * eapply bind_run; [exact (field_spec _ _ _ _ _ _ _ _ _ H)|]. cbv beta. simpl left.
        apply (IHl fuel s (HoleL a c k' vs r :: ctx)); [|lia].
        by apply zrep_up.
      * eapply bind_run; [exact (field_spec _ _ _ _ _ _ _ _ _ H)|]. cbv beta. simpl right.
        apply (IHr fuel s (HoleR a c l k' vs :: ctx)); [|lia].
        by apply zrep_up.
Qed.

(** *** Every node holds a record *)

Lemma reachable_nonempty s :
  reachable s -> forall a nd, heap s !! a = Some nd -> values nd <> [].
Proof.
  induction 1 as [|s obj s' _ IH Hi]; intros a nd Ha.
  - unfold empty in Ha. simpl in Ha. by rewrite lookup_nil in Ha.
  - destruct (mono_insert obj _ _ _ Hi) as [_ Hold Hnew].
    destruct (decide (a < length (heap s))) as [Hlt|Hge].
    + destruct (lookup_lt_is_Some_2 _ _ Hlt) as [nd0 H0].
      destruct (Hold _ _ H0) as (nd1 & H1 & _ & V).
      rewrite Ha in H1. injection H1 as <-.
      pose proof (IH _ _ H0) as Hne. intros E. rewrite E in V.
      by apply prefix_nil_inv in V.
    + apply (Hnew _ _ Ha). lia.
Qed.

Lemma inorder_cells T : forall par k vs,
  (k, vs) ∈ inorder T ->
  exists a nd, (a, nd) ∈ cells par T /\ key nd = k /\ values nd = vs.
Proof.
  induction T as [|a c l IHl k' vs' r IHr]; intros par k vs Hin; simpl in *.
  - by apply elem_of_nil in Hin.
  - apply elem_of_app in Hin as [Hin|[[= -> ->]|Hin]%elem_of_cons].
    + destruct (IHl (Some a) _ _ Hin) as (x & nd & Hx & ? & ?).
      exists x, nd. split; [|done].
      apply list_elem_of_further, elem_of_app. by left.
    + eexists _, _. split; [apply list_elem_of_here|done].
    + destruct (IHr (Some a) _ _ Hin) as (x & nd & Hx & ? & ?).
      exists x, nd. split; [|done].
      apply list_elem_of_further, elem_of_app. by right.
Qed.

Lemma keys_names objs s T k :
  tree_inv objs s T -> reachable s -> k ∈ keys T <-> k ∈ name <$> objs.
Proof.
  intros Hinv Hr. rewrite <- linearSearch_names, <- (inv_vals _ _ _ Hinv).
  split.
  - intros ((k' & vs) & -> & Hin)%list_elem_of_fmap. simpl.
    rewrite (vals_entry _ vs) by (done || apply sorted_NoDup, Hinv).
    destruct (inorder_cells _ None _ _ Hin) as (a & nd & Hc & _ & <-).
    eapply reachable_nonempty; [done|]. by apply (rep_cells _ _ (inv_rep _ _ _ Hinv)).
  - intros Hv. destruct (decide (k ∈ keys T)) as [|Hno]; [done|].
    by rewrite vals_absent in Hv.
Qed.

Lemma node_count_names objs s T :
  tree_inv objs s T -> reachable s ->
  length (heap s) = length (remove_dups (name <$> objs)).
Proof.
  intros Hinv Hr. rewrite (rep_size_heap _ _ (inv_rep _ _ _ Hinv)).
  rewrite <- length_addrs, <- (cells_addrs None), length_fmap.
  rewrite <- (length_fmap snd), <- (length_fmap key), (cells_keys None T).
  apply Permutation_length, NoDup_Permutation.
  - apply sorted_NoDup, Hinv.
  - apply NoDup_remove_dups.
  - intros k. rewrite elem_of_remove_dups. by eapply keys_names.
Qed.

(** The states that [insert_all] builds, with their invariant. *)
Lemma built objs :
  exists s T, insert_all objs empty = Some s /\ tree_inv objs s T /\ reachable s.
Proof.
  destruct (insert_all_spec objs [] empty Leaf empty_tree_inv) as (s & T & Hi & Hinv).
  exists s, T. split; [done|]. split; [done|].
  eapply insert_all_reachable; [apply reach_empty|done].
Qed.

(** *** Links between the nodes *)

Lemma cells_links T : forall par a nd,
  (a, nd) ∈ cells par T ->
  (forall c, left nd = Some c \/ right nd = Some c ->
     exists cn, (c, cn) ∈ cells par T /\ parent cn = Some a) /\
  ((parent nd = par /\ rootp T = Some a) \/
   exists p pn, parent nd = Some p /\ (p, pn) ∈ cells par T /\
                (left pn = Some a \/ right pn = Some a)).
Proof.
  induction T as [|a0 c0 l IHl k vs r IHr]; intros par a nd Hin.
  - by apply elem_of_nil in Hin.
  - simpl in Hin.
    apply elem_of_cons in Hin as [[= -> ->]|[Hin|Hin]%elem_of_app].
    + split; [|by left]. simpl. intros c [Hc|Hc].
      * destruct l as [|la lc ll lk lvs lr]; [done|]. injection Hc as ->.
        eexists. split; [simpl; cell_search|reflexivity].
      * destruct r as [|ra rc rl rk rvs rr]; [done|]. injection Hc as ->.
        eexists. split; [simpl; cell_search|reflexivity].
    + destruct (IHl _ _ _ Hin) as [Hch Hpar]. split.
      * intros c Hc. destruct (Hch c Hc) as (cn & Hcn & Hp).
        exists cn. split; [|done]. simpl. in_search.
      * right. destruct Hpar as [[Hp Hr]|(p & pn & Hp & Hpn & Hlr)].
        -- eexists a0, _. split; [done|]. split; [apply list_elem_of_here|].
           simpl. by left.
        -- exists p, pn. split; [done|]. split; [|done]. simpl. in_search.
    + destruct (IHr _ _ _ Hin) as [Hch Hpar]. split.
      * intros c Hc. destruct (Hch c Hc) as (cn & Hcn & Hp).
        exists cn. split; [|done]. simpl. in_search.
      * right. destruct Hpar as [[Hp Hr]|(p & pn & Hp & Hpn & Hlr)].
        -- eexists a0, _. split; [done|]. split; [apply list_elem_of_here|].
           simpl. by right.
        -- exists p, pn. split; [done|]. split; [|done]. simpl. in_search.
Qed.

Lemma rootp_addrs t a : rootp t = Some a -> a ∈ addrs t.
Proof. destruct t; [done|]. intros [= ->]. apply list_elem_of_here. Qed.

Lemma cells_children_differ T : forall par a nd c,
  NoDup (addrs T) -> (a, nd) ∈ cells par T ->
  left nd = Some c -> right nd <> Some c.
Proof.
  induction T as [|a0 c0 l IHl k vs r IHr]; intros par a nd c Hnd Hin.
  - by apply elem_of_nil in Hin.
  - simpl in Hin, Hnd. apply NoDup_cons in Hnd as [_ Hnd].
    apply NoDup_app in Hnd as (Hl & Hlr & Hr).
    apply elem_of_cons in Hin as [[= -> ->]|[Hin|Hin]%elem_of_app]; eauto.
    simpl. intros Hc Hc'. apply rootp_addrs in Hc, Hc'. by eapply Hlr.
Qed.

(** *** The walk for a key that is in the tree *)

Lemma locate_present k T : forall ctx,
  sorted (inorder T) -> k ∈ keys T ->
  exists a c l vs r, (locate k ctx T).2 = Tr a c l k vs r.
Proof.
  induction T as [|a c l IHl k' vs r IHr]; intros ctx Hs Hin.
  - by apply elem_of_nil in Hin.
  - destruct (sorted_node _ _ _ _ _ _ Hs) as (Hlt & Hgt & Hsl & Hsr).
    unfold keys in Hin. simpl in Hin. rewrite fmap_app, fmap_cons in Hin. simpl in Hin.
    simpl locate. destruct (str_eq k k') eqn:E.
    + apply str_eq_true in E as ->. by eexists _, _, _, _, _.
    + apply str_eq_false in E.
      apply elem_of_app in Hin as [Hin|[?|Hin]%elem_of_cons]; [| done |].
      * rewrite (Hlt _ Hin). by apply IHl.
      * rewrite (str_lt_asym _ _ (Hgt _ Hin)). by apply IHr.
Qed.

(** *** An insert under a key of the tree *)

Lemma insert_known objs s T a nd obj :
  tree_inv objs s T -> heap s !! a = Some nd -> key nd = name obj ->
  insert obj s = Some (tt, mkState (root s) (<[a := push_value obj nd]> (heap s))).
Proof.
  intros Hinv Ha Hk. pose proof Hinv as [Hrep Hrb Hs Hv].
  pose proof (rep_exact _ _ _ _ Hrep Ha) as Hc.
  pose proof (cells_inorder _ _ _ _ Hc) as Hin.
  assert (name obj ∈ keys T) as Hkey.
  { apply list_elem_of_fmap. exists (key nd, values nd). by split. }
  destruct (locate_present (name obj) T [] Hs Hkey) as (a' & c & l & vs & r & Hloc).
  pose proof (locate_plug (name obj) T []) as Hp. simpl plug in Hp.
  pose proof (proj2 (zrep_top _ _) Hrep) as Hz.
  destruct (descend_spec obj T (length (heap s)) s [] Hz) as (res & s1 & Hd & Hpost).
  { by rewrite (rep_size_heap _ _ Hrep). }
  rewrite Hloc in Hpost, Hp. destruct Hpost as [-> Hz1].
  set (ctx := (locate (name obj) [] T).1) in *.
  assert (zrep s ctx (Tr a' c l (name obj) vs r)) as Hz0.
  { apply zrep_plug. by rewrite Hp. }
  pose proof (zrep_lookup _ _ _ _ _ _ _ _ Hz0) as Ha'.
  assert (a' = a) as ->.
  { eapply (heap_unique_keys _ _ Hrep); [by apply sorted_NoDup|done|done|].
    by rewrite Hk. }
  rewrite Ha in Ha'. injection Ha' as ->.
  pose proof (zrep_payload _ _ _ _ _ _ _ _ c (vs ++ [obj]) Hz0) as Hz2.
  apply zrep_plug in Hz1, Hz2. pose proof (rep_unique _ _ _ Hz1 Hz2) as ->.
  assert (exists r0, rootp T = Some r0) as [r0 Hr0].
  { destruct T; [by apply elem_of_nil in Hkey|]. by eexists. }
  rewrite Hr0 in Hd.
  unfold insert. eapply bind_run.
  - unfold attach. eapply bind_run; [reflexivity|]. cbv beta.
    rewrite (rep_root _ _ Hrep), Hr0.
    eapply bind_run; [reflexivity|]. cbv beta.
    eapply bind_run; [exact Hd|]. reflexivity.
  - reflexivity.
Qed.

(** *** An insert under a new key *)

Lemma heap_key_names objs s T a nd :
  tree_inv objs s T -> reachable s -> heap s !! a = Some nd ->
  key nd ∈ name <$> objs.
Proof.
  intros Hinv Hr Ha. apply (keys_names objs s T); [done|done|].
  pose proof (rep_exact _ _ _ _ (inv_rep _ _ _ Hinv) Ha) as Hc.
  apply list_elem_of_fmap. exists (key nd, values nd).
  split; [done|]. by eapply cells_inorder.
Qed.

Lemma names_heap_key objs s T k :
  tree_inv objs s T -> reachable s -> k ∈ name <$> objs ->
  exists a nd, heap s !! a = Some nd /\ key nd = k.
Proof.
  intros Hinv Hr Hk. apply (keys_names objs s T) in Hk; [|done|done].
  apply list_elem_of_fmap in Hk as ((k' & vs) & -> & Hin).
  destruct (inorder_cells _ None _ _ Hin) as (a & nd & Hc & Hkey & _).
  exists a, nd. split; [|done]. by apply (rep_cells _ _ (inv_rep _ _ _ Hinv)).
Qed.

Lemma insert_new objs s T obj :
  tree_inv objs s T -> reachable s -> name obj ∉ name <$> objs ->
  exists s',
    insert obj s = Some (tt, s') /\
    length (heap s') = S (length (heap s)) /\
    (exists nd, heap s' !! length (heap s) = Some nd /\
                key nd = name obj /\ values nd = [obj]) /\
    (forall a nd, heap s !! a = Some nd ->
       exists nd', heap s' !! a = Some nd' /\
                   key nd' = key nd /\ values nd' = values nd).
Proof.
  intros Hinv Hr Hnew.
  destruct (insert_spec _ _ _ obj Hinv) as ([] & s' & Hi & T' & Hinv').
  assert (reachable s') as Hr' by (by eapply reach_insert).
  exists s'. split; [done|].
  assert (length (heap s') = S (length (heap s))) as Hlen.
  { rewrite (node_count_names _ _ _ Hinv' Hr'), (node_count_names _ _ _ Hinv Hr).
    rewrite fmap_app. simpl. rewrite distinct_snoc. by rewrite decide_False. }
  split; [done|].
  destruct (mono_insert obj _ _ _ Hi) as [_ Hold _].
  assert (forall a nd, heap s !! a = Some nd ->
            exists nd', heap s' !! a = Some nd' /\
                        key nd' = key nd /\ values nd' = values nd) as Hsame.
  { intros a nd Ha. destruct (Hold _ _ Ha) as (nd' & Ha' & Hk & _).
    exists nd'. split; [done|]. split; [done|].
    rewrite (heap_values _ _ _ _ _ Hinv' Ha'), (heap_values _ _ _ _ _ Hinv Ha), Hk.
    rewrite linearSearch_snoc.
    rewrite (proj2 (str_eq_false (name obj) (key nd))); [by rewrite app_nil_r|].
    intros E. apply Hnew. rewrite E. by eapply heap_key_names. }
  split; [|done].
  destruct (lookup_lt_is_Some_2 (heap s') (length (heap s)) ltac:(lia)) as [nd Hnd].
  exists nd. split; [done|].
  assert (key nd = name obj) as Hk.
  { pose proof (heap_key_names _ _ _ _ _ Hinv' Hr' Hnd) as Hin.
    rewrite fmap_app in Hin. simpl in Hin.
    apply elem_of_app in Hin as [Hin|Hin%list_elem_of_singleton]; [|done].
    destruct (names_heap_key _ _ _ _ Hinv Hr Hin) as (a0 & nd0 & H0 & Hk0).
    destruct (Hsame _ _ H0) as (nd0' & H0' & Hk0' & _).
    assert (a0 = length (heap s)) as E.
    { eapply (heap_unique_keys _ _ (inv_rep _ _ _ Hinv'));
        [apply sorted_NoDup, Hinv'|done|done|congruence]. }
    apply lookup_lt_Some in H0. lia. }
  split; [done|].
  rewrite (heap_values _ _ _ _ _ Hinv' Hnd), Hk, linearSearch_snoc, str_eq_refl.
  rewrite (linearSearch_none objs); [done|].
  apply Forall_forall. intros o Ho E. apply Hnew. rewrite <- E.
  apply list_elem_of_fmap. by exists o.
Qed.

(** *** The same entries as the unbalanced tree *)

Lemma inorder_entries objs s T :
  tree_inv objs s T -> reachable s ->
  inorder T =
  BinarySearchTree.entries (BinarySearchTree.insert_all objs BinarySearchTree.empty).
Proof.
  intros Hinv Hr.
  set (t := BinarySearchTree.insert_all objs BinarySearchTree.empty).
  assert (BinarySearchTree.ordered t) as Ho
    by exact (BSTProofs.ordered_insert_all objs BinarySearchTree.empty I).
  assert (keys T = BinarySearchTree.keys t) as Hk.
  { apply (StronglySorted_unique_strong key_lt).
    - intros x1 x2 _ _ H1 H2. unfold key_lt in *.
      apply str_lt_asym in H1. congruence.
    - apply Hinv.
    - by apply BSTMore.ordered_sorted.
    - apply NoDup_Permutation.
      + apply sorted_NoDup, Hinv.
      + by apply BSTProofs.ordered_keys_NoDup.
      + intros k. rewrite (keys_names objs s T k Hinv Hr).
        unfold t. rewrite BSTMore.keys_insert_all. simpl. rewrite elem_of_nil. tauto. }
  rewrite (BSTMore.entries_determined (linearSearch objs) (inorder T)).
  - rewrite (BSTMore.entries_determined (linearSearch objs) (BinarySearchTree.entries t)).
    + fold (keys T). by rewrite Hk, BSTProofs.entries_keys.
    + intros k v Hin. by eapply BSTProofs.entries_insert_all.
  - intros k v Hin. rewrite <- (inv_vals _ _ _ Hinv).
    symmetry. apply vals_entry; [apply sorted_NoDup, Hinv|done].
Qed.

(** *** The destructor *)

Lemma postorder_addrs t : postorder t ≡ₚ addrs t.
Proof.
  induction t as [|a c l IHl k vs r IHr]; simpl; [done|].
  rewrite IHl, IHr. solve_Permutation.
Qed.

Lemma read_live s freed a nd :
  heap s !! a = Some nd -> a ∉ freed -> read s freed a = Some nd.
Proof. intros H Hf. unfold read. by rewrite bool_decide_eq_false_2. Qed.

Lemma clear_spec s t : forall par fuel freed,
  (forall a nd, (a, nd) ∈ cells par t -> heap s !! a = Some nd) ->
  NoDup (addrs t) -> (forall a, a ∈ addrs t -> a ∉ freed) ->
  height t <= fuel ->
  clear fuel (rootp t) s freed = Some (freed ++ postorder t).
Proof.
  induction t as [|a c l IHl k vs r IHr]; intros par fuel freed Hc Hnd Hfr Hf.
  - simpl. destruct fuel; simpl; by rewrite app_nil_r.
  - destruct fuel as [|fuel]; [simpl in Hf; lia|]. simpl in Hf.
    simpl in Hnd. apply NoDup_cons in Hnd as [Hal Hnd].
    apply not_elem_of_app in Hal as [Hal Har].
    apply NoDup_app in Hnd as (Hl & Hlr & Hr).
    assert (heap s !! a = Some (mkNode k vs c (rootp l) (rootp r) par)) as Ha.
    { apply Hc. apply list_elem_of_here. }
    simpl clear.
    rewrite (read_live _ _ _ _ Ha) by (apply Hfr; apply list_elem_of_here).
    simpl.
    rewrite (IHl (Some a) fuel freed); cycle 1.
    { intros x nd Hx. apply Hc. simpl. in_search. }
    { done. }
    { intros x Hx. apply Hfr. simpl. in_search. }
    { lia. }
    simpl. rewrite (read_live _ _ _ _ Ha); cycle 1.
    { rewrite not_elem_of_app, postorder_addrs. split; [|done].
      apply Hfr. apply list_elem_of_here. }
    simpl.
    rewrite (IHr (Some a) fuel (freed ++ postorder l)); cycle 1.
    { intros x nd Hx. apply Hc. simpl. in_search. }
    { done. }
    { intros x Hx. rewrite not_elem_of_app, postorder_addrs. split.
      - apply Hfr. simpl. in_search.
      - intros Hx'. by eapply Hlr. }
    { lia. }
    simpl. unfold delete. rewrite (read_live _ _ _ _ Ha); cycle 1.
    { rewrite !not_elem_of_app, !postorder_addrs. split; [split|]; [|done|done].
      apply Hfr. apply list_elem_of_here. }
    by rewrite <- !app_assoc.
Qed.

Lemma destroy_spec s T :
  represents s T -> destroy s = Some (postorder T).
Proof.
  intros Hrep. unfold destroy. rewrite (rep_root _ _ Hrep).
  rewrite (clear_spec s T None (length (heap s)) []); [done|..].
  - apply (rep_cells _ _ Hrep).
  - apply (rep_nodup _ _ Hrep).
  - intros a _. apply not_elem_of_nil.
  - rewrite (rep_size_heap _ _ Hrep). apply height_le_size.
Qed.

Lemma rep_addrs_all s T : represents s T -> addrs T ≡ₚ seq 0 (length (heap s)).
Proof.
  intros H. apply submseteq_length_Permutation.
  - apply NoDup_submseteq; [apply (rep_nodup _ _ H)|].
    intros x Hx. apply elem_of_seq. pose proof (rep_addr_lt _ _ _ H Hx). lia.
  - rewrite length_seq, (rep_size _ _ H). done.
Qed.

(** *** The length of the walks of an insert *)

Lemma locate_depth k t : forall ctx,
  length (locate k ctx t).1 <= length ctx + height t.
Proof.
  induction t as [|a c l IHl k' vs r IHr]; intros ctx; simpl; [lia|].
  destruct (str_eq k k'); [simpl; lia|].
  destruct (str_lt k k').
  - pose proof (IHl (HoleL a c k' vs r :: ctx)). simpl in *. lia.
  - pose proof (IHr (HoleR a c l k' vs :: ctx)). simpl in *. lia.
Qed.

Lemma descend_height obj t : forall fuel s ctx,
  zrep s ctx t -> height t <= fuel ->
  runs (descend fuel obj (rootp t) (ctx_par ctx)) s (fun res s' =>
    match (locate (name obj) ctx t).2 with
    | Leaf => res = Some (ctx_par (locate (name obj) ctx t).1) /\ s' = s
    | Tr a c l k vs r =>
        res = None /\
        zrep s' (locate (name obj) ctx t).1 (Tr a c l k (vs ++ [obj]) r)
    end).
Proof.
  induction t as [|a c l IHl k vs r IHr]; intros fuel s ctx H Hf.
  - destruct fuel; simpl; by apply runs_ret.
  - destruct fuel as [|fuel]; [simpl in Hf; lia|]. simpl in Hf.
    simpl descend. simpl locate.
    eapply runs_bind; [exact (field_spec _ _ _ _ _ _ _ _ _ H)|]. cbv beta. simpl.
    destruct (str_eq (name obj) k) eqn:E.
    + simpl. eapply runs_push; [exact H|]. intros s' H'. by apply runs_ret.
    + destruct (str_lt (name obj) k) eqn:F.
      * eapply runs_bind; [exact (field_spec _ _ _ _ _ _ _ _ _ H)|]. cbv beta. simpl left.
        apply (IHl fuel s (HoleL a c k vs r :: ctx)); [|lia].
        by apply zrep_up.
      * eapply runs_bind; [exact (field_spec _ _ _ _ _ _ _ _ _ H)|]. cbv beta. simpl right.
        apply (IHr fuel s (HoleR a c l k vs :: ctx)); [|lia].
        by apply zrep_up.
Qed.

(** The node that [attach] links sits at the end of the walk for its
    key. *)
Lemma attach_path objs s T obj :
  tree_inv objs s T ->
  runs (attach obj) s (fun res s' =>
    match res with
    | None => True
    | Some nd =>
        let t := Tr (length (heap s)) RED Leaf (name obj) [obj] Leaf in
        let ctx := (locate (name obj) [] T).1 in
        nd = rootp t /\ zrep s' ctx t /\ fix_state ctx t
    end).
Proof.
  intros [Hrep Hrb Hs Hv]. unfold attach.
  eapply runs_bind; [reflexivity|]. cbv beta.
  rewrite (rep_root _ _ Hrep).
  destruct T as [|a c l k vs r]; simpl rootp; cbv iota.
  - eapply runs_bind; [reflexivity|]. cbv beta.
    eapply runs_bind; [reflexivity|]. cbv beta.
    by apply runs_ret.
  - eapply runs_bind; [reflexivity|]. cbv beta.
    pose proof (proj2 (zrep_top _ _) Hrep) as Hz.
    eapply runs_seq.
    { apply (descend_spec obj (Tr a c l k vs r) (length (heap s)) s [] Hz).
      by rewrite (rep_size_heap _ _ Hrep). }
    pose proof (locate_plug (name obj) (Tr a c l k vs r) []) as Hp.
    pose proof (locate_turns (name obj) (Tr a c l k vs r) [] (Forall_nil_2 _)) as Ht.
    pose proof (locate_leaf_deep (name obj) a c l k vs r []) as Hd.
    destruct (locate (name obj) [] (Tr a c l k vs r)) as [ctx t].
    simpl fst in *. simpl snd in *. simpl plug in Hp.
    rewrite <- Hp in Hrb, Hrep. clear Hp Hz.
    intros res s1. destruct t as [|a' c' l' k' vs' r'].
    + intros [-> ->]. cbv iota.
      destruct ctx as [|f rest]; [by destruct Hd|]. simpl ctx_par.
      apply zrep_plug in Hrep as Hz.
      eapply runs_weaken.
      { apply (link_leaf obj s f rest Hz). by apply Forall_cons in Ht as [? _]. }
      intros _ s' (-> & Hz' & Hlen).
      split; [done|]. split; [done|].
      apply rb_plug_inv in Hrb as (n & Hb & Hctx & _ & _). inversion Hb; subst n.
      split; [done|done|simpl; tauto|]. exists 0. split; [by constructor|done].
    + intros [-> Hz']. cbv iota. by apply runs_ret.
Qed.

Lemma fix_loop_depth objs s T obj nd s1 fuel :
  tree_inv objs s T -> attach obj s = Some (Some nd, s1) -> height T < fuel ->
  exists s2, fix_loop fuel nd s1 = Some (tt, s2).
Proof.
  intros Hinv Ha Hf.
  pose proof (runs_result _ _ _ _ _ (attach_path _ _ _ obj Hinv) Ha) as (-> & Hz & Hfs).
  pose proof (locate_depth (name obj) T []) as Hd. simpl in Hd.
  destruct (fix_loop_spec fuel _ _ _ Hz Hfs ltac:(lia)) as ([] & s2 & E & _).
  by exists s2.
Qed.

End RBMore.

Section RedBlackMore.
Import RedBlackTree RBShape RedBlackProofs RBFrame RBMore.

(** X9. Red-black tree: after any inserts the tree is at most
    [2 * log2 (n + 1)] nodes high, [n] the number of its nodes, and the
    loop of [search] finds the records of any key within that many
    passes. *)
Theorem rbt_search_is_logarithmic (objs : list Object) (key : string) :
  exists s T,
    insert_all objs empty = Some s /\ represents s T /\
    height T <= 2 * Nat.log2 (length (heap s) + 1) /\
    search_from (2 * Nat.log2 (length (heap s) + 1)) key (root s) s =
      Some (linearSearch objs key, s).
Proof.
  destruct (built objs) as (s & T & Hi & Hinv & Hr).
  exists s, T. pose proof Hinv as [Hrep Hrb Hs Hv].
  split; [done|]. split; [done|].
  pose proof (rb_height T Hrb) as Hh. rewrite <- (rep_size_heap _ _ Hrep) in Hh.
  split; [done|].
  rewrite (rep_root _ _ Hrep).
  rewrite (search_from_height key T _ s []); [|by apply zrep_top|done].
  by rewrite <- located_vals, Hv.
Qed.

(** X10. Red-black tree built by inserts, [n] nodes: the walk of an
    insert down the tree ends within [2 * log2 (n + 1)] nodes, and the
    loop of [insertFix] after it tests its condition at most once more
    than that. *)
Theorem rbt_insert_is_logarithmic (s : state) (obj : Object) :
  reachable s ->
  let bound := 2 * Nat.log2 (length (heap s) + 1) in
  (exists res s1, descend bound obj (root s) None s = Some (res, s1)) /\
  (forall nd s1,
     attach obj s = Some (Some nd, s1) ->
     exists s2, fix_loop (S bound) nd s1 = Some (tt, s2)).
Proof.
  intros Hr. cbv zeta. destruct (reachable_inv s Hr) as (objs & T & Hinv).
  pose proof Hinv as [Hrep Hrb _ _].
  pose proof (rb_height T Hrb) as Hh. rewrite <- (rep_size_heap _ _ Hrep) in Hh.
  split.
  - rewrite (rep_root _ _ Hrep).
    destruct (descend_height obj T _ s [] (proj2 (zrep_top _ _) Hrep) Hh)
      as (res & s1 & E & _).
    by exists res, s1.
  - intros nd s1 Ha. eapply fix_loop_depth; [done|done|lia].
Qed.

Lemma rbt_insert_is_logarithmic_witness :
  reachable Samples.tree_ab /\
  let bound := 2 * Nat.log2 (length (heap Samples.tree_ab) + 1) in
  (exists res s1,
     descend bound (Samples.rec_ 3 "c") (root Samples.tree_ab) None Samples.tree_ab =
       Some (res, s1)) /\
  (forall nd s1,
     attach (Samples.rec_ 3 "c") Samples.tree_ab = Some (Some nd, s1) ->
     exists s2, fix_loop (S bound) nd s1 = Some (tt, s2)).
Proof.
  assert (reachable Samples.tree_ab) as H.
  { apply (reach_insert Samples.tree_a (Samples.rec_ 2 "b")); [|reflexivity].
    apply (reach_insert empty (Samples.rec_ 1 "a")); [|reflexivity].
    apply reach_empty. }
  split; [exact H|].
  exact (rbt_insert_is_logarithmic Samples.tree_ab (Samples.rec_ 3 "c") H).
Defined.

(** X11. Red-black tree: after any inserts the links of the store agree
    with each other -- the root has no parent and is the only such node,
    every child names its parent in its [parent] field, every parent
    named is a node that has the node as its left or right child, and
    the two children of a node are different nodes. *)
Theorem rbt_links_agree (objs : list Object) :
  exists s,
    insert_all objs empty = Some s /\
    (forall a, root s = Some a ->
       exists nd, heap s !! a = Some nd /\ parent nd = None) /\
    (forall a nd, heap s !! a = Some nd -> parent nd = None -> root s = Some a) /\
    (forall a nd c,
       heap s !! a = Some nd -> left nd = Some c \/ right nd = Some c ->
       exists cn, heap s !! c = Some cn /\ parent cn = Some a) /\
    (forall a nd p,
       heap s !! a = Some nd -> parent nd = Some p ->
       exists pn, heap s !! p = Some pn /\ (left pn = Some a \/ right pn = Some a)) /\
    (forall a nd c,
       heap s !! a = Some nd -> left nd = Some c -> right nd <> Some c).
Proof.
  destruct (built objs) as (s & T & Hi & Hinv & Hr).
  exists s. pose proof (inv_rep _ _ _ Hinv) as Hrep.
  split; [done|]. split; [|split; [|split; [|split]]].
  - intros a Ha. rewrite (rep_root _ _ Hrep) in Ha.
    destruct T as [|a0 c l k vs r]; [done|]. injection Ha as ->.
    eexists. split; [apply (rep_cells _ _ Hrep); apply list_elem_of_here|].
    reflexivity.
  - intros a nd Ha Hp. pose proof (rep_exact _ _ _ _ Hrep Ha) as Hc.
    destruct (cells_links _ _ _ _ Hc) as [_ [[_ Hroot]|(p & pn & Hp' & _)]].
    + by rewrite (rep_root _ _ Hrep).
    + congruence.
  - intros a nd c Ha Hc. pose proof (rep_exact _ _ _ _ Hrep Ha) as Hin.
    destruct (cells_links _ _ _ _ Hin) as [Hch _].
    destruct (Hch c Hc) as (cn & Hcn & Hp).
    exists cn. split; [|done]. by apply (rep_cells _ _ Hrep).
  - intros a nd p Ha Hp. pose proof (rep_exact _ _ _ _ Hrep Ha) as Hin.
    destruct (cells_links _ _ _ _ Hin) as [_ [[Hp' _]|(p' & pn & Hp' & Hpn & Hlr)]].
    + congruence.
    + rewrite Hp in Hp'. injection Hp' as <-.
      exists pn. split; [|done]. by apply (rep_cells _ _ Hrep).
  - intros a nd c Ha. pose proof (rep_exact _ _ _ _ Hrep Ha) as Hin.
    eapply cells_children_differ; [apply (rep_nodup _ _ Hrep)|done].
Qed.

(** X12. Red-black tree, any store: an insert that returns has removed
    no node, changed no key and dropped no record -- every node is still
    there, under its key, with its records and at most more behind
    them. *)
Theorem rbt_insert_keeps_nodes (s s' : state) (obj : Object) :
  insert obj s = Some (tt, s') ->
  length (heap s) <= length (heap s') /\
  (forall a nd, heap s !! a = Some nd ->
     exists nd', heap s' !! a = Some nd' /\ key nd' = key nd /\
                 values nd `prefix_of` values nd').
Proof. intros H. by destruct (mono_insert obj _ _ _ H) as [? ? _]. Qed.

Lemma rbt_insert_keeps_nodes_witness :
  insert (Samples.rec_ 2 "b") Samples.tree_a = Some (tt, Samples.tree_ab) /\
  length (heap Samples.tree_a) <= length (heap Samples.tree_ab) /\
  (forall a nd, heap Samples.tree_a !! a = Some nd ->
     exists nd', heap Samples.tree_ab !! a = Some nd' /\ key nd' = key nd /\
                 values nd `prefix_of` values nd').
Proof.
  split; [reflexivity|].
  apply (rbt_insert_keeps_nodes Samples.tree_a Samples.tree_ab (Samples.rec_ 2 "b")).
  reflexivity.
Defined.

(** X13. Red-black tree: an insert under a key that a node of the tree
    has changes that node and nothing else, and of that node the records
    only: the new record goes behind them; no node is allocated,
    recoloured or moved. *)
Theorem rbt_insert_known_key (s : state) (a : nat) (nd : Node) (obj : Object) :
  reachable s -> heap s !! a = Some nd -> key nd = name obj ->
  insert obj s =
    Some (tt, mkState (root s) (<[a := push_value obj nd]> (heap s))).
Proof.
  intros Hr Ha Hk. destruct (reachable_inv s Hr) as (objs & T & Hinv).
  by eapply insert_known.
Qed.

Lemma rbt_insert_known_key_witness :
  reachable Samples.tree_ab /\
  heap Samples.tree_ab !! 1 =
    Some (mkNode "b" [Samples.rec_ 2 "b"] RED None None (Some 0)) /\
  key (mkNode "b" [Samples.rec_ 2 "b"] RED None None (Some 0)) =
    name (Samples.rec_ 3 "b") /\
  insert (Samples.rec_ 3 "b") Samples.tree_ab =
    Some (tt, mkState (root Samples.tree_ab)
                (<[1 := push_value (Samples.rec_ 3 "b")
                          (mkNode "b" [Samples.rec_ 2 "b"] RED None None (Some 0))]>
                   (heap Samples.tree_ab))).
Proof.
  assert (reachable Samples.tree_ab) as H.
  { apply (reach_insert Samples.tree_a (Samples.rec_ 2 "b")); [|reflexivity].
    apply (reach_insert empty (Samples.rec_ 1 "a")); [|reflexivity].
    apply reach_empty. }
  split; [exact H|]. split; [reflexivity|]. split; [reflexivity|].
  apply (rbt_insert_known_key Samples.tree_ab 1 _ (Samples.rec_ 3 "b") H);
    reflexivity.
Defined.

(** X14. Red-black tree: an insert under a key that no node of the tree
    has allocates exactly one node, which carries the key and the record
    alone; every other node keeps its key and its records (links and
    colours may change). *)
Theorem rbt_insert_new_key (s : state) (obj : Object) :
  reachable s ->
  (forall a nd, heap s !! a = Some nd -> key nd <> name obj) ->
  exists s',
    insert obj s = Some (tt, s') /\
    length (heap s') = S (length (heap s)) /\
    (exists nd, heap s' !! length (heap s) = Some nd /\
                key nd = name obj /\ values nd = [obj]) /\
    (forall a nd, heap s !! a = Some nd ->
       exists nd', heap s' !! a = Some nd' /\
                   key nd' = key nd /\ values nd' = values nd).
Proof.
  intros Hr Hno. destruct (reachable_inv s Hr) as (objs & T & Hinv).
  apply (insert_new objs s T obj Hinv Hr).
  intros Hin. destruct (names_heap_key _ _ _ _ Hinv Hr Hin) as (a & nd & Ha & Hk).
  by apply (Hno a nd).
Qed.

Lemma rbt_insert_new_key_witness :
  reachable Samples.tree_ab /\
  (forall a nd, heap Samples.tree_ab !! a = Some nd ->
                key nd <> name (Samples.rec_ 3 "c")) /\
  exists s',
    insert (Samples.rec_ 3 "c") Samples.tree_ab = Some (tt, s') /\
    length (heap s') = S (length (heap Samples.tree_ab)) /\
    (exists nd, heap s' !! length (heap Samples.tree_ab) = Some nd /\
                key nd = name (Samples.rec_ 3 "c") /\
                values nd = [Samples.rec_ 3 "c"]) /\
    (forall a nd, heap Samples.tree_ab !! a = Some nd ->
       exists nd', heap s' !! a = Some nd' /\
                   key nd' = key nd /\ values nd' = values nd).
Proof.
  assert (reachable Samples.tree_ab) as H.
  { apply (reach_insert Samples.tree_a (Samples.rec_ 2 "b")); [|reflexivity].
    apply (reach_insert empty (Samples.rec_ 1 "a")); [|reflexivity].
    apply reach_empty. }
  assert (forall a nd, heap Samples.tree_ab !! a = Some nd ->
                       key nd <> name (Samples.rec_ 3 "c")) as Hno.
  { intros [|[|a]] nd; simpl; intros [= <-]; discriminate. }
  split; [exact H|]. split; [exact Hno|].
  exact (rbt_insert_new_key Samples.tree_ab (Samples.rec_ 3 "c") H Hno).
Defined.

(** X15. The two trees hold the same entries: after the same inserts
    the red-black tree, read in symmetric order, lists the keys and
    records that the unbalanced tree lists, and both have one node for
    each distinct name. *)
Theorem trees_hold_the_same_entries (objs : list Object) :
  let t := BinarySearchTree.insert_all objs BinarySearchTree.empty in
  exists s T,
    insert_all objs empty = Some s /\ represents s T /\
    inorder T = BinarySearchTree.entries t /\
    length (heap s) = BinarySearchTree.node_count t /\
    length (heap s) = length (remove_dups (name <$> objs)) /\
    (forall k, k ∈ name <$> objs <->
               exists a nd, heap s !! a = Some nd /\ key nd = k).
Proof.
  simpl. destruct (built objs) as (s & T & Hi & Hinv & Hr).
  exists s, T. split; [done|]. split; [apply Hinv|].
  pose proof (inorder_entries _ _ _ Hinv Hr) as He.
  split; [done|].
  pose proof (node_count_names _ _ _ Hinv Hr) as Hn.
  split; [|split; [done|]].
  - rewrite Hn, BSTMore.node_count_keys. symmetry.
    apply Permutation_length, NoDup_Permutation.
    + apply BSTProofs.ordered_keys_NoDup.
      exact (BSTProofs.ordered_insert_all objs BinarySearchTree.empty I).
    + apply NoDup_remove_dups.
    + intros x. rewrite BSTMore.keys_insert_all, elem_of_remove_dups. simpl.
      rewrite elem_of_nil. tauto.
  - intros k. split; [by eapply names_heap_key|].
    intros (a & nd & Ha & <-). by eapply heap_key_names.
Qed.

(** X16. Red-black tree: a right rotation about the node that a left
    rotation has lifted undoes the left rotation -- the store is again
    what it was, links, colours and root included; and the other way
    round. *)
Theorem rotations_are_inverse (s : state) (ctx : list frame)
    (x y : nat) (cx cy : Color) (A B D : atree) (kx ky : string)
    (vx vy : list Object) :
  represents s (plug ctx (Tr x cx A kx vx (Tr y cy B ky vy D))) ->
  (exists s',
     rotateLeft (Some x) s = Some (tt, s') /\
     represents s' (plug ctx (Tr y cy (Tr x cx A kx vx B) ky vy D)) /\
     rotateRight (Some y) s' = Some (tt, s)) /\
  (forall s0,
     represents s0 (plug ctx (Tr x cx (Tr y cy A ky vy B) kx vx D)) ->
     exists s1,
       rotateRight (Some x) s0 = Some (tt, s1) /\
       represents s1 (plug ctx (Tr y cy A ky vy (Tr x cx B kx vx D))) /\
       rotateLeft (Some y) s1 = Some (tt, s0)).
Proof.
  intros Hrep. split.
  - pose proof (proj2 (zrep_plug _ _ _) Hrep) as H.
    destruct (rotateLeft_spec _ _ _ _ _ _ _ _ _ _ _ _ _ H) as (s' & E & H').
    destruct (rotateRight_spec _ _ _ _ _ _ _ _ _ _ _ _ _ H') as (s2 & E2 & H2).
    exists s'. split; [done|]. split; [by apply zrep_plug|].
    rewrite E2. do 2 f_equal.
    apply zrep_plug in H2. by eapply rep_unique.
  - intros s0 Hrep0. pose proof (proj2 (zrep_plug _ _ _) Hrep0) as H.
    destruct (rotateRight_spec _ _ _ _ _ _ _ _ _ _ _ _ _ H) as (s' & E & H').
    destruct (rotateLeft_spec _ _ _ _ _ _ _ _ _ _ _ _ _ H') as (s2 & E2 & H2).
    exists s'. split; [done|]. split; [by apply zrep_plug|].
    rewrite E2. do 2 f_equal.
    apply zrep_plug in H2. by eapply rep_unique.
Qed.

Lemma rotations_are_inverse_witness :
  represents Samples.tree_ab
    (plug [] (Tr 0 BLACK Leaf "a" [Samples.rec_ 1 "a"]
                (Tr 1 RED Leaf "b" [Samples.rec_ 2 "b"] Leaf))) /\
  (exists s',
     rotateLeft (Some 0) Samples.tree_ab = Some (tt, s') /\
     represents s'
       (plug [] (Tr 1 RED (Tr 0 BLACK Leaf "a" [Samples.rec_ 1 "a"] Leaf)
                   "b" [Samples.rec_ 2 "b"] Leaf)) /\
     rotateRight (Some 1) s' = Some (tt, Samples.tree_ab)) /\
  (forall s0,
     represents s0
       (plug [] (Tr 0 BLACK (Tr 1 RED Leaf "b" [Samples.rec_ 2 "b"] Leaf)
                   "a" [Samples.rec_ 1 "a"] Leaf)) ->
     exists s1,
       rotateRight (Some 0) s0 = Some (tt, s1) /\
       represents s1
         (plug [] (Tr 1 RED Leaf "b" [Samples.rec_ 2 "b"]
                     (Tr 0 BLACK Leaf "a" [Samples.rec_ 1 "a"] Leaf))) /\
       rotateLeft (Some 1) s1 = Some (tt, s0)).
Proof.
  assert (represents Samples.tree_ab
            (plug [] (Tr 0 BLACK Leaf "a" [Samples.rec_ 1 "a"]
                        (Tr 1 RED Leaf "b" [Samples.rec_ 2 "b"] Leaf)))) as H.
  { split; simpl.
    - reflexivity.
    - apply NoDup_ListNoDup. repeat constructor; simpl; intuition lia.
    - intros a nd Hin. apply list_elem_of_In in Hin. simpl in Hin.
      destruct Hin as [[= <- <-]|[[= <- <-]|[]]]; reflexivity.
    - reflexivity. }
  split; [exact H|].
  exact (rotations_are_inverse Samples.tree_ab [] 0 1 BLACK RED Leaf Leaf Leaf
           "a" "b" [Samples.rec_ 1 "a"] [Samples.rec_ 2 "b"] H).
Defined.

(** X17. Red-black tree: the destructor deletes every node of the tree
    exactly once, children before their parent, and reads no node after
    its deletion. *)
Theorem destructor_frees_every_node_once (objs : list Object) :
  exists s T freed,
    insert_all objs empty = Some s /\ represents s T /\
    destroy s = Some freed /\
    freed = postorder T /\ NoDup freed /\
    (forall a, a ∈ freed <-> a < length (heap s)).
Proof.
  destruct (built objs) as (s & T & Hi & Hinv & Hr).
  pose proof (inv_rep _ _ _ Hinv) as Hrep.
  exists s, T, (postorder T). split; [done|]. split; [done|].
  split; [by apply destroy_spec|]. split; [done|].
  pose proof (rep_addrs_all _ _ Hrep) as Hp.
  split.
  - rewrite postorder_addrs. apply (rep_nodup _ _ Hrep).
  - intros a. rewrite postorder_addrs, Hp, elem_of_seq. lia.
Qed.

End RedBlackMore.

(** ** The multimap *)

Module MultimapProofs.
Import Multimap.

Lemma str_le_lt_trans a b c :
  str_lt a b = true -> str_lt c b = false -> str_lt a c = true.
Proof.
  intros Hab Hcb. destruct (str_eq b c) eqn:E.
  - apply str_eq_true in E. by subst.
  - eapply str_lt_trans; [done|].
    apply str_lt_total; [|done].
    apply str_eq_false. apply str_eq_false in E. congruence.
Qed.

Lemma insert_perm kv m : insert kv m ≡ₚ kv :: m.
Proof.
  induction m as [|e m IH]; simpl; [done|].
  destruct (str_lt kv.1 e.1); [done|]. rewrite IH. apply Permutation_swap.
Qed.

Lemma insert_ascending kv m : ascending m -> ascending (insert kv m).
Proof.
  unfold ascending. induction 1 as [|e m Hs IH He]; simpl.
  - repeat constructor.
  - destruct (str_lt kv.1 e.1) eqn:E.
    + constructor; [by constructor|]. constructor.
      * by apply str_lt_asym.
      * eapply Forall_impl; [exact He|]. simpl. intros x Hx.
        apply str_lt_asym. by eapply str_le_lt_trans.
    + constructor; [done|]. rewrite insert_perm. by constructor.
Qed.

Lemma above_none key e (m : list (string * Object)) :
  ascending (e :: m) -> str_lt key e.1 = true ->
  filter (fun x => x.1 = key) (e :: m) = [].
Proof.
  intros Hs Hk. apply StronglySorted_inv in Hs as [_ He].
  assert (Forall (fun x => x.1 <> key) (e :: m)) as Hall.
  { constructor.
    - intros E. rewrite E in Hk. by rewrite str_lt_irrefl in Hk.
    - eapply Forall_impl; [exact He|]. simpl. intros x Hx E.
      pose proof (str_le_lt_trans _ _ _ Hk Hx) as H. rewrite E in H.
      by rewrite str_lt_irrefl in H. }
  clear -Hall. induction Hall as [|x l Hx _ IH]; [done|].
  by rewrite filter_cons_False.
Qed.

Lemma take_upper key (m : list (string * Object)) :
  ascending m -> Forall (fun e => str_lt e.1 key = false) m ->
  take (upper_bound key m) m = filter (fun x => x.1 = key) m.
Proof.
  induction m as [|e m IH]; intros Hs Hge; [done|].
  apply Forall_cons in Hge as [He Hge]. simpl upper_bound.
  destruct (str_lt key e.1) eqn:E.
  - simpl. symmetry. by apply above_none.
  - assert (e.1 = key) as Hk.
    { destruct (str_eq e.1 key) eqn:Q; [by apply str_eq_true|].
      by rewrite (str_lt_total _ _ Q He) in E. }
    rewrite filter_cons_True by done.
    change (take (S (upper_bound key m)) (e :: m))
      with (e :: take (upper_bound key m) m).
    f_equal. apply IH; [|done]. by apply StronglySorted_inv in Hs as [? _].
Qed.

Lemma between_equal_range key (m : list (string * Object)) :
  ascending m ->
  between (lower_bound key m) (upper_bound key m) m =
  filter (fun x => x.1 = key) m.
Proof.
  unfold between. induction m as [|e m IH]; intros Hs; [done|].
  pose proof Hs as [Hs' He]%StronglySorted_inv.
  simpl lower_bound. destruct (str_lt e.1 key) eqn:E.
  - simpl upper_bound. rewrite (str_lt_asym _ _ E).
    change (take (S (upper_bound key m) - S (lower_bound key m))
              (drop (S (lower_bound key m)) (e :: m)))
      with (take (upper_bound key m - lower_bound key m)
              (drop (lower_bound key m) m)).
    rewrite filter_cons_False; [by apply IH|].
    intros Q. rewrite Q in E. by rewrite str_lt_irrefl in E.
  - rewrite Nat.sub_0_r. simpl drop. apply take_upper; [done|].
    constructor; [done|].
    eapply Forall_impl; [exact He|]. simpl. intros x Hx.
    destruct (str_lt x.1 key) eqn:Q; [|done].
    destruct (str_eq e.1 key) eqn:Q2.
    + apply str_eq_true in Q2. rewrite <- Q2 in Q. congruence.
    + pose proof (str_lt_total _ _ Q2 E) as Hke.
      pose proof (str_lt_trans _ _ _ Q Hke). congruence.
Qed.

Lemma filter_insert key kv (m : list (string * Object)) :
  ascending m ->
  filter (fun x => x.1 = key) (insert kv m) =
  filter (fun x => x.1 = key) m ++ (if str_eq kv.1 key then [kv] else []).
Proof.
  unfold multimap. induction m as [|e m IH]; intros Hs; simpl.
  - destruct (str_eq kv.1 key) eqn:Q.
    + apply str_eq_true in Q. by rewrite filter_cons_True.
    + apply str_eq_false in Q. by rewrite filter_cons_False.
  - destruct (str_lt kv.1 e.1) eqn:E.
    + destruct (str_eq kv.1 key) eqn:Q.
      * apply str_eq_true in Q. rewrite filter_cons_True by done.
        rewrite <- Q in *. by rewrite (above_none _ _ _ Hs E).
      * apply str_eq_false in Q. rewrite (filter_cons_False _ kv) by done.
        by rewrite app_nil_r.
    + apply StronglySorted_inv in Hs as [Hs' _].
      rewrite !(filter_cons _ e), IH by done. by destruct (decide (e.1 = key)).
Qed.

Lemma insert_all_ascending objs : forall m,
  ascending m -> ascending (insert_all objs m).
Proof.
  induction objs as [|o objs IH]; intros m Hs; [done|].
  apply IH. by apply insert_ascending.
Qed.

Lemma filter_insert_all key objs : forall m : list (string * Object),
  ascending m ->
  (filter (fun x => x.1 = key) (insert_all objs m)).*2 =
  (filter (fun x => x.1 = key) m).*2 ++ linearSearch objs key.
Proof.
  induction objs as [|o objs IH]; intros m Hs.
  - by rewrite app_nil_r.
  - change (insert_all (o :: objs) m) with (insert_all objs (insert (name o, o) m)).
    rewrite IH by (by apply insert_ascending).
    rewrite filter_insert by done. rewrite fmap_app, <- app_assoc. f_equal.
    change (o :: objs) with ([o] ++ objs). rewrite linearSearch_app. f_equal.
    unfold linearSearch. simpl. by destruct (str_eq (name o) key).
Qed.

Lemma multimapSearch_filter (m : list (string * Object)) key :
  ascending m -> multimapSearch m key = (filter (fun x => x.1 = key) m).*2.
Proof.
  intros Hs. unfold multimapSearch, equal_range. simpl.
  rewrite between_equal_range by done.
  generalize (filter (fun x => x.1 = key) m). intros l.
  assert (forall acc, fold_left (fun result e => result ++ [e.2]) l acc = acc ++ l.*2)
    as H.
  { induction l as [|e l IH]; intros acc; simpl; [by rewrite app_nil_r|].
    by rewrite IH, <- app_assoc. }
  apply H.
Qed.

Lemma multimapSearch_insert_all objs key :
  multimapSearch (insert_all objs empty) key = linearSearch objs key.
Proof.
  rewrite multimapSearch_filter by (apply insert_all_ascending; constructor).
  by rewrite filter_insert_all by constructor.
Qed.

End MultimapProofs.

Section MultimapMore.
Import Multimap MultimapProofs.

(** X18. Multimap: [multimapSearch] on the multimap filled with
    [{o.name, o}] for the records of [data] returns what [linearSearch]
    returns on [data] -- the records named [key] in the order of their
    insertion; the equal range of a key that was not inserted is
    empty. *)
Theorem multimap_search_is_linear_search (data : list Object) (key : string) :
  multimapSearch (insert_all data empty) key = linearSearch data key /\
  (key ∉ name <$> data -> multimapSearch (insert_all data empty) key = []) /\
  length (insert_all data empty) = length data /\
  (forall o, o ∈ data -> (name o, o) ∈ insert_all data empty).
Proof.
  split; [apply multimapSearch_insert_all|]. split; [|split].
  - intros Hno. rewrite multimapSearch_insert_all.
    destruct (linearSearch data key) eqn:E; [done|].
    exfalso. apply Hno, linearSearch_names. by rewrite E.
  - assert (forall objs m, length (insert_all objs m) = length m + length objs) as H.
    { induction objs as [|o objs IH]; intros m; [simpl; lia|].
      change (insert_all (o :: objs) m) with (insert_all objs (insert (name o, o) m)).
      rewrite IH, insert_perm. simpl. lia. }
    apply H.
  - assert (forall objs m x, x ∈ insert_all objs m <->
              (exists o, o ∈ objs /\ x = (name o, o)) \/ x ∈ m) as H.
    { induction objs as [|o objs IH]; intros m x.
      - simpl. split; [by right|]. intros [(o & Ho & _)|H]; [|done].
        by apply elem_of_nil in Ho.
      - change (insert_all (o :: objs) m) with (insert_all objs (insert (name o, o) m)).
        rewrite IH, insert_perm, elem_of_cons. split.
        + intros [(o' & Ho' & ->)|[->|H]].
          * left. exists o'. split; [by apply list_elem_of_further|done].
          * left. exists o. split; [apply list_elem_of_here|done].
          * by right.
        + intros [(o' & [->|Ho']%elem_of_cons & ->)|H].
          * right. by left.
          * left. by exists o'.
          * right. by right. }
    intros o Ho. apply H. left. by exists o.
Qed.

End MultimapMore.

(** ** The data generator *)

Module GeneratorProofs.
Import Generator.
Local Open Scope Z_scope.

(** The powers of two in a goal and its hypotheses, evaluated. *)
Ltac pow_eval :=
  change (32 - 1) with 31 in *;
  change (2 ^ 31) with 2147483648 in *;
  change (2 ^ 32) with 4294967296 in *.

Lemma to_int_small x : 0 <= x < 2 ^ 31 -> to_int x = x.
Proof.
  intros Hx. unfold to_int, INT_BITS. pow_eval.
  rewrite Z.mod_small by lia. destruct (Z.ltb_spec x 2147483648); lia.
Qed.

Lemma to_int_large x : 2 ^ 31 <= x <= 2 ^ 32 -> to_int x <= 0.
Proof.
  intros Hx. unfold to_int, INT_BITS. pow_eval.
  destruct (decide (x = 4294967296)) as [->|Hne]; [done|].
  rewrite Z.mod_small by lia. destruct (Z.ltb_spec x 2147483648); lia.
Qed.

Lemma name_count_range size :
  0 <= size < 5 * 2 ^ 31 -> 1 <= name_count size < 2 ^ 31.
Proof.
  intros Hs. unfold name_count. pow_eval.
  assert (0 <= size / 5 < 2147483648).
  { split; [apply Z.div_pos; lia|]. apply Z.div_lt_upper_bound; lia. }
  lia.
Qed.

Lemma name_inj k1 k2 :
  ("Name" +:+ to_string k1 = "Name" +:+ to_string k2)%string -> k1 = k2.
Proof.
  unfold to_string. intros H. apply (inj (String.app "Name")) in H.
  by apply pretty_Z_inj in H.
Qed.

Section Engine.
Variable engine : Type.
Variable draw_int : Z -> Z -> engine -> Z * engine.
Variable draw_real : engine -> float * engine.
Variable name_first : bool.

Hypothesis draw_int_range :
  forall a b g, a <= b -> a <= (draw_int a b g).1 <= b.

Lemma generateRandomName_ok nameCount g :
  1 <= nameCount ->
  exists k g',
    generateRandomName engine draw_int nameCount g =
      Some (("Name" +:+ to_string k)%string, g') /\
    draw_int 0 (nameCount - 1) g = (k, g') /\ 0 <= k < nameCount.
Proof.
  intros Hn. unfold generateRandomName, uniform_int.
  destruct (Z.ltb_spec (nameCount - 1) 0); [lia|].
  pose proof (draw_int_range 0 (nameCount - 1) g ltac:(lia)) as Hr.
  destruct (draw_int 0 (nameCount - 1) g) as [k g'] eqn:Hd. simpl in Hr.
  exists k, g'. split; [done|]. split; [done|]. lia.
Qed.

Lemma generateRandomName_none nameCount g :
  nameCount <= 0 -> generateRandomName engine draw_int nameCount g = None.
Proof.
  intros Hn. unfold generateRandomName, uniform_int.
  destruct (Z.ltb_spec (nameCount - 1) 0); [done|lia].
Qed.

Lemma emplace_ok i nameCount g :
  1 <= nameCount < 2 ^ 31 ->
  exists o g',
    emplace engine draw_int draw_real name_first i nameCount g = Some (o, g') /\
    drawn nameCount i o.
Proof.
  intros Hn. unfold emplace. rewrite to_int_small by lia.
  destruct name_first.
  - destruct (generateRandomName_ok nameCount g ltac:(lia)) as (k & g1 & -> & _ & Hk).
    destruct (draw_real g1) as [v g2]. eexists _, _. split; [done|].
    split; [done|]. by exists k.
  - destruct (draw_real g) as [v g1].
    destruct (generateRandomName_ok nameCount g1 ltac:(lia)) as (k & g2 & -> & _ & Hk).
    eexists _, _. split; [done|]. split; [done|]. by exists k.
Qed.

Lemma emplace_none i nameCount g :
  to_int nameCount <= 0 ->
  emplace engine draw_int draw_real name_first i nameCount g = None.
Proof.
  intros Hn. unfold emplace. destruct name_first.
  - by rewrite generateRandomName_none.
  - destruct (draw_real g) as [v g1]. by rewrite generateRandomName_none.
Qed.

Lemma fill_ok nameCount : forall todo i g data,
  1 <= nameCount < 2 ^ 31 ->
  exists more g',
    fill engine draw_int draw_real name_first todo i nameCount g data =
      Some (data ++ more, g') /\
    length more = todo /\
    (forall j o, more !! j = Some o -> drawn nameCount (i + Z.of_nat j) o).
Proof.
  induction todo as [|todo IH]; intros i g data Hn; simpl.
  - exists [], g. rewrite app_nil_r. split; [done|]. split; [done|].
    intros j o. by rewrite lookup_nil.
  - destruct (emplace_ok i nameCount g Hn) as (o & g1 & -> & Ho).
    destruct (IH (i + 1) g1 (data ++ [o]) Hn) as (more & g' & -> & Hlen & Hall).
    exists (o :: more), g'. rewrite <- app_assoc. split; [done|].
    split; [simpl; lia|].
    intros [|j] o' Hj.
    + injection Hj as <-. by rewrite Z.add_0_r.
    + specialize (Hall j o' Hj).
      replace (i + Z.of_nat (S j)) with (i + 1 + Z.of_nat j) by lia.
      done.
Qed.

Lemma generateData_ok size g :
  0 <= size < 5 * 2 ^ 31 ->
  exists data g',
    generateData engine draw_int draw_real name_first size g = Some (data, g') /\
    length data = Z.to_nat size /\
    (forall j o, data !! j = Some o -> drawn (name_count size) (Z.of_nat j) o).
Proof.
  intros Hs. unfold generateData.
  destruct (fill_ok (name_count size) (Z.to_nat size) 0 g []
              (name_count_range size Hs)) as (data & g' & -> & Hlen & Hall).
  exists data, g'. split; [done|]. split; [done|].
  intros j o Hj. by apply (Hall j o Hj).
Qed.

Lemma drawn_names nameCount (data : list Object) :
  (forall j o, data !! j = Some o -> drawn nameCount (Z.of_nat j) o) ->
  (length (remove_dups (name <$> data)) <= Z.to_nat nameCount)%nat.
Proof.
  intros Hall.
  set (pool := (fun k => ("Name" +:+ to_string k)%string) <$> seqZ 0 nameCount).
  assert (length pool = Z.to_nat nameCount) as <-
    by (unfold pool; by rewrite length_fmap, length_seqZ).
  apply submseteq_length, NoDup_submseteq; [apply NoDup_remove_dups|].
  intros nm. rewrite elem_of_remove_dups.
  intros (o & -> & (j & Hj)%list_elem_of_lookup_1)%list_elem_of_fmap.
  destruct (Hall j o Hj) as (_ & k & Hk & ->).
  apply list_elem_of_fmap. exists k. split; [done|].
  apply elem_of_seqZ. lia.
Qed.

Lemma drawn_ids nameCount (data : list Object) :
  (forall j o, data !! j = Some o -> drawn nameCount (Z.of_nat j) o) ->
  id <$> data = (fun j => Z.of_nat j + 1) <$> seq 0 (length data).
Proof.
  intros Hall. apply list_eq. intros j. rewrite !list_lookup_fmap.
  destruct (data !! j) as [o|] eqn:E; simpl.
  - rewrite lookup_seq_lt by (by eapply lookup_lt_Some). simpl.
    by destruct (Hall j o E) as (-> & _).
  - apply lookup_ge_None in E. by rewrite lookup_seq_ge.
Qed.

End Engine.

End GeneratorProofs.

Section GeneratorMore.
Import Generator GeneratorProofs.
Local Open Scope Z_scope.

(** X19. Generator: for fewer than [5 * 2 ^ 31] records and any engine
    whose integer draws stay in the range asked for, [generateData]
    returns as many records as asked, with the ids 1, 2, ... in order
    and names [Name<k>], [k] below [max (size / 5) 1]; so the records
    carry at most that many distinct names. *)
Theorem generated_data_shape (engine : Type)
    (draw_int : Z -> Z -> engine -> Z * engine)
    (draw_real : engine -> float * engine) (name_first : bool)
    (size : Z) (g : engine) :
  (forall a b g0, a <= b -> a <= (draw_int a b g0).1 <= b) ->
  0 <= size < 5 * 2 ^ 31 ->
  exists data g',
    generateData engine draw_int draw_real name_first size g = Some (data, g') /\
    length data = Z.to_nat size /\
    id <$> data = (fun j => Z.of_nat j + 1) <$> seq 0 (Z.to_nat size) /\
    (forall o, o ∈ data ->
       exists k, 0 <= k < name_count size /\
                 name o = ("Name" +:+ to_string k)%string) /\
    (length (remove_dups (name <$> data)) <= Z.to_nat (name_count size))%nat.
Proof.
  intros Hr Hs.
  destruct (generateData_ok engine draw_int draw_real name_first Hr size g Hs)
    as (data & g' & Hg & Hlen & Hall).
  exists data, g'. split; [done|]. split; [done|].
  split; [by rewrite (drawn_ids _ _ Hall), Hlen|]. split.
  - intros o (j & Hj)%list_elem_of_lookup_1. by destruct (Hall j o Hj) as [_ ?].
  - by eapply drawn_names.
Qed.

Lemma generated_data_shape_witness :
  (forall a b g0, a <= b -> a <= (Samples.step_int a b g0).1 <= b) /\
  0 <= 10 < 5 * 2 ^ 31 /\
  exists data g',
    generateData Z Samples.step_int Samples.step_real true 10 0 = Some (data, g') /\
    length data = Z.to_nat 10 /\
    id <$> data = (fun j => Z.of_nat j + 1) <$> seq 0 (Z.to_nat 10) /\
    (forall o, o ∈ data ->
       exists k, 0 <= k < name_count 10 /\
                 name o = ("Name" +:+ to_string k)%string) /\
    (length (remove_dups (name <$> data)) <= Z.to_nat (name_count 10))%nat.
Proof.
  assert (forall a b g0, a <= b -> a <= (Samples.step_int a b g0).1 <= b) as Hr.
  { intros a b g0 Hab. simpl.
    pose proof (Z.mod_pos_bound g0 (b - a + 1) ltac:(lia)). lia. }
  assert (0 <= 10 < 5 * 2 ^ 31) as Hs by (pow_eval; lia).
  split; [exact Hr|]. split; [exact Hs|].
  exact (generated_data_shape Z Samples.step_int Samples.step_real true 10 0 Hr Hs).
Defined.

(** X20. Generator: the number of names is computed as a [size_t] and
    passed as an [int]; from [5 * 2 ^ 31] records on the cast gives zero
    or a negative number, the range of the name distribution is empty,
    and [generateData] is undefined at its first record, whatever the
    engine. *)
Theorem generated_data_overflows (engine : Type)
    (draw_int : Z -> Z -> engine -> Z * engine)
    (draw_real : engine -> float * engine) (name_first : bool)
    (size : Z) (g : engine) :
  5 * 2 ^ 31 <= size < 5 * 2 ^ 32 + 5 ->
  to_int (name_count size) <= 0 /\
  generateData engine draw_int draw_real name_first size g = None.
Proof.
  intros Hs.
  assert (to_int (name_count size) <= 0) as Hn.
  { apply to_int_large. unfold name_count. pow_eval.
    assert (2147483648 <= size / 5) by (apply Z.div_le_lower_bound; lia).
    assert (size / 5 < 4294967297) by (apply Z.div_lt_upper_bound; lia).
    lia. }
  split; [done|]. unfold generateData.
  destruct (Z.to_nat size) as [|todo] eqn:E; [pow_eval; lia|].
  simpl. by rewrite emplace_none.
Qed.

Lemma generated_data_overflows_witness :
  5 * 2 ^ 31 <= 5 * 2 ^ 32 < 5 * 2 ^ 32 + 5 /\
  to_int (name_count (5 * 2 ^ 32)) <= 0 /\
  generateData Z Samples.step_int Samples.step_real true (5 * 2 ^ 32) 0 = None.
Proof.
  assert (5 * 2 ^ 31 <= 5 * 2 ^ 32 < 5 * 2 ^ 32 + 5) as Hs by (pow_eval; lia).
  split; [exact Hs|].
  exact (generated_data_overflows Z Samples.step_int Samples.step_real true
           (5 * 2 ^ 32) 0 Hs).
Defined.

(** X21. Generator: [generateRandomName] returns [Name] followed by the
    decimal digits of the number drawn, a number from 0 to
    [nameCount - 1]; different numbers give different names; for a
    [nameCount] of zero or less the distribution has an empty range and
    the call is undefined. *)
Theorem random_name_is_the_draw (engine : Type)
    (draw_int : Z -> Z -> engine -> Z * engine) (nameCount : Z) (g : engine) :
  (forall a b g0, a <= b -> a <= (draw_int a b g0).1 <= b) ->
  1 <= nameCount ->
  (exists k g',
     generateRandomName engine draw_int nameCount g =
       Some (("Name" +:+ to_string k)%string, g') /\
     draw_int 0 (nameCount - 1) g = (k, g') /\ 0 <= k < nameCount /\
     (forall k', ("Name" +:+ to_string k' = "Name" +:+ to_string k)%string ->
                 k' = k)) /\
  (forall n, n <= 0 -> generateRandomName engine draw_int n g = None).
Proof.
  intros Hr Hn. split.
  - destruct (generateRandomName_ok engine draw_int Hr nameCount g Hn)
      as (k & g' & Hg & Hd & Hk).
    exists k, g'. split; [done|]. split; [done|]. split; [done|].
    intros k'. apply name_inj.
  - intros n. apply generateRandomName_none.
Qed.

Lemma random_name_is_the_draw_witness :
  (forall a b g0, a <= b -> a <= (Samples.step_int a b g0).1 <= b) /\
  1 <= 20 /\
  (exists k g',
     generateRandomName Z Samples.step_int 20 42 =
       Some (("Name" +:+ to_string k)%string, g') /\
     Samples.step_int 0 (20 - 1) 42 = (k, g') /\ 0 <= k < 20 /\
     (forall k', ("Name" +:+ to_string k' = "Name" +:+ to_string k)%string ->
                 k' = k)) /\
  (forall n, n <= 0 -> generateRandomName Z Samples.step_int n 42 = None).
Proof.
  assert (forall a b g0, a <= b -> a <= (Samples.step_int a b g0).1 <= b) as Hr.
  { intros a b g0 Hab. simpl.
    pose proof (Z.mod_pos_bound g0 (b - a + 1) ltac:(lia)). lia. }
  split; [exact Hr|]. split; [lia|].
  exact (random_name_is_the_draw Z Samples.step_int 20 42 Hr ltac:(lia)).
Defined.

End GeneratorMore.

(** ** The measurement rounds *)

Module DriverProofs.
Import Generator GeneratorProofs Driver DriverSpec.
Local Open Scope Z_scope.

(** The loop that fills the four structures does to each what its own
    inserts do. *)
Lemma fill_all_each data : forall st r' h',
  RedBlackTree.insert_all data (rbt st) = Some r' ->
  HashTable.insert_all data (hashTable st) = Some h' ->
  fill_all data st =
  Some (mkStructures (BinarySearchTree.insert_all data (bst st)) r' h'
          (Multimap.insert_all data (mmap st))).
Proof.
  induction data as [|o data IH]; intros st r' h'; simpl.
  - intros [= <-] [= <-]. by destruct st.
  - destruct (RedBlackTree.insert o (rbt st)) as [[[] r1]|]; [|done].
    destruct (HashTable.insert o (hashTable st)) as [h1|]; [|done].
    intros Hr Hh. by rewrite (IH _ r' h').
Qed.

Lemma build_ok data :
  data <> [] -> Z.of_nat (length data) < 2 ^ 64 ->
  exists st, build data = Some st /\ built_from data st.
Proof.
  intros Hne Hlen. unfold build.
  assert (0 < Z.of_nat (length data)) as Hpos by (destruct data; [done|simpl; lia]).
  destruct (HashMore.counted_create _ Hpos) as (ht0 & -> & Hc0).
  destruct (HashMore.counted_insert_all _ data [] ht0 Hc0 Hlen) as (ht & Hi & Hc).
  destruct (RedBlackProofs.insert_all_spec data [] RedBlackTree.empty RBShape.Leaf
              RedBlackProofs.empty_tree_inv) as (s & T & Hs & Hinv).
  eexists. split.
  - by apply fill_all_each.
  - split; simpl; [done|by exists T|done|done].
Qed.

Lemma search_all_ok data st key :
  built_from data st ->
  search_all data st key =
  Some (mkResults (linearSearch data key) (linearSearch data key)
          (linearSearch data key) (linearSearch data key) (linearSearch data key)).
Proof.
  intros [Hb [T Hr] Hh Hm]. unfold search_all.
  rewrite (RedBlackProofs.search_spec data _ T key Hr).
  rewrite (HashProofs.chained_search _ data _ key (HashSpec.cn_chained _ _ _ Hh)).
  rewrite Hb, Hm, BSTProofs.search_insert_all, MultimapProofs.multimapSearch_insert_all.
  done.
Qed.

Lemma search_keys_ok data st keys :
  built_from data st ->
  search_keys data st keys =
  Some ((fun key => mkResults (linearSearch data key) (linearSearch data key)
                      (linearSearch data key) (linearSearch data key)
                      (linearSearch data key)) <$> keys).
Proof.
  intros Hb. induction keys as [|key keys IH]; simpl; [done|].
  by rewrite (search_all_ok _ _ _ Hb), IH.
Qed.

Section Engine.
Variable engine : Type.
Variable draw_int : Z -> Z -> engine -> Z * engine.
Variable draw_size : Z -> Z -> engine -> Z * engine.
Variable draw_real : engine -> float * engine.
Variable name_first : bool.

Hypothesis draw_int_range :
  forall a b g, a <= b -> a <= (draw_int a b g).1 <= b.
Hypothesis draw_size_range :
  forall a b g, a <= b -> a <= (draw_size a b g).1 <= b.

Lemma pick_keys_ok data : forall count g searchKeys,
  data <> [] -> Z.of_nat (length data) < 2 ^ 64 ->
  exists keys g',
    pick_keys engine draw_size count data g searchKeys =
      Some (searchKeys ++ keys, g') /\
    length keys = count /\ Forall (fun k => k ∈ name <$> data) keys.
Proof.
  intros count g searchKeys Hne Hlen. revert g searchKeys.
  assert (0 < Z.of_nat (length data)) as Hpos by (destruct data; [done|simpl; lia]).
  induction count as [|count IH]; intros g searchKeys; simpl.
  - exists [], g. by rewrite app_nil_r.
  - unfold uniform_int, HashTable.wrap, HashTable.SIZE_BITS.
    rewrite Z.mod_small by lia.
    destruct (Z.ltb_spec (Z.of_nat (length data) - 1) 0); [lia|].
    pose proof (draw_size_range 0 (Z.of_nat (length data) - 1) g ltac:(lia)) as Hr.
    destruct (draw_size 0 (Z.of_nat (length data) - 1) g) as [idx g1]. simpl in Hr.
    destruct (lookup_lt_is_Some_2 data (Z.to_nat idx) ltac:(lia)) as [o Ho].
    rewrite Ho. destruct (IH g1 (searchKeys ++ [name o])) as (keys & g' & -> & Hl & Hk).
    exists (name o :: keys), g'. rewrite <- app_assoc. split; [done|].
    split; [simpl; lia|]. constructor; [|done].
    apply list_elem_of_fmap. exists o. split; [done|].
    by eapply list_elem_of_lookup_2.
Qed.

Lemma round_ok n g :
  1 <= n < 5 * 2 ^ 31 ->
  exists line rs g',
    round engine draw_int draw_size draw_real name_first n g = Some (line, rs, g') /\
    round_result n line rs.
Proof.
  intros Hn. unfold round.
  destruct (generateData_ok engine draw_int draw_real name_first draw_int_range
              n g ltac:(lia)) as (data & g1 & -> & Hlen & Hall).
  assert (data <> []) as Hne by (intros ->; simpl in Hlen; lia).
  assert (Z.of_nat (length data) = n) as Hlen' by lia.
  assert (Z.of_nat (length data) < 2 ^ 64) as Hbound.
  { rewrite Hlen'. pow_eval. lia. }
  destruct (build_ok data Hne Hbound) as (st & -> & Hb).
  destruct (pick_keys_ok data 10 g1 [] Hne Hbound) as (keys & g2 & -> & Hkl & Hkeys).
  simpl. rewrite (search_keys_ok _ _ _ Hb).
  destruct (bf_rbt _ _ Hb) as [T Hinv].
  rewrite (RBMore.destroy_spec _ T) by apply Hinv.
  eexists _, _, _. split; [done|].
  split; [done|]. simpl. split; [|split].
  - destruct (bf_hash _ _ Hb) as [_ Hsum Hnames Hfirst].
    pose proof (drawn_names _ _ Hall) as Hd. specialize (Hfirst Hne).
    unfold HashTable.getCollisionCount.
    pose proof (name_count_range n ltac:(lia)). lia.
  - by rewrite length_fmap.
  - apply Forall_fmap. eapply Forall_impl; [exact Hkeys|]. simpl.
    intros k Hk. split; [|done]. by apply linearSearch_names.
Qed.

Lemma rounds_ok sizes : forall g,
  Forall (fun n => 1 <= n < 5 * 2 ^ 31) sizes ->
  exists out g',
    rounds engine draw_int draw_size draw_real name_first sizes g = Some (out, g') /\
    Forall2 (fun n lr => round_result n lr.1 lr.2) sizes out.
Proof.
  induction sizes as [|n sizes IH]; intros g Hall; simpl.
  - by exists [], g.
  - apply Forall_cons in Hall as [Hn Hall].
    destruct (round_ok n g Hn) as (line & rs & g1 & -> & Hr).
    destruct (IH g1 Hall) as (out & g' & -> & Hout).
    exists ((line, rs) :: out), g'. split; [done|]. by constructor.
Qed.

End Engine.

End DriverProofs.

Section DriverMore.
Import Generator GeneratorProofs Driver DriverSpec DriverProofs.
Local Open Scope Z_scope.

(** X22. The rounds of [main]: for any engine whose integer draws stay
    in the range asked for, every round runs without a fault -- the
    table gets as many buckets as there are records, at least 100; the
    ten search keys are names of records; the five searches for a key
    return the same records, at least one; the destructor of the
    red-black tree frees its nodes; and the collision count that the
    round writes lies between four fifths of the number of records and
    the number of records less one. *)
Theorem main_rounds_succeed (engine : Type)
    (draw_int draw_size : Z -> Z -> engine -> Z * engine)
    (draw_real : engine -> float * engine) (name_first : bool) (g : engine) :
  (forall a b g0, a <= b -> a <= (draw_int a b g0).1 <= b) ->
  (forall a b g0, a <= b -> a <= (draw_size a b g0).1 <= b) ->
  exists out g',
    main engine draw_int draw_size draw_real name_first g = Some (out, g') /\
    Forall2
      (fun n lr =>
         row_size lr.1 = n /\
         n - n / 5 <= row_collisions lr.1 <= n - 1 /\
         length lr.2 = 10%nat /\
         Forall (fun r => r1 r <> [] /\ r2 r = r1 r /\ r3 r = r1 r /\
                          r4 r = r1 r /\ r5 r = r1 r) lr.2)
      testSizes out.
Proof.
  intros Hi Hs. unfold main.
  assert (Forall (fun n => 100 <= n < 5 * 2 ^ 31) testSizes) as Hsizes.
  { unfold testSizes. pow_eval. repeat constructor; lia. }
  destruct (rounds_ok engine draw_int draw_size draw_real name_first Hi Hs testSizes g)
    as (out & g' & Hm & Hout).
  { eapply Forall_impl; [exact Hsizes|]. simpl. lia. }
  exists out, g'. split; [done|].
  revert Hsizes Hout. generalize testSizes. clear.
  intros sizes Hsizes Hout. induction Hout as [|n lr sizes out Hr _ IH].
  - constructor.
  - apply Forall_cons in Hsizes as [Hn Hsizes].
    constructor; [|by apply IH].
    destruct Hr as (Hrow & Hcol & Hrest). split; [done|]. split; [|done].
    unfold name_count in Hcol.
    assert (20 <= n / 5) by (apply Z.div_le_lower_bound; lia). lia.
Qed.

Lemma main_rounds_succeed_witness :
  (forall a b g0, a <= b -> a <= (Samples.step_int a b g0).1 <= b) /\
  (forall a b g0, a <= b -> a <= (Samples.step_int a b g0).1 <= b) /\
  exists out g',
    main Z Samples.step_int Samples.step_int Samples.step_real true 0 =
      Some (out, g') /\
    Forall2
      (fun n lr =>
         row_size lr.1 = n /\
         n - n / 5 <= row_collisions lr.1 <= n - 1 /\
         length lr.2 = 10%nat /\
         Forall (fun r => r1 r <> [] /\ r2 r = r1 r /\ r3 r = r1 r /\
                          r4 r = r1 r /\ r5 r = r1 r) lr.2)
      testSizes out.
Proof.
  assert (forall a b g0, a <= b -> a <= (Samples.step_int a b g0).1 <= b) as Hr.
  { intros a b g0 Hab. simpl.
    pose proof (Z.mod_pos_bound g0 (b - a + 1) ltac:(lia)). lia. }
  split; [exact Hr|]. split; [exact Hr|].
  exact (main_rounds_succeed Z Samples.step_int Samples.step_int Samples.step_real
           true 0 Hr Hr).
Defined.

End DriverMore.
